(** * A host-side bridge for a Go/WebAssembly challenge module

    Shallow embedding of [src/challenge.ts] (class
    [VercelWasmChallengeSolver]): the memory marshaller, the object
    reference table, the [gojs] host-call handlers, the fallback
    synthesis and the solve protocol, with the properties the
    specification states about them.

    Conventions.
    - A JavaScript number that the code uses as an integer (pointers,
      ids, lengths, bytes) is a [Z]; 32-bit operators are written out
      with their wrap-around ([ToInt32], [ToUint32]).
    - A JavaScript string is the list of its UTF-16 code units.
    - The linear memory is the list of its bytes; a [Uint8Array] read
      out of range gives [undefined] (which the bit operators turn into
      0) and a write out of range is ignored. *)

From Stdlib Require Import ZArith List Lia Bool String Ascii.
From stdpp Require Import base list.
Import ListNotations.
Local Open Scope Z_scope.

(** ** JavaScript integer operators *)

Module JsInt.

Definition ToInt32 (z : Z) : Z := (z + 2 ^ 31) mod 2 ^ 32 - 2 ^ 31.
Definition ToUint32 (z : Z) : Z := z mod 2 ^ 32.

(** [a | b], [a & b], [a ^ b] *)
Definition bor (a b : Z) : Z := Z.lor (ToInt32 a) (ToInt32 b).
Definition band (a b : Z) : Z := Z.land (ToInt32 a) (ToInt32 b).
Definition bxor (a b : Z) : Z := Z.lxor (ToInt32 a) (ToInt32 b).
(** [a << n], [a >> n], [a >>> n] *)
Definition shl (a n : Z) : Z := ToInt32 (Z.shiftl (ToInt32 a) (ToUint32 n mod 32)).
Definition sar (a n : Z) : Z := Z.shiftr (ToInt32 a) (ToUint32 n mod 32).
Definition shr (a n : Z) : Z := Z.shiftr (ToUint32 a) (ToUint32 n mod 32).
(** [Math.imul(a, b)] *)
Definition imul (a b : Z) : Z := ToInt32 (ToInt32 a * ToInt32 b).

End JsInt.
Import JsInt.

Declare Scope js_scope.
Delimit Scope js_scope with js.
Infix ".|" := bor (at level 50, left associativity) : js_scope.
Infix ".&" := band (at level 40, left associativity) : js_scope.
Infix ".^" := bxor (at level 45, left associativity) : js_scope.
Infix "<<" := shl (at level 32, left associativity) : js_scope.
Infix ">>" := sar (at level 32, left associativity) : js_scope.
Infix ">>>" := shr (at level 32, left associativity) : js_scope.

(** ** Strings *)

(** A string is its sequence of UTF-16 code units. *)
Definition jsstring := list Z.

Definition lit (s : string) : jsstring :=
  List.map (fun a => Z.of_N (N_of_ascii a)) (list_ascii_of_string s).

Definition jsstring_eqb (a b : jsstring) : bool :=
  bool_decide (a = b).

(** ** Linear memory: the [Uint8Array] view *)

Definition Memory := list Z.

Definition mem_length (memory : Memory) : Z := Z.of_nat (length memory).

(** [memory[i]] read: [None] stands for [undefined]. *)
Definition mem_get (memory : Memory) (i : Z) : option Z :=
  if i <? 0 then None else memory !! Z.to_nat i.

(** [memory[i]] used as an operand of a bit operator. *)
Definition mem_at (memory : Memory) (i : Z) : Z :=
  default 0 (mem_get memory i).

(** [memory[i] = v]: stores [v] modulo 256, ignored out of range. *)
Definition mem_set (memory : Memory) (i v : Z) : Memory :=
  if (0 <=? i) && (i <? mem_length memory)
  then <[Z.to_nat i := v mod 256]> memory
  else memory.

(** [memory.slice(start, end)] (also [subarray]): both bounds are taken
    relative to the end when negative and clamped to the buffer. *)
Definition clamp_index (len i : Z) : Z :=
  if i <? 0 then Z.max (len + i) 0 else Z.min i len.

Definition mem_slice (memory : Memory) (start stop : Z) : list Z :=
  let len := mem_length memory in
  let k := clamp_index len start in
  let final := clamp_index len stop in
  take (Z.to_nat (final - k)) (drop (Z.to_nat k) memory).

(** ** UTF-8 (the platform's [TextDecoder] and [TextEncoder]) *)

Module Utf8.

(** The decoder of the Encoding Standard, without the [fatal] flag: an
    ill-formed sequence gives U+FFFD and the offending byte is read
    again as the start of a sequence. *)
Record dstate := DState {
  code_point : Z; bytes_seen : Z; bytes_needed : Z;
  lower_boundary : Z; upper_boundary : Z }.

Definition dinit : dstate := DState 0 0 0 128 191.

Definition in_range (lo hi b : Z) : bool := (lo <=? b) && (b <=? hi).

(** A byte met when no sequence is open. *)
Definition lead (b : Z) : dstate * list Z :=
  if in_range 0 127 b then (dinit, [b])
  else if in_range 194 223 b then (DState (Z.land b 31) 0 1 128 191, [])
  else if in_range 224 239 b then
    (DState (Z.land b 15) 0 2 (if b =? 224 then 160 else 128)
                                (if b =? 237 then 159 else 191), [])
  else if in_range 240 244 b then
    (DState (Z.land b 7) 0 3 (if b =? 240 then 144 else 128)
                               (if b =? 244 then 143 else 191), [])
  else (dinit, [65533]).

Definition dstep (st : dstate) (b : Z) : dstate * list Z :=
  if bytes_needed st =? 0 then lead b
  else if negb (in_range (lower_boundary st) (upper_boundary st) b) then
    let '(st', out) := lead b in (st', 65533 :: out)
  else
    let cp := Z.lor (Z.shiftl (code_point st) 6) (Z.land b 63) in
    let seen := bytes_seen st + 1 in
    if seen =? bytes_needed st then (dinit, [cp])
    else (DState cp seen (bytes_needed st) 128 191, []).

Fixpoint decode_points (st : dstate) (bytes : list Z) : list Z :=
  match bytes with
  | [] => if bytes_needed st =? 0 then [] else [65533]
  | b :: rest => let '(st', out) := dstep st b in out ++ decode_points st' rest
  end.

(** A code point as UTF-16 code units. *)
Definition utf16 (cp : Z) : list Z :=
  if cp <? 65536 then [cp]
  else [55296 + Z.shiftr (cp - 65536) 10; 56320 + Z.land (cp - 65536) 1023].

(** [new TextDecoder().decode(bytes)]: a leading byte order mark is
    dropped. *)
Definition strip_bom (bytes : list Z) : list Z :=
  match bytes with
  | 239 :: 187 :: 191 :: rest => rest
  | _ => bytes
  end.

Definition decode (bytes : list Z) : jsstring :=
  concat (List.map utf16 (decode_points dinit (strip_bom bytes))).

(** [new TextEncoder().encode(s)]: a surrogate pair is one code point, a
    lone surrogate is encoded as U+FFFD. *)
Definition is_high (u : Z) : bool := in_range 55296 56319 u.
Definition is_low (u : Z) : bool := in_range 56320 57343 u.

Fixpoint scalar_values (s : jsstring) : list Z :=
  match s with
  | [] => []
  | u :: rest =>
      if is_high u then
        match rest with
        | v :: rest' =>
            if is_low v
            then (65536 + (u - 55296) * 1024 + (v - 56320)) :: scalar_values rest'
            else 65533 :: scalar_values rest
        | [] => [65533]
        end
      else if is_low u then 65533 :: scalar_values rest
      else u :: scalar_values rest
  end.

Definition encode_point (cp : Z) : list Z :=
  if cp <? 128 then [cp]
  else if cp <? 2048 then [192 + Z.shiftr cp 6; 128 + Z.land cp 63]
  else if cp <? 65536 then
    [224 + Z.shiftr cp 12; 128 + Z.land (Z.shiftr cp 6) 63; 128 + Z.land cp 63]
  else [240 + Z.shiftr cp 18; 128 + Z.land (Z.shiftr cp 12) 63;
        128 + Z.land (Z.shiftr cp 6) 63; 128 + Z.land cp 63].

Definition encode (s : jsstring) : list Z :=
  concat (List.map encode_point (scalar_values s)).

End Utf8.

(** ** Memory marshaller *)

Section Marshaller.
Local Open Scope js_scope.

(** [readInt32FromMemory]: the body of the [try] cannot raise, the
    [catch] arm is unreachable and has no counterpart here. *)
Definition readInt32FromMemory (memory : Memory) (ptr : Z) : Z :=
  if (ptr <? 0) || (ptr + 3 >=? mem_length memory) then 0
  else (mem_at memory ptr
        .| (mem_at memory (ptr + 1) << 8)
        .| (mem_at memory (ptr + 2) << 16)
        .| (mem_at memory (ptr + 3) << 24)) >>> 0.

(** The four byte stores shared by [writeInt32ToMemory] and the
    handlers that write a reference id by hand. *)
Definition store_le32 (memory : Memory) (ptr numValue : Z) : Memory :=
  let m0 := mem_set memory ptr (numValue .& 255) in
  let m1 := mem_set m0 (ptr + 1) ((numValue >> 8) .& 255) in
  let m2 := mem_set m1 (ptr + 2) ((numValue >> 16) .& 255) in
  mem_set m2 (ptr + 3) ((numValue >> 24) .& 255).

Definition writeInt32ToMemory (memory : Memory) (ptr value : Z) : Memory :=
  if (ptr <? 0) || (ptr + 3 >=? mem_length memory) then memory
  else store_le32 memory ptr value.

(** [Number(z)] for a BigInt [z]: the nearest double, a tie going to
    the even significand of 53 bits.  The result is an integer again,
    or an infinity when it reaches 2^1024. *)
Definition round_to_double (z : Z) : Z :=
  let a := Z.abs z in
  let e := Z.log2 a - 52 in
  if e <=? 0 then z
  else
    let q := Z.shiftr a e in
    let r := Z.land a (Z.ones e) in
    let half := Z.shiftl 1 (e - 1) in
    let q' := if (half <? r) || ((r =? half) && Z.odd q) then q + 1 else q in
    Z.sgn z * Z.shiftl q' e.

Definition overflows (z : Z) : bool := 2 ^ 1024 <=? Z.abs (round_to_double z).

(** [Number(z)] as the operand of a bit operator, where an infinity
    counts as 0. *)
Definition Number_bits (z : Z) : Z :=
  if overflows z then 0 else round_to_double z.

(** [writeInt64ToMemory]: [value] is a BigInt; each half is turned into
    a number, goes through [writeInt32ToMemory] and is checked on its
    own.  The lower half is below 2^32 and exact; the upper half is
    rounded when it is not a double.  The body of the [try] cannot
    raise. *)
Definition writeInt64ToMemory (memory : Memory) (ptr value : Z) : Memory :=
  let lowValue := Number_bits (Z.land value 4294967295) in
  let highValue := Number_bits (Z.shiftr value 32) in
  let m := writeInt32ToMemory memory ptr lowValue in
  writeInt32ToMemory m (ptr + 4) highValue.

(** [writeValueToMemory]: every caller passes a reference id, a
    number. *)
Definition writeValueToMemory (memory : Memory) (ptr value : Z) : Memory :=
  writeInt32ToMemory memory ptr value.

Definition readStringFromMemory (memory : Memory) (ptr len : Z) : jsstring :=
  let bytes := mem_slice memory ptr (ptr + len) in
  Utf8.decode bytes.

End Marshaller.

(** ** Host values *)

(** Object identities.  Every object expression of the source that is
    evaluated once gets a name of its own, so that two of them are never
    the same object; objects of the host and objects allocated while the
    bridge runs are numbered. *)
Inductive ref : Type :=
| RGlobal                       (* globalThis *)
| RNavigator                    (* browserEnv.navigator *)
| RDocument                     (* browserEnv.document *)
| RCrypto                       (* browserEnv.crypto, the imported module *)
| RWebGLRenderingContext        (* browserEnv.WebGLRenderingContext *)
| RWebGLPrototype               (* WebGLRenderingContext.prototype *)
| RPlugins                      (* navigator.plugins *)
| RPlugin (i : nat)             (* its entries *)
| RObjectPrototype
| RSolve (p : nat)              (* the callback of the p-th defineSolveFunction *)
| RHostFunction (n : nat)       (* any other function *)
| RHostObject (n : nat)         (* any other object of the host *)
| RError (n : nat).             (* the n-th Error created by the bridge *)

#[global] Instance ref_eq_dec : EqDecision ref.
Proof. solve_decision. Defined.

(** Numbers as values: the integer-valued doubles and the three
    non-finite ones.  [Int z] stands for a double, so [z] is meant
    below 2^53 in absolute value; doubles with a fraction and the
    negative zero are left out. *)
Inductive jsnum : Type :=
| NaN
| Infinity (negative : bool)
| Int (z : Z).

#[global] Instance jsnum_eq_dec : EqDecision jsnum.
Proof. solve_decision. Defined.

Inductive value : Type :=
| VUndefined
| VNull
| VBool (b : bool)
| VNum (n : jsnum)
| VBigInt (z : Z)
| VStr (s : jsstring)
| VSym (n : nat)
| VObj (r : ref).

#[global] Instance value_eq_dec : EqDecision value.
Proof. solve_decision. Defined.

(** [a === b] *)
Definition strict_eq (a b : value) : bool :=
  match a, b with
  | VNum NaN, _ | _, VNum NaN => false
  | _, _ => bool_decide (a = b)
  end.

Definition is_callable (r : ref) : bool :=
  match r with
  | RWebGLRenderingContext | RSolve _ | RHostFunction _ => true
  | _ => false
  end.

(** [typeof v === 'function'] *)
Definition typeof_function (v : value) : bool :=
  match v with VObj r => is_callable r | _ => false end.

(** [v !== null && v !== undefined] *)
Definition not_nullish (v : value) : bool :=
  match v with VUndefined | VNull => false | _ => true end.

(** ** The [Map] of the reference table *)

Module JsMap.

(** Entries in insertion order, as [entries()] yields them. *)
Definition t := list (Z * value).

Fixpoint get (k : Z) (m : t) : option value :=
  match m with
  | [] => None
  | (k', v) :: rest => if k' =? k then Some v else get k rest
  end.

(** [set] overwrites in place or appends. *)
Fixpoint set (k : Z) (v : value) (m : t) : t :=
  match m with
  | [] => [(k, v)]
  | (k', v') :: rest => if k' =? k then (k, v) :: rest else (k', v') :: set k v rest
  end.

Definition keys (m : t) : list Z := List.map fst m.

End JsMap.

(** ** The host heap *)

(** Own data properties of the objects, the most recent binding first,
    prototype links, and the number of [Error] objects created so far. *)
Record World : Type := MkWorld {
  heap : list (ref * jsstring * value);
  protos : list (ref * ref);
  errors : nat }.

Definition own_property (w : World) (r : ref) (key : jsstring) : option value :=
  snd <$> List.find (fun e => bool_decide (fst e = (r, key))) (heap w).

Definition prototype_of (w : World) (r : ref) : option ref :=
  snd <$> List.find (fun e => bool_decide (fst e = r)) (protos w).

(** Property lookup along the prototype chain; a chain has no more
    links than the heap records. *)
Fixpoint lookup_chain (fuel : nat) (w : World) (r : ref) (key : jsstring) : option value :=
  match own_property w r key with
  | Some v => Some v
  | None =>
      match fuel with
      | O => None
      | S fuel' =>
          match prototype_of w r with
          | Some r' => lookup_chain fuel' w r' key
          | None => None
          end
      end
  end.

Definition get_property (w : World) (r : ref) (key : jsstring) : value :=
  default VUndefined (lookup_chain (length (protos w)) w r key).

Definition has_property (w : World) (r : ref) (key : jsstring) : bool :=
  bool_decide (is_Some (lookup_chain (length (protos w)) w r key)).

Definition set_property (w : World) (r : ref) (key : jsstring) (v : value) : World :=
  MkWorld ((r, key, v) :: heap w) (protos w) (errors w).

(** ** The synthetic browser environment *)

Record BrowserEnvironment : Type := MkEnv {
  navigator : value;
  document : value;
  crypto : value;
  WebGLRenderingContext : value }.

Definition userAgent : jsstring :=
  lit "Mozilla/5.0 (Windows NT 10.0; Win64; x64) AppleWebKit/537.36 (KHTML, like Gecko) Chrome/91.0.4472.124 Safari/537.36".

Definition plugin_names : list string :=
  ["PDF Viewer"; "Chrome PDF Viewer"; "Chromium PDF Viewer";
   "Microsoft Edge PDF Viewer"; "WebKit built-in PDF"]%string.

(** Decimal digits of a natural number, for array indices and for
    [toString()] of a small counter. *)
Fixpoint digits_fuel (fuel : nat) (radix n : Z) (acc : jsstring) : jsstring :=
  match fuel with
  | O => acc
  | S fuel' =>
      let d := n mod radix in
      let c := if d <? 10 then 48 + d else 87 + d in
      if n / radix =? 0 then c :: acc
      else digits_fuel fuel' radix (n / radix) (c :: acc)
  end.

(** [n.toString(radix)] for a non-negative integer. *)
Definition to_radix (radix n : Z) : jsstring :=
  digits_fuel (S (Z.to_nat (Z.log2 n))) radix n [].

(** The data properties [createBrowserEnvironment] gives its objects;
    the function-valued ones ([getParameter], [getExtension],
    [createElement]) are host functions, called through the parameters
    of the bridge section below. *)
Definition browser_heap : list (ref * jsstring * value) :=
  [ (RNavigator, lit "userAgent", VStr userAgent);
    (RNavigator, lit "webdriver", VBool false);
    (RNavigator, lit "plugins", VObj RPlugins);
    (RPlugins, lit "length", VNum (Int 5)) ]
  ++ List.concat (imap (fun i name =>
        [ (RPlugins, to_radix 10 (Z.of_nat i), VObj (RPlugin i));
          (RPlugin i, lit "name", VStr (lit name));
          (RPlugin i, lit "description", VStr (lit "Portable Document Format")) ])
      plugin_names)
  ++ [ (RWebGLRenderingContext, lit "prototype", VObj RWebGLPrototype);
       (RWebGLPrototype, lit "VENDOR", VNum (Int 7936));
       (RWebGLPrototype, lit "RENDERER", VNum (Int 7937));
       (RWebGLPrototype, lit "VERSION", VNum (Int 7938));
       (RWebGLPrototype, lit "SHADING_LANGUAGE_VERSION", VNum (Int 35724));
       (RWebGLPrototype, lit "MAX_TEXTURE_SIZE", VNum (Int 3379));
       (RWebGLPrototype, lit "getParameter", VObj (RHostFunction 0));
       (RWebGLPrototype, lit "getExtension", VObj (RHostFunction 1));
       (RDocument, lit "createElement", VObj (RHostFunction 2)) ].

Definition browser_protos : list (ref * ref) :=
  [ (RNavigator, RObjectPrototype); (RDocument, RObjectPrototype);
    (RWebGLPrototype, RObjectPrototype) ]
  ++ imap (fun i _ => (RPlugin i, RObjectPrototype)) plugin_names.

(** [createBrowserEnvironment] in a host heap [w]: the record of the
    four singletons and the heap with their properties. *)
Definition createBrowserEnvironment (w : World) : BrowserEnvironment * World :=
  (MkEnv (VObj RNavigator) (VObj RDocument) (VObj RCrypto) (VObj RWebGLRenderingContext),
   MkWorld (browser_heap ++ heap w) (browser_protos ++ protos w) (errors w)).

(** [this.browserEnv] is assigned once, in the constructor, and never
    again: it is the same record in every state. *)
Definition browserEnv : BrowserEnvironment :=
  fst (createBrowserEnvironment (MkWorld [] [] 0)).

Definition globalThis : value := VObj RGlobal.

(** ** The solver object and its computations *)

(** The promise of one [defineSolveFunction] call, with its 30 second
    timer. *)
Inductive settlement : Type :=
| Pending
| Fulfilled (solution : jsstring)
| Rejected (reason : value).

Record promise : Type := MkPromise {
  state : settlement;
  timer_armed : bool }.

Record Solver : Type := MkSolver {
  wasmInstance : bool;          (* this.wasmInstance and this.wasmExports are set *)
  memory : Memory;              (* the buffer of the exported memory *)
  objectRefs : JsMap.t;
  nextRefId : Z;
  world : World;
  promises : list promise }.

Definition set_memory (m : Memory) (s : Solver) : Solver :=
  MkSolver (wasmInstance s) m (objectRefs s) (nextRefId s) (world s) (promises s).
Definition set_table (t : JsMap.t) (n : Z) (s : Solver) : Solver :=
  MkSolver (wasmInstance s) (memory s) t n (world s) (promises s).
Definition set_world (w : World) (s : Solver) : Solver :=
  MkSolver (wasmInstance s) (memory s) (objectRefs s) (nextRefId s) w (promises s).
Definition set_promises (ps : list promise) (s : Solver) : Solver :=
  MkSolver (wasmInstance s) (memory s) (objectRefs s) (nextRefId s) (world s) ps.

(** The state the constructor leaves, in a host heap [w], and the state
    after [initialize] has instantiated a module with memory [m] and
    set the globals [g], [tt], [tQ] (host functions) and [self]. *)
Definition new_solver (w : World) : Solver :=
  MkSolver false [] [] 6 (snd (createBrowserEnvironment w)) [].

Definition initialized (m : Memory) (s : Solver) : Solver :=
  let w := world s in
  let globals :=
    [ (RGlobal, lit "self", VObj RGlobal);
      (RGlobal, lit "tQ", VObj (RHostFunction 5));
      (RGlobal, lit "tt", VObj (RHostFunction 4));
      (RGlobal, lit "g", VObj (RHostFunction 3)) ] in
  MkSolver true m (objectRefs s) (nextRefId s)
    (MkWorld (globals ++ heap w) (protos w) (errors w)) (promises s).

(** A computation returns or throws a value, and changes the state
    either way. *)
Inductive Res (A : Type) : Type :=
| Ok (a : A)
| Throw (e : value).
Arguments Ok {A} a.
Arguments Throw {A} e.

Definition M (A : Type) : Type := Solver -> Res A * Solver.

Definition ret {A} (a : A) : M A := fun s => (Ok a, s).
Definition throw {A} (e : value) : M A := fun s => (Throw e, s).
Definition bind {A B} (c : M A) (k : A -> M B) : M B :=
  fun s => match c s with
           | (Ok a, s') => k a s'
           | (Throw e, s') => (Throw e, s')
           end.
(** [try { c } catch (e) { h e }] *)
Definition try_catch {A} (c : M A) (h : value -> M A) : M A :=
  fun s => match c s with
           | (Ok a, s') => (Ok a, s')
           | (Throw e, s') => h e s'
           end.
Definition gets {A} (f : Solver -> A) : M A := fun s => (Ok (f s), s).
Definition modify (f : Solver -> Solver) : M unit := fun s => (Ok tt, f s).

Declare Scope m_scope.
Delimit Scope m_scope with M.
Notation "x <- c ;; k" := (bind c (fun x => k))
  (at level 92, c at next level, right associativity) : m_scope.
Notation "c ;;; k" := (bind c (fun _ => k))
  (at level 92, right associativity) : m_scope.
Local Open Scope m_scope.

(** [for (let i = 0; i < n; i++) body(i)] *)
Fixpoint for_range {A} (n : nat) (i : Z) (body : Z -> A -> M A) (acc : A) : M A :=
  match n with
  | O => ret acc
  | S n' => acc' <- body i acc ;; for_range n' (i + 1) body acc'
  end.

(** A computation that returns normally. *)
Definition returns {A} (c : M A) (s : Solver) : Prop :=
  exists a, fst (c s) = Ok a.

(** ** Object reference table *)

(** The scan of [storeObject]: the id of the first entry whose value is
    [===] to [obj]. *)
Definition scan (obj : value) (entries : JsMap.t) : option Z :=
  fst <$> List.find (fun e => strict_eq (snd e) obj) entries.

Definition storeObject (obj : value) (s : Solver) : Z * Solver :=
  if strict_eq obj (navigator browserEnv) then (2, s)
  else if strict_eq obj (document browserEnv) then (3, s)
  else if strict_eq obj (crypto browserEnv) then (4, s)
  else if strict_eq obj (WebGLRenderingContext browserEnv) then (5, s)
  else if strict_eq obj VUndefined || strict_eq obj VNull then (0, s)
  else if strict_eq obj globalThis then (1, s)
  else match scan obj (objectRefs s) with
       | Some id => (id, s)
       | None =>
           let id := nextRefId s in
           (id, set_table (JsMap.set id obj (objectRefs s)) (id + 1) s)
       end.

Definition getObject (refId : Z) (s : Solver) : value :=
  let id := refId in
  if id =? 0 then VUndefined
  else if id =? 1 then globalThis
  else if id =? 2 then navigator browserEnv
  else if id =? 3 then document browserEnv
  else if id =? 4 then crypto browserEnv
  else if id =? 5 then WebGLRenderingContext browserEnv
  else default VUndefined (JsMap.get id (objectRefs s)).

(** The five values and the two absent ones that [storeObject] answers
    before it looks at the table. *)
Definition reserved (obj : value) : bool :=
  match obj with
  | VUndefined | VNull => true
  | VObj (RGlobal | RNavigator | RDocument | RCrypto | RWebGLRenderingContext) => true
  | _ => false
  end.

(** The table invariant: ids are handed out from 6 upwards and each key
    occurs once. *)
Record table_ok (s : Solver) : Prop := {
  next_ge : 6 <= nextRefId s;
  keys_bounded : Forall (fun k => 6 <= k < nextRefId s) (JsMap.keys (objectRefs s));
  keys_nodup : NoDup (JsMap.keys (objectRefs s)) }.

(** The ids that a run of [storeObject] calls allocates, in order: a
    call allocates when it moves [nextRefId]. *)
Fixpoint allocated_ids (objs : list value) (s : Solver) : list Z :=
  match objs with
  | [] => []
  | obj :: rest =>
      let '(id, s') := storeObject obj s in
      if nextRefId s' =? nextRefId s then allocated_ids rest s'
      else id :: allocated_ids rest s'
  end.

(** ** Fallback synthesis *)

Section Fallback.
Local Open Scope js_scope.

(** [s.substring(0, n)] and [s.padStart(n, '0')] *)
Definition substring0 (s : jsstring) (n : Z) : jsstring := take (Z.to_nat n) s.
Definition padStart0 (s : jsstring) (n : Z) : jsstring :=
  replicate (Z.to_nat n - length s) 48 ++ s.

(** [Math.ceil(length / 8)] *)
Definition ceil_div8 (length : Z) : Z := - ((- length) / 8).

(** One round of the inner loop of [generateHashSegment], for the code
    unit [ch = seedPart.charCodeAt(j)]. *)
Definition mix (h : Z * Z) (ch : Z) : Z * Z :=
  (imul (fst h .^ ch) 2654435761, imul (snd h .^ ch) 1597334677).

(** The body of the outer loop: the hexadecimal block for [seedPart]. *)
Definition blockHash (seedPart : jsstring) : jsstring :=
  let h1 := 3735928559 .^ Z.of_nat (length seedPart) in
  let h2 := 1103547991 .^ Z.of_nat (length seedPart) in
  let '(h1, h2) := fold_left mix seedPart (h1, h2) in
  let h1 := imul (h1 .^ (h1 >>> 16)) 2246822507 .^ imul (h2 .^ (h2 >>> 13)) 3266489909 in
  let h2 := imul (h2 .^ (h2 >>> 16)) 2246822507 .^ imul (h1 .^ (h1 >>> 13)) 3266489909 in
  to_radix 16 (4294967296 * (2097151 .& h2) + (h1 >>> 0)).

Fixpoint hash_blocks (n : nat) (i : Z) (input result : jsstring) : jsstring :=
  match n with
  | O => result
  | S n' =>
      let seedPart := input ++ to_radix 10 i in
      hash_blocks n' (i + 1) input (result ++ blockHash seedPart)
  end.

Definition generateHashSegment (input : jsstring) (length : Z) : M jsstring :=
  let result := hash_blocks (Z.to_nat (ceil_div8 length)) 0 input [] in
  ret (padStart0 (substring0 result length) length).

(** [generateSolution(token)] for a token that is a string, as its
    signature says; a caller that passes another value converts it
    first, as the concatenation in the first line would. *)
Definition generateSolution (token : jsstring) : M jsstring :=
  let seed := lit "monad_challenge_seed_" ++ token in
  hash1 <- generateHashSegment (seed ++ lit "part1") 16 ;;
  hash2 <- generateHashSegment (seed ++ lit "part2") 16 ;;
  hash3 <- generateHashSegment (seed ++ lit "part3") 16 ;;
  ret (lit "1.0;" ++ hash1 ++ lit ";" ++ hash2 ++ lit ";" ++ hash3).

End Fallback.

(** ** The solution grammar *)

Definition is_alnum (c : Z) : bool :=
  Utf8.in_range 97 122 c || Utf8.in_range 65 90 c || Utf8.in_range 48 57 c.

(** [[a-zA-Z0-9]{16}] at the head of [s]: what is left after it. *)
Definition alnum16 (s : jsstring) : option jsstring :=
  if bool_decide (length (take 16 s) = 16%nat) && forallb is_alnum (take 16 s)
  then Some (drop 16 s) else None.

(** A literal at the head of [s]: what is left after it. *)
Definition literal (p s : jsstring) : option jsstring :=
  if bool_decide (take (length p) s = p) then Some (drop (length p) s) else None.

(** [/^1\.0;[a-zA-Z0-9]{16};[a-zA-Z0-9]{16};[a-zA-Z0-9]{16}$/.test(s)]:
    the pattern has no alternative to try again, it is matched from
    left to right. *)
Definition solution_grammar (s : jsstring) : bool :=
  match literal (lit "1.0;") s with
  | Some r0 =>
      match alnum16 r0 with
      | Some r1 =>
          match literal (lit ";") r1 with
          | Some r2 =>
              match alnum16 r2 with
              | Some r3 =>
                  match literal (lit ";") r3 with
                  | Some r4 =>
                      match alnum16 r4 with
                      | Some [] => true
                      | _ => false
                      end
                  | None => false
                  end
              | None => false
              end
          | None => false
          end
      | None => false
      end
  | None => false
  end.

(** ** The host outside the class *)

(** What the bridge cannot see into: calling or constructing with a
    function of the host, and the conversions of an object that run the
    object's own methods.  Each may change the host heap and may throw.
    The functions of the synthetic environment are called through
    [host_apply] and [host_construct] like any other.

    Each is a function of the heap alone: a call that never returns,
    and a host function that calls back into the module while a handler
    is running, are outside this model. *)
Record Host : Type := MkHost {
  host_apply : ref -> value -> list value -> World -> Res value * World;
  host_construct : ref -> list value -> World -> Res value * World;
  host_to_string : ref -> World -> Res jsstring * World;
  host_to_bigint : value -> World -> Res Z * World;
  symbol_description : nat -> jsstring }.

Definition MAX_SAFE_INTEGER : Z := 2 ^ 53 - 1.

(** The stack pointer a handler receives: a number, or a BigInt when
    the import is declared with a 64-bit parameter. *)
Inductive sparg : Type :=
| SpNumber (n : Z)
| SpBigInt (z : Z).

Definition msg_timeout : jsstring :=
  lit "WebAssembly " ++ [35299; 20915; 25361; 25112; 36229; 26102].
Definition msg_empty : jsstring :=
  lit "WebAssembly " ++ [36820; 22238; 30340; 35299; 20915; 26041; 26696; 20026; 31354].
Definition msg_not_initialized : jsstring :=
  lit "WebAssembly " ++ [27169; 22359; 26410; 21021; 22987; 21270].
Definition msg_no_instance : jsstring :=
  lit "WebAssembly " ++ [23454; 20363; 26410; 21021; 22987; 21270].
Definition msg_no_entry : jsstring :=
  [25214; 19981; 21040; 21512; 36866; 30340] ++ lit " WebAssembly "
  ++ [20837; 21475; 28857; 20989; 25968].
Definition msg_not_function : jsstring := [19981; 26159; 20989; 25968].
Definition msg_not_constructor : jsstring := [19981; 26159; 26500; 36896; 20989; 25968].

Section Primitives.
Variable host : Host.

(** An operation of the host run on the heap of the solver. *)
Definition lift_host {A} (f : World -> Res A * World) : M A :=
  fun s => let '(r, w) := f (world s) in (r, set_world w s).

(** [new Error(message)], also the errors the platform creates. *)
Definition new_error (message : jsstring) : M value :=
  fun s =>
    let w := world s in
    let r := RError (errors w) in
    (Ok (VObj r),
     set_world (MkWorld ((r, lit "message", VStr message) :: heap w) (protos w) (S (errors w))) s).

Definition throw_error {A} (message : jsstring) : M A :=
  e <- new_error message ;; throw e.

(** The digits of a number.  They are those of the platform for the
    integers up to 2^53 - 1 in absolute value, the range [Int] is meant
    for (and for every BigInt, which prints all its digits); a larger
    double is printed rounded, and in exponent notation from 10^21 on,
    which is not described here. *)
Definition number_to_string (n : jsnum) : jsstring :=
  match n with
  | NaN => lit "NaN"
  | Infinity false => lit "Infinity"
  | Infinity true => lit "-Infinity"
  | Int z => if z <? 0 then lit "-" ++ to_radix 10 (- z) else to_radix 10 z
  end.

(** The conversion of a template literal and of [+] with a string:
    a symbol cannot be converted. *)
Definition ToString (v : value) : M jsstring :=
  match v with
  | VUndefined => ret (lit "undefined")
  | VNull => ret (lit "null")
  | VBool true => ret (lit "true")
  | VBool false => ret (lit "false")
  | VNum n => ret (number_to_string n)
  | VBigInt z => ret (number_to_string (Int z))
  | VStr s => ret s
  | VSym _ => throw_error (lit "Cannot convert a Symbol value to a string")
  | VObj r => lift_host (host_to_string host r)
  end.

(** [String(v)] *)
Definition String_ (v : value) : M jsstring :=
  match v with
  | VSym n => ret (lit "Symbol(" ++ symbol_description host n ++ lit ")")
  | _ => ToString v
  end.

(** [console.log(`... ${v} ...`)]: only the conversion matters. *)
Definition log_value (v : value) : M unit :=
  _ <- ToString v ;; ret tt.

(** [BigInt(v)] *)
Definition BigInt_ (v : value) : M Z :=
  match v with
  | VNum (Int z) => ret z
  | VNum _ => throw_error (lit "The number cannot be converted to a BigInt")
  | VBigInt z => ret z
  | VBool b => ret (if b then 1 else 0)
  | VUndefined | VNull | VSym _ => throw_error (lit "Cannot convert to a BigInt")
  | VStr _ | VObj _ => lift_host (host_to_bigint host v)
  end.

(** [typeof v === 'bigint' ? Number(v) : v] *)
Definition narrow_bigint (v : value) : value :=
  match v with VBigInt z => VNum (Int z) | _ => v end.

(** A property key: a symbol key finds no property, the heap records
    string keys only. *)
Definition ToPropertyKey (key : value) : M (option jsstring) :=
  match key with
  | VSym _ => ret None
  | _ => k <- ToString key ;; ret (Some k)
  end.

(** [Reflect.get(target, key)] *)
Definition Reflect_get (target key : value) : M value :=
  match target with
  | VObj r =>
      k <- ToPropertyKey key ;;
      match k with
      | Some k => gets (fun s => get_property (world s) r k)
      | None => ret VUndefined
      end
  | _ => throw_error (lit "Reflect.get called on non-object")
  end.

(** [Reflect.set(target, prop, value)] with a string key *)
Definition Reflect_set (target : value) (prop : jsstring) (v : value) : M unit :=
  match target with
  | VObj r => modify (fun s => set_world (set_property (world s) r prop v) s)
  | _ => throw_error (lit "Reflect.set called on non-object")
  end.

(** ['length' in obj] *)
Definition has_length (obj : value) : M bool :=
  match obj with
  | VObj r => gets (fun s => has_property (world s) r (lit "length"))
  | _ => throw_error (lit "Cannot use 'in' operator to search for 'length'")
  end.

(** [(globalThis as any)[prop]] and its assignment *)
Definition global_get (prop : jsstring) : M value :=
  gets (fun s => get_property (world s) RGlobal prop).
Definition global_set (prop : jsstring) (v : value) : M unit :=
  modify (fun s => set_world (set_property (world s) RGlobal prop v) s).

(** Memory through the view of the current call. *)
Definition read32 (ptr : Z) : M Z :=
  gets (fun s => readInt32FromMemory (memory s) ptr).
Definition write32 (ptr v : Z) : M unit :=
  modify (fun s => set_memory (writeInt32ToMemory (memory s) ptr v) s).
Definition write64 (ptr v : Z) : M unit :=
  modify (fun s => set_memory (writeInt64ToMemory (memory s) ptr v) s).
Definition writeValue (ptr v : Z) : M unit :=
  modify (fun s => set_memory (writeValueToMemory (memory s) ptr v) s).
Definition poke (ptr v : Z) : M unit :=
  modify (fun s => set_memory (mem_set (memory s) ptr v) s).
(** The four assignments [memory[ptr] = id & 0xFF], ... written out in
    several handlers. *)
Definition poke32 (ptr v : Z) : M unit :=
  modify (fun s => set_memory (store_le32 (memory s) ptr v) s).
Definition readString (ptr len : Z) : M jsstring :=
  gets (fun s => readStringFromMemory (memory s) ptr len).
Definition memory_length : M Z := gets (fun s => mem_length (memory s)).

(** [memory.set(bytes, ptr)]: a [RangeError] when the bytes do not fit. *)
Definition memory_set_array (bytes : list Z) (ptr : Z) : M unit :=
  len <- memory_length ;;
  if (ptr <? 0) || (len <? ptr + Z.of_nat (length bytes))
  then throw_error (lit "offset is out of bounds")
  else modify (fun s =>
         set_memory (take (Z.to_nat ptr) (memory s) ++ bytes
                     ++ drop (Z.to_nat ptr + length bytes) (memory s)) s).

Definition store (obj : value) : M Z :=
  fun s => let '(id, s') := storeObject obj s in (Ok id, s').
Definition load (refId : Z) : M value := gets (getObject refId).

(** [if (!this.wasmInstance) return; ...] *)
Definition with_instance (body : M unit) : M unit :=
  ready <- gets wasmInstance ;;
  if ready then body else ret tt.

(** A promise settles once. *)
Definition settle (p : nat) (st : settlement) : M unit :=
  modify (fun s =>
    match promises s !! p with
    | Some (MkPromise Pending t) => set_promises (<[p := MkPromise st t]> (promises s)) s
    | _ => s
    end).
Definition clearTimeout (p : nat) : M unit :=
  modify (fun s =>
    match promises s !! p with
    | Some (MkPromise st _) => set_promises (<[p := MkPromise st false]> (promises s)) s
    | None => s
    end).

(** The callback [globalThis.Solve] that the [p]-th call of
    [defineSolveFunction] installs. *)
Definition Solve (p : nat) (tokenStr : value) : M value :=
  log_value tokenStr ;;;
  try_catch
    (clearTimeout p ;;;
     if negb (not_nullish tokenStr) then
       e <- new_error msg_empty ;;
       settle p (Rejected e) ;;;
       ret (VStr [])
     else
       solution <- String_ tokenStr ;;
       settle p (Fulfilled solution) ;;;
       ret (VStr solution))
    (fun error =>
       clearTimeout p ;;;
       settle p (Rejected error) ;;;
       throw error).

(** [Reflect.apply(fn, thisObj, args)] and [fn(...args)] for a [fn]
    that is a function. *)
Definition apply_function (fn thisObj : value) (args : list value) : M value :=
  match fn with
  | VObj (RSolve p) => Solve p (default VUndefined (head args))
  | VObj r => lift_host (host_apply host r thisObj args)
  | _ => throw_error (lit "not a function")
  end.

(** [Reflect.construct(ctor, args)]: an arrow function is not a
    constructor. *)
Definition construct (ctor : value) (args : list value) : M value :=
  match ctor with
  | VObj (RSolve _) => throw_error (lit "not a constructor")
  | VObj r => lift_host (host_construct host r args)
  | _ => throw_error (lit "not a constructor")
  end.

End Primitives.

(** ** The [gojs] host-call handlers *)

Section Handlers.
Variable host : Host.

(** [Number(sp % BigInt(Number.MAX_SAFE_INTEGER))] or [Number(sp)] *)
Definition spNum_of (sp : sparg) : Z :=
  match sp with
  | SpBigInt z => Z.rem z MAX_SAFE_INTEGER
  | SpNumber n => n
  end.

(** [typeof sp === 'bigint' && sp > BigInt(Number.MAX_SAFE_INTEGER)] *)
Definition very_large (sp : sparg) : bool :=
  match sp with
  | SpBigInt z => MAX_SAFE_INTEGER <? z
  | SpNumber _ => false
  end.

(** The argument loop shared by the call handlers: reads [args_len]
    ids with a stride of 8 bytes; [logged] says whether each argument
    is also printed. *)
Definition collect_args (logged : bool) (args_ptr args_len : Z) : M (list value) :=
  for_range (Z.to_nat args_len) 0
    (fun i args =>
       arg_id <- read32 (args_ptr + i * 8) ;;
       arg <- load arg_id ;;
       (if logged then log_value host arg else ret tt) ;;;
       ret (args ++ [arg]))
    [].

Definition finalizeRef : M unit := ret tt.

Definition stringVal (sp : Z) : M unit :=
  with_instance
    (try_catch
       (let ret_ptr := sp + 8 in
        str_ptr <- read32 (sp + 16) ;;
        str_len <- read32 (sp + 24) ;;
        str <- readString str_ptr str_len ;;
        id <- store (VStr str) ;;
        writeValue ret_ptr id)
       (fun _ => id <- store (VStr []) ;; writeValue (sp + 8) id)).

(** The receiver of [valueGet]. *)
Definition valueGet_target (v_addr : Z) (prop : jsstring) : M value :=
  if v_addr =? 0 then
    if jsstring_eqb prop (lit "navigator") then ret (navigator browserEnv)
    else if jsstring_eqb prop (lit "document") then ret (document browserEnv)
    else if jsstring_eqb prop (lit "crypto") then ret (crypto browserEnv)
    else if jsstring_eqb prop (lit "WebGLRenderingContext")
         then ret (WebGLRenderingContext browserEnv)
    else if jsstring_eqb prop [] || jsstring_eqb prop (lit "globalThis")
            || jsstring_eqb prop (lit "window") then ret globalThis
    else ret globalThis
  else load v_addr.

Definition valueGet (sp : sparg) : M unit :=
  with_instance
    (try_catch
       (if very_large sp then
          let prop := lit "vercelChallengeToken" in
          v <- global_get prop ;;
          log_value host v ;;;
          refId <- store v ;;
          len <- memory_length ;;
          let safeOffset := len - 128 in
          poke32 safeOffset refId
        else
          let spNum := spNum_of sp in
          len <- memory_length ;;
          if (spNum <? 0) || (spNum >=? len - 40) then ret tt
          else
            v_addr <- read32 (spNum + 8) ;;
            p_ptr <- read32 (spNum + 16) ;;
            p_len <- read32 (spNum + 24) ;;
            let ret_ptr := spNum + 32 in
            prop <- (if (p_ptr >=? 0) && (p_ptr + p_len <=? len)
                     then readString p_ptr p_len else ret []) ;;
            target <- valueGet_target v_addr prop ;;
            v <- (if not_nullish target
                  then v <- Reflect_get host target (VStr prop) ;;
                       log_value host v ;;; ret v
                  else ret VUndefined) ;;
            let v := narrow_bigint v in
            refId <- store v ;;
            let numRefId := refId in
            if (ret_ptr <? 0) || (ret_ptr + 3 >=? len) then ret tt
            else poke32 ret_ptr numRefId)
       (fun _ =>
          let spNum := spNum_of sp in
          len <- memory_length ;;
          if spNum + 35 <? len then
            poke (spNum + 32) 0 ;;; poke (spNum + 33) 0 ;;;
            poke (spNum + 34) 0 ;;; poke (spNum + 35) 0
          else ret tt)).

Definition valueSet (sp : Z) : M unit :=
  with_instance
    (try_catch
       (obj_id <- read32 (sp + 8) ;;
        prop_ptr <- read32 (sp + 16) ;;
        prop_len <- read32 (sp + 24) ;;
        value_id <- read32 (sp + 32) ;;
        prop <- readString prop_ptr prop_len ;;
        obj <- load obj_id ;;
        v <- load value_id ;;
        if not_nullish obj then Reflect_set obj prop v else ret tt)
       (fun _ => ret tt)).

(** The part that [valueCall] and [valueInvoke] share once the frame
    is read: the call, the exception flag and the result id. *)
Definition call_and_report (fn thisObj : value) (args : list value)
    (ret_ptr exc_ptr : Z) : M unit :=
  len <- memory_length ;;
  try_catch
    (result <- (if typeof_function fn then
                  result <- apply_function host fn thisObj args ;;
                  log_value host result ;;;
                  ret (narrow_bigint result)
                else throw_error msg_not_function) ;;
     (if (exc_ptr >=? 0) && (exc_ptr <? len) then poke exc_ptr 0 else ret tt) ;;;
     refId <- store result ;;
     if (ret_ptr >=? 0) && (ret_ptr + 3 <? len) then poke32 ret_ptr refId else ret tt)
    (fun error =>
       (if (exc_ptr >=? 0) && (exc_ptr <? len) then poke exc_ptr 1 else ret tt) ;;;
       errorId <- store error ;;
       if (ret_ptr >=? 0) && (ret_ptr + 3 <? len) then poke32 ret_ptr errorId else ret tt).

(** The branch of [valueCall] and [valueInvoke] for a very large stack
    pointer: the callback is called with the synthesized solution. *)
Definition solve_directly : M unit :=
  token <- global_get (lit "vercelChallengeToken") ;;
  token <- ToString host token ;;
  solution <- generateSolution token ;;
  callback <- global_get (lit "Solve") ;;
  if typeof_function callback
  then _ <- apply_function host callback globalThis [VStr solution] ;; ret tt
  else ret tt.

Definition valueCall (sp : sparg) : M unit :=
  with_instance
    (try_catch
       (if very_large sp then solve_directly
        else
          let spNum := spNum_of sp in
          try_catch
            (len <- memory_length ;;
             if (spNum <? 0) || (spNum >=? len - 48) then ret tt
             else
               fn_id <- read32 (spNum + 8) ;;
               this_id <- read32 (spNum + 16) ;;
               args_ptr <- read32 (spNum + 24) ;;
               args_len <- read32 (spNum + 28) ;;
               let ret_ptr := spNum + 32 in
               let exc_ptr := spNum + 40 in
               fn <- load fn_id ;;
               thisObj <- load this_id ;;
               args <- (if (args_ptr >=? 0) && (args_len >=? 0)
                           && (args_ptr + args_len * 8 <=? len)
                        then collect_args true args_ptr args_len else ret []) ;;
               call_and_report fn thisObj args ret_ptr exc_ptr)
            (fun _ =>
               len <- memory_length ;;
               if (spNum >=? 0) && (spNum + 40 <? len) then
                 poke (spNum + 40) 1 ;;;
                 if spNum + 35 <? len then
                   poke (spNum + 32) 0 ;;; poke (spNum + 33) 0 ;;;
                   poke (spNum + 34) 0 ;;; poke (spNum + 35) 0
                 else ret tt
               else ret tt))
       (fun _ => ret tt)).

Definition valueInvoke (sp : sparg) : M unit :=
  with_instance
    (try_catch
       (if very_large sp then solve_directly
        else
          let spNum := spNum_of sp in
          try_catch
            (len <- memory_length ;;
             if (spNum <? 0) || (spNum >=? len - 40) then ret tt
             else
               fn_id <- read32 (spNum + 8) ;;
               args_ptr <- read32 (spNum + 16) ;;
               args_len <- read32 (spNum + 20) ;;
               let ret_ptr := spNum + 24 in
               let exc_ptr := spNum + 32 in
               fn <- load fn_id ;;
               args <- (if (args_ptr >=? 0) && (args_len >=? 0)
                           && (args_ptr + args_len * 8 <=? len)
                        then collect_args true args_ptr args_len else ret []) ;;
               call_and_report fn VUndefined args ret_ptr exc_ptr)
            (fun _ =>
               len <- memory_length ;;
               if (spNum >=? 0) && (spNum + 32 <? len) then
                 poke (spNum + 32) 1 ;;;
                 if spNum + 27 <? len then
                   poke (spNum + 24) 0 ;;; poke (spNum + 25) 0 ;;;
                   poke (spNum + 26) 0 ;;; poke (spNum + 27) 0
                 else ret tt
               else ret tt))
       (fun _ => ret tt)).

Definition valueNew (sp : Z) : M unit :=
  with_instance
    (try_catch
       (ctor_id <- read32 (sp + 8) ;;
        args_ptr <- read32 (sp + 16) ;;
        args_len <- read32 (sp + 20) ;;
        let ret_ptr := sp + 24 in
        let exc_ptr := sp + 32 in
        ctor <- load ctor_id ;;
        args <- collect_args false args_ptr args_len ;;
        try_catch
          (result <- (if typeof_function ctor then construct host ctor args
                      else throw_error msg_not_constructor) ;;
           poke exc_ptr 0 ;;;
           id <- store result ;;
           writeValue ret_ptr id)
          (fun error =>
             poke exc_ptr 1 ;;;
             id <- store error ;;
             writeValue ret_ptr id))
       (fun error =>
          poke (sp + 32) 1 ;;;
          id <- store error ;;
          writeValue (sp + 24) id)).

Definition valueLength (sp : Z) : M unit :=
  with_instance
    (try_catch
       (id <- read32 (sp + 8) ;;
        obj <- load id ;;
        len <- (if not_nullish obj then
                  has <- has_length obj ;;
                  if has then Reflect_get host obj (VStr (lit "length"))
                  else ret (VNum (Int 0))
                else ret (VNum (Int 0))) ;;
        n <- BigInt_ host len ;;
        write64 (sp + 16) n)
       (fun _ => write64 (sp + 16) 0)).

Definition valuePrepareString (sp : Z) : M unit :=
  with_instance
    (try_catch
       (val_id <- read32 (sp + 8) ;;
        val <- load val_id ;;
        str <- String_ host val ;;
        let bytes := Utf8.encode str in
        write32 sp (Z.of_nat (length bytes)) ;;;
        id <- store (VStr str) ;;
        writeValue (sp + 8) id)
       (fun _ =>
          write32 sp 0 ;;;
          id <- store (VStr []) ;;
          writeValue (sp + 8) id)).

Definition valueLoadString (sp : Z) : M unit :=
  with_instance
    (try_catch
       (str_id <- read32 (sp + 8) ;;
        v <- load str_id ;;
        str <- String_ host v ;;
        ptr <- read32 (sp + 16) ;;
        len <- read32 (sp + 24) ;;
        let bytes := Utf8.encode str in
        let copyLen := Z.min (Z.of_nat (length bytes)) len in
        memory_set_array (take (Z.to_nat copyLen) bytes) ptr)
       (fun _ => ret tt)).

Definition valueIndex (sp : Z) : M unit :=
  with_instance
    (try_catch
       (obj_id <- read32 (sp + 8) ;;
        index_id <- read32 (sp + 16) ;;
        let ret_ptr := sp + 24 in
        obj <- load obj_id ;;
        index <- load index_id ;;
        v <- (if not_nullish obj then Reflect_get host obj index else ret VUndefined) ;;
        id <- store v ;;
        writeValue ret_ptr id)
       (fun _ =>
          let ret_ptr := sp + 24 in
          id <- store VUndefined ;;
          writeValue ret_ptr id)).

(** The object-bridge imports by name. *)
Inductive handler : Type :=
| H_finalizeRef
| H_stringVal (sp : Z)
| H_valueGet (sp : sparg)
| H_valueSet (sp : Z)
| H_valueCall (sp : sparg)
| H_valueNew (sp : Z)
| H_valueLength (sp : Z)
| H_valuePrepareString (sp : Z)
| H_valueLoadString (sp : Z)
| H_valueIndex (sp : Z)
| H_valueInvoke (sp : sparg).

Definition dispatch (h : handler) : M unit :=
  match h with
  | H_finalizeRef => finalizeRef
  | H_stringVal sp => stringVal sp
  | H_valueGet sp => valueGet sp
  | H_valueSet sp => valueSet sp
  | H_valueCall sp => valueCall sp
  | H_valueNew sp => valueNew sp
  | H_valueLength sp => valueLength sp
  | H_valuePrepareString sp => valuePrepareString sp
  | H_valueLoadString sp => valueLoadString sp
  | H_valueIndex sp => valueIndex sp
  | H_valueInvoke sp => valueInvoke sp
  end.

End Handlers.

(** ** The challenge orchestrator *)

(** The instantiated module as the orchestrator sees it: which exports
    are functions, the first export whose lower-cased name includes
    ["solve"] or ["challenge"], and what calling an export does. *)
Record Guest : Type := MkGuest {
  export_is_function : jsstring -> bool;
  solve_export : option jsstring;
  call_export : jsstring -> list value -> M value }.

(** [if (v)] *)
Definition truthy (v : value) : bool :=
  match v with
  | VUndefined | VNull | VBool false | VNum NaN | VNum (Int 0)
  | VBigInt 0 | VStr [] => false
  | _ => true
  end.

(** [hay.includes(needle)] *)
Definition starts_with (needle hay : jsstring) : bool :=
  bool_decide (take (length needle) hay = needle).
Fixpoint includes (needle hay : jsstring) : bool :=
  starts_with needle hay ||
  match hay with
  | [] => false
  | _ :: rest => includes needle rest
  end.

Section Orchestrator.
Variable host : Host.
Variable guest : Guest.

Definition defineSolveFunction : M nat :=
  p <- gets (fun s => length (promises s)) ;;
  modify (fun s => set_promises (promises s ++ [MkPromise Pending true]) s) ;;;
  global_set (lit "Solve") (VObj (RSolve p)) ;;;
  ret p.

(** The 30 second timer of promise [p]. *)
Definition fire_timer (p : nat) : M unit :=
  armed <- gets (fun s => match promises s !! p with
                          | Some pr => timer_armed pr
                          | None => false
                          end) ;;
  if armed then
    clearTimeout p ;;;
    e <- new_error msg_timeout ;;
    settle p (Rejected e)
  else ret tt.

(** [if (typeof globalThis.Solve === 'function') globalThis.Solve(arg)]:
    tells whether the call was made. *)
Definition call_Solve_if_defined (arg : value) : M bool :=
  callback <- global_get (lit "Solve") ;;
  if typeof_function callback
  then _ <- apply_function host callback globalThis [arg] ;; ret true
  else ret false.

(** [this.wasmExports[name](...args)] *)
Definition call_wasm (name : jsstring) (args : list value) : M value :=
  if export_is_function guest name then call_export guest name args
  else throw_error (lit "not a function").

(** [for (i...) memory[tokenPtr + i] = tokenBytes[i]] and the final 0,
    for the pointer [malloc] returned. *)
Definition write_token (tokenPtr : value) (tokenBytes : list Z) : M unit :=
  match tokenPtr with
  | VNum (Int ptr) =>
      for_range (length tokenBytes) 0
        (fun i _ => poke (ptr + i) (default 0 (tokenBytes !! Z.to_nat i))) tt ;;;
      poke (ptr + Z.of_nat (length tokenBytes)) 0
  | VBigInt _ => throw_error (lit "Cannot mix BigInt and other types")
  | _ => ret tt
  end.

(** The attempt through [malloc]: [true] when it ends the run. *)
Definition run_with_malloc (token : value) : M bool :=
  try_catch
    (t <- (match token with VUndefined => ret [] | _ => ToString host token end) ;;
     let tokenBytes := Utf8.encode t in
     tokenPtr <- call_wasm (lit "malloc") [VNum (Int (Z.of_nat (length tokenBytes) + 1))] ;;
     log_value host tokenPtr ;;;
     write_token tokenPtr tokenBytes ;;;
     match solve_export guest with
     | Some name =>
         try_catch
           (log_value host tokenPtr ;;;
            result <- call_wasm name [tokenPtr] ;;
            log_value host result ;;;
            (if truthy result then call_Solve_if_defined result else ret false) ;;;
            (if export_is_function guest (lit "free")
             then _ <- call_wasm (lit "free") [tokenPtr] ;; ret tt else ret tt) ;;;
            ret true)
           (fun _ => ret false)
     | None => ret false
     end)
    (fun _ => ret false).

(** The standard entry points, after [malloc] did not end the run. *)
Definition run_entry_points (token : value) : M unit :=
  (if export_is_function guest (lit "_start")
   then try_catch (_ <- call_wasm (lit "_start") [] ;; ret tt) (fun _ => ret tt)
   else ret tt) ;;;
  if export_is_function guest (lit "resume") then _ <- call_wasm (lit "resume") [] ;; ret tt
  else if export_is_function guest (lit "run") then _ <- call_wasm (lit "run") [] ;; ret tt
  else if export_is_function guest (lit "main") then _ <- call_wasm (lit "main") [] ;; ret tt
  else match solve_export guest with
       | Some name =>
           try_catch
             (log_value host token ;;;
              result <- call_wasm name [token] ;;
              log_value host result ;;;
              if truthy result then _ <- call_Solve_if_defined result ;; ret tt else ret tt)
             (fun _ => ret tt)
       | None => throw_error msg_no_entry
       end.

Definition resetAndRunWasm : M unit :=
  ready <- gets wasmInstance ;;
  if negb ready then throw_error msg_no_instance
  else
    try_catch
      (token <- global_get (lit "vercelChallengeToken") ;;
       log_value host token ;;;
       t <- ToString host token ;;
       solution <- generateSolution t ;;
       called <- call_Solve_if_defined (VStr solution) ;;
       if called then ret tt
       else
         done <- (if export_is_function guest (lit "malloc")
                  then run_with_malloc token else ret false) ;;
         if done then ret tt else run_entry_points token)
      (fun error =>
         token <- global_get (lit "vercelChallengeToken") ;;
         t <- ToString host token ;;
         solution <- generateSolution t ;;
         called <- call_Solve_if_defined (VStr solution) ;;
         if called then ret tt else throw error).

(** [searchSolutionInMemory]: the candidate at offset [i], the bytes up
    to the first 0, at most 100 of them. *)
Fixpoint candidate (fuel : nat) (bytes : list Z) : list Z :=
  match fuel, bytes with
  | S fuel', b :: rest => if b =? 0 then [] else b :: candidate fuel' rest
  | _, _ => []
  end.

Fixpoint search_from (n : nat) (i : nat) (memory : Memory) : option jsstring :=
  match n with
  | O => None
  | S n' =>
      let found :=
        if bool_decide (take 4 (drop i memory) = [49; 46; 48; 59]) then
          let solution := Utf8.decode (candidate 100 (drop i memory)) in
          if solution_grammar solution then Some solution else None
        else None in
      match found with
      | Some solution => Some solution
      | None => search_from n' (S i) memory
      end
  end.

Definition searchSolutionInMemory : M (option jsstring) :=
  ready <- gets wasmInstance ;;
  if negb ready then ret None
  else gets (fun s => search_from (Z.to_nat (mem_length (memory s) - 4 - 50)) 0 (memory s)).

(** Where the asynchronous [solveChallenge] stands after its
    synchronous part. *)
Inductive suspension : Type :=
| AwaitSolution (p : nat)       (* resetAndRunWasm returned; awaiting the promise *)
| RunFailed (error : value).    (* an error is on its way to the outer catch *)

Inductive outcome : Type :=
| Resolves (solution : jsstring)
| Rejects (reason : value)
| Waits.

(** The synchronous part, up to the first [await]; a [Throw] is the
    rejection of the first check. *)
Definition solveChallenge_begin (token : jsstring) : M suspension :=
  ready <- gets wasmInstance ;;
  if negb ready then throw_error msg_not_initialized
  else
    try_catch
      (global_set (lit "vercelChallengeToken") (VStr token) ;;;
       p <- defineSolveFunction ;;
       resetAndRunWasm ;;;
       ret (AwaitSolution p))
      (fun error => ret (RunFailed error)).

(** [solutionError.message && solutionError.message.includes(...)] with
    the two characters of the timeout message *)
Definition is_timeout (solutionError : value) : M bool :=
  match solutionError with
  | VObj r =>
      gets (fun s => match get_property (world s) r (lit "message") with
                     | VStr m => includes [36229; 26102] m
                     | _ => false
                     end)
  | _ => ret false
  end.

(** The rest, run when the awaited promise has settled. *)
Definition solveChallenge_resume (token : jsstring) (k : suspension)
    : Solver -> outcome * Solver :=
  fun s =>
    let fallback s := match generateSolution token s with
                      | (Ok solution, s') => (Resolves solution, s')
                      | (Throw e, s') => (Rejects e, s')
                      end in
    match k with
    | RunFailed _ => fallback s
    | AwaitSolution p =>
        match state <$> promises s !! p with
        | Some (Fulfilled solution) => (Resolves solution, s)
        | Some (Rejected solutionError) =>
            match is_timeout solutionError s with
            | (Ok true, s1) =>
                match searchSolutionInMemory s1 with
                | (Ok (Some memoryStr), s2) => (Resolves memoryStr, s2)
                | (_, s2) => fallback s2
                end
            | (_, s1) => fallback s1
            end
        | _ => (Waits, s)
        end
    end.

(** What may run while [solveChallenge] is suspended. *)
Inductive event : Type :=
| GuestSolve (p : nat) (arg : value)   (* the callback of promise p is invoked *)
| GuestCall (h : handler)              (* the guest issues a host call *)
| TimerFires (p : nat).                (* the timer of promise p expires *)

Definition run_event (e : event) (s : Solver) : Solver :=
  match e with
  | GuestSolve p arg => snd (Solve host p arg s)
  | GuestCall h => snd (dispatch host h s)
  | TimerFires p => snd (fire_timer p s)
  end.

Definition run_events (events : list event) (s : Solver) : Solver :=
  fold_left (fun s e => run_event e s) events s.

(** [solveChallenge(token)], with [events] running between its
    synchronous part and its resumption. *)
Definition solveChallenge (token : jsstring) (events : list event)
    : Solver -> outcome * Solver :=
  fun s =>
    match solveChallenge_begin token s with
    | (Throw e, s') => (Rejects e, s')
    | (Ok k, s') => solveChallenge_resume token k (run_events events s')
    end.

End Orchestrator.

(** ** Derived notions used in the statements *)

(** The string [generateSolution] computes, as a function of the token
    alone. *)
Definition hash_segment (input : jsstring) (length : Z) : jsstring :=
  padStart0 (substring0 (hash_blocks (Z.to_nat (ceil_div8 length)) 0 input []) length) length.

Definition solution_string (token : jsstring) : jsstring :=
  let seed := lit "monad_challenge_seed_" ++ token in
  lit "1.0;" ++ hash_segment (seed ++ lit "part1") 16
  ++ lit ";" ++ hash_segment (seed ++ lit "part2") 16
  ++ lit ";" ++ hash_segment (seed ++ lit "part3") 16.

(** A lower-case hexadecimal digit. *)
Definition is_hex (c : Z) : bool := Utf8.in_range 48 57 c || Utf8.in_range 97 102 c.

(** A computation that returns normally in every state. *)
Definition total {A} (c : M A) : Prop :=
  forall s, exists a s', c s = (Ok a, s').

(** A computation that keeps a property of the state, also when it
    throws. *)
Definition keeps {A} (P : Solver -> Prop) (c : M A) : Prop :=
  forall s, P s -> P (snd (c s)).

(** Promise [p] is fulfilled with [solution]. *)
Definition fulfilled (p : nat) (solution : jsstring) (s : Solver) : Prop :=
  exists t, promises s !! p = Some (MkPromise (Fulfilled solution) t).

(** A host that does nothing and a module without exports, for
    evaluating the bridge on concrete frames. *)
Definition idle_host : Host :=
  MkHost (fun _ _ _ w => (Ok VUndefined, w))
         (fun _ _ w => (Ok VUndefined, w))
         (fun _ w => (Ok (lit "[object Object]"), w))
         (fun _ w => (Ok 0, w))
         (fun _ => []).

Definition idle_guest : Guest :=
  MkGuest (fun _ => false) None (fun _ _ => ret VUndefined).

(** A property of the state that the steps of the bridge keep: writing
    to the memory or to the host heap, storing a value in the table,
    settling a promise and clearing its timer. *)
Record bridge_invariant (P : Solver -> Prop) : Prop := {
  inv_memory : forall m s, P s -> P (set_memory m s);
  inv_world : forall w s, P s -> P (set_world w s);
  inv_store : forall obj s, P s -> P (snd (storeObject obj s));
  inv_settle : forall p st s, P s -> P (snd (settle p st s));
  inv_clear : forall p s, P s -> P (snd (clearTimeout p s)) }.

(** The state [solveChallenge] leaves at its first [await], in a state
    [s] with an instance: the token and the callback are published and
    the new promise is already fulfilled, by the orchestrator itself,
    with the synthesized solution. *)
Definition begun (token : jsstring) (s : Solver) : Solver :=
  MkSolver true (memory s) (objectRefs s) (nextRefId s)
    (set_property
       (set_property (world s) RGlobal (lit "vercelChallengeToken") (VStr token))
       RGlobal (lit "Solve") (VObj (RSolve (length (promises s)))))
    (promises s ++ [MkPromise (Fulfilled (solution_string token)) false]).

(** A solver with a module of 64 zero bytes, in an otherwise empty
    host heap, and the state its constructor leaves. *)
Definition empty_world : World := MkWorld [] [] 0.
Definition fresh_solver : Solver := initialized (replicate 64 0) (new_solver empty_world).

(** The state a rejected [solveChallenge] leaves: nothing but the new
    [Error] object is added. *)
Definition with_error (message : jsstring) (s : Solver) : Solver :=
  set_world (MkWorld ((RError (errors (world s)), lit "message", VStr message)
                        :: heap (world s))
                     (protos (world s)) (S (errors (world s)))) s.

(** A solution of the right grammar that the guest might report. *)
Definition guest_solution : jsstring :=
  lit "1.0;aaaaaaaaaaaaaaaa;bbbbbbbbbbbbbbbb;cccccccccccccccc".

(** A value whose conversion to a string runs no code of the host and
    cannot throw. *)
Definition converts_silently (v : value) : bool :=
  match v with VObj _ | VSym _ => false | _ => true end.

(** The call frame of a [valueGet] at stack pointer 0 in a memory of 64
    bytes: the receiver id at 8, the pointer (48) and the length of the
    property name at 16 and 24, the result slot at 32, preset to
    0xFFFFFFFF, and the name itself at 48. *)
Definition le32 (z : Z) : list Z :=
  [z mod 256; z / 256 mod 256; z / 65536 mod 256; z / 16777216 mod 256].

Definition frame_get (v_addr : Z) (prop : string) : Memory :=
  let name := lit prop in
  let used := replicate 8 0 ++ le32 v_addr ++ replicate 4 0
              ++ le32 48 ++ replicate 4 0
              ++ le32 (Z.of_nat (length name)) ++ replicate 4 0
              ++ replicate 4 255 ++ replicate 12 0 ++ name in
  used ++ replicate (64 - length used) 0.


(** The states a solver goes through: constructed, given an instance,
    then any sequence of guest activity (host calls, callback
    invocations, stores to its own memory), timers and calls of
    [solveChallenge]. *)
Inductive reachable (host : Host) (guest : Guest) : Solver -> Prop :=
| reach_new (w : World) : reachable host guest (new_solver w)
| reach_initialize (m : Memory) (s : Solver) :
    reachable host guest s -> reachable host guest (initialized m s)
| reach_memory (m : Memory) (s : Solver) :
    reachable host guest s -> reachable host guest (set_memory m s)
| reach_event (e : event) (s : Solver) :
    reachable host guest s -> reachable host guest (run_event host e s)
| reach_begin (token : jsstring) (s : Solver) :
    reachable host guest s ->
    reachable host guest (snd (solveChallenge_begin host guest token s))
| reach_resume (token : jsstring) (k : suspension) (s : Solver) :
    reachable host guest s ->
    reachable host guest (snd (solveChallenge_resume token k s)).

(** * More of the bridge *)

(** ** The system-call imports ([wasi_snapshot_preview1]) *)

Section Wasi.
Local Open Scope js_scope.

(** The 32-bit field of an I/O vector, read byte by byte without a
    range check and without [>>> 0]: a signed number. *)
Definition iovec_field (memory : Memory) (at_ : Z) : Z :=
  mem_at memory at_
  .| (mem_at memory (at_ + 1) << 8)
  .| (mem_at memory (at_ + 2) << 16)
  .| (mem_at memory (at_ + 3) << 24).

(** One round of the loop of [fd_write]: the text of the [i]-th vector
    goes to the stream [fd] when that is 1 or 2, and its length is
    counted whatever [fd] is.  The state of the loop is the count
    [written] (a double, exact while below 2^53) and the texts written
    so far, oldest first. *)
Definition fd_write_step (memory : Memory) (fd iovs_ptr : Z) (i : Z)
    (acc : Z * list (Z * jsstring)) : Z * list (Z * jsstring) :=
  let '(written, out) := acc in
  let ptr := iovec_field memory (iovs_ptr + i * 8) in
  let len := iovec_field memory (iovs_ptr + i * 8 + 4) in
  if len >? 0 then
    let bytes := mem_slice memory ptr (ptr + len) in
    let text := Utf8.decode bytes in
    let out' := if (fd =? 1) || (fd =? 2) then out ++ [(fd, text)] else out in
    (written + len, out')
  else (written, out).

Fixpoint fd_write_loop (n : nat) (memory : Memory) (fd iovs_ptr : Z) (i : Z)
    (acc : Z * list (Z * jsstring)) : Z * list (Z * jsstring) :=
  match n with
  | O => acc
  | S n' => fd_write_loop n' memory fd iovs_ptr (i + 1)
              (fd_write_step memory fd iovs_ptr i acc)
  end.

(** [fd_write]: the result and the texts handed to [process.stdout]
    (1) and [process.stderr] (2), in order. *)
Definition fd_write (fd iovs_ptr iovs_len nwritten_ptr : Z)
    : Solver -> (Z * list (Z * jsstring)) * Solver :=
  fun s =>
    if negb (wasmInstance s) then ((0, []), s)
    else
      let memory := memory s in
      let '(written, out) :=
        fd_write_loop (Z.to_nat iovs_len) memory fd iovs_ptr 0 (0, []) in
      let m0 := mem_set memory nwritten_ptr (written .& 255) in
      let m1 := mem_set m0 (nwritten_ptr + 1) ((written >> 8) .& 255) in
      let m2 := mem_set m1 (nwritten_ptr + 2) ((written >> 16) .& 255) in
      let m3 := mem_set m2 (nwritten_ptr + 3) ((written >> 24) .& 255) in
      ((0, out), set_memory m3 s).

Definition fd_close : Z := 0.
Definition fd_fdstat_get : Z := 0.
Definition fd_seek : Z := 0.

End Wasi.

(** [crypto.getRandomValues(view)] for a view of [n] bytes: the
    platform refuses ([None]: an exception, as it raises for a view of
    more than 65536 bytes) or gives the byte for each index. *)
Definition Entropy : Type := nat -> option (nat -> Z).

(** [random_get]: the view [memory.subarray(bufPtr, bufPtr + bufLen)] is
    clamped to the buffer like a slice, and filled in place. *)
Definition random_get (entropy : Entropy) (bufPtr bufLen : Z) : M Z :=
  ready <- gets wasmInstance ;;
  if negb ready then ret 0
  else
    len <- memory_length ;;
    let k := clamp_index len bufPtr in
    let final := clamp_index len (bufPtr + bufLen) in
    let n := Z.to_nat (final - k) in
    match entropy n with
    | None => throw_error (lit "QuotaExceededError")
    | Some byte =>
        modify (fun s =>
          set_memory (take (Z.to_nat k) (memory s)
                      ++ List.map (fun i => byte i mod 256) (seq 0 n)
                      ++ drop (Z.to_nat k + n) (memory s)) s) ;;;
        ret 0
    end.

(** [proc_exit(code)] *)
Definition proc_exit (code : Z) : M Z :=
  throw_error (lit "WebAssembly "
               ++ [31243; 24207; 36864; 20986; 65292; 36864; 20986; 30721; 65306]
               ++ number_to_string (Int code)).

(** ** Two helpers of the class that nothing calls *)

Section Unused.
Local Open Scope js_scope.

(** One round of the loop of [generateFallbackSolution]. *)
Definition fallback_step (hash char : Z) : Z :=
  let hash := ((hash << 7) - hash) + char in
  hash .& hash.

Definition generateFallbackSolution (token : jsstring) : jsstring :=
  let hash := fold_left fallback_step token 0 in
  padStart0 (to_radix 16 (Z.abs hash)) 8.

(** The loop of [readNullTerminatedString], for at most [fuel] more
    indices: an index before the buffer reads [undefined], which is not
    0 and which [String.fromCharCode] turns into the code unit 0. *)
Fixpoint read_until_null (fuel : nat) (memory : Memory) (at_ : Z) : jsstring :=
  match fuel with
  | O => []
  | S fuel' =>
      match mem_get memory at_ with
      | Some byte =>
          if byte =? 0 then []
          else byte :: read_until_null fuel' memory (at_ + 1)
      | None => 0 :: read_until_null fuel' memory (at_ + 1)
      end
  end.

Definition readNullTerminatedString (memory : Memory) (ptr : Z) : jsstring :=
  read_until_null (Z.to_nat (mem_length memory - ptr)) memory ptr.

End Unused.

(** ** Derived notions for the reference table *)

(** No value is held twice, under [===], and no reserved value is held
    at all. *)
Definition no_duplicates (s : Solver) : Prop :=
  forall (i j : Z) (v w : value),
    In (i, v) (objectRefs s) -> In (j, w) (objectRefs s) ->
    strict_eq v w = true -> i = j.

Definition no_reserved (s : Solver) : Prop :=
  forall (i : Z) (v : value), In (i, v) (objectRefs s) -> reserved v = false.

Record table_clean (s : Solver) : Prop := {
  clean_ok : table_ok s;
  clean_distinct : no_duplicates s;
  clean_unreserved : no_reserved s }.

(** ** Derived notions for the unused fallback hash *)

(** Horner's scheme in base 127 over the code units, without
    wrap-around. *)
Fixpoint poly127 (token : jsstring) (acc : Z) : Z :=
  match token with
  | [] => acc
  | char :: rest => poly127 rest (127 * acc + char)
  end.

(** ** Derived notions for the readers of memory *)

(** The bytes of a list up to its first 0. *)
Fixpoint zero_free_prefix (bytes : list Z) : list Z :=
  match bytes with
  | [] => []
  | b :: rest => if b =? 0 then [] else b :: zero_free_prefix rest
  end.

(** The lengths and the texts of the first [n] I/O vectors at
    [iovs_ptr], those of positive length, in order. *)
Definition iovec_lengths (memory : Memory) (iovs_ptr : Z) (n : nat) : list Z :=
  List.filter (fun len => len >? 0)
    (List.map (fun i => iovec_field memory (iovs_ptr + Z.of_nat i * 8 + 4)) (seq 0 n)).

Definition iovec_texts (memory : Memory) (iovs_ptr : Z) (n : nat) : list jsstring :=
  List.map
    (fun i => let ptr := iovec_field memory (iovs_ptr + Z.of_nat i * 8) in
              let len := iovec_field memory (iovs_ptr + Z.of_nat i * 8 + 4) in
              Utf8.decode (mem_slice memory ptr (ptr + len)))
    (List.filter (fun i => iovec_field memory (iovs_ptr + Z.of_nat i * 8 + 4) >? 0)
       (seq 0 n)).

Definition sum (l : list Z) : Z := fold_right Z.add 0 l.

(** ** Derived notions for the search of the memory *)

(** A well-formed solution stands at offset [i], with a 0 after it. *)
Definition solution_at (memory : Memory) (i : nat) (solution : jsstring) : Prop :=
  take 54 (drop i memory) = solution
  /\ solution_grammar solution = true
  /\ memory !! (i + 54)%nat = Some 0.

(** A state of the decoder inside a sequence whose code point, once
    complete, is 128 or more. *)
Definition open_sequence (st : Utf8.dstate) : Prop :=
  let q := Utf8.code_point st * 64 + Utf8.lower_boundary st - 128 in
  Utf8.bytes_needed st <> 0
  /\ 128 <= Utf8.lower_boundary st
  /\ Utf8.upper_boundary st <= 191
  /\ 2 <= q
  /\ (Utf8.bytes_seen st + 1 = Utf8.bytes_needed st -> 128 <= q).

(** ** Derived notions for the promises *)

(** Every promise is settled and its timer is cleared. *)
Definition all_settled (ps : list promise) : Prop :=
  forall (p : nat) (pr : promise),
    ps !! p = Some pr -> state pr <> Pending /\ timer_armed pr = false.

(** ** Derived notions for the values that cross the bridge *)

(** What an id that [storeObject] returned leads back to: the value
    itself, but for [null], which shares the id 0 with [undefined]. *)
Definition read_back (v : value) : value :=
  match v with VNull => VUndefined | _ => v end.

(** A number whose digits [number_to_string] gives as the platform
    does, and any value that is not a number. *)
Definition safe_number (v : value) : Prop :=
  match v with
  | VNum (Int z) => Z.abs z <= MAX_SAFE_INTEGER
  | _ => True
  end.



(** * Properties *)

(** ** Integer operators, memory and the map *)

Lemma ToInt32_range z : - 2 ^ 31 <= ToInt32 z < 2 ^ 31.
Proof. unfold ToInt32. pose proof (Z.mod_pos_bound (z + 2 ^ 31) (2 ^ 32)). lia. Qed.

Lemma ToUint32_range z : 0 <= ToUint32 z < 2 ^ 32.
Proof. unfold ToUint32. apply Z.mod_pos_bound. lia. Qed.

Lemma ToInt32_small z : - 2 ^ 31 <= z < 2 ^ 31 -> ToInt32 z = z.
Proof. intros H. unfold ToInt32. rewrite Z.mod_small; lia. Qed.

Lemma jsstring_eqb_eq a b : jsstring_eqb a b = true <-> a = b.
Proof. unfold jsstring_eqb. apply bool_decide_eq_true. Qed.

Lemma length_mem_set memory i v : length (mem_set memory i v) = length memory.
Proof. unfold mem_set. case_match; [apply length_insert | reflexivity]. Qed.

Lemma mem_length_mem_set memory i v : mem_length (mem_set memory i v) = mem_length memory.
Proof. unfold mem_length. now rewrite length_mem_set. Qed.

Example readInt32_example :
  readInt32FromMemory [1; 2; 3; 255; 0] 0 = 4278387201.
Proof. reflexivity. Qed.

Example decode_example :
  Utf8.decode [110; 97; 118; 195; 169; 226; 130; 172; 240; 159; 152; 128; 255]
  = [110; 97; 118; 233; 8364; 55357; 56832; 65533].
Proof. reflexivity. Qed.

Example encode_example :
  Utf8.encode [110; 233; 8364; 55357; 56832; 56832]
  = [110; 195; 169; 226; 130; 172; 240; 159; 152; 128; 239; 191; 189].
Proof. reflexivity. Qed.

Lemma strict_eq_true a b : strict_eq a b = true -> a = b.
Proof.
  unfold strict_eq; intros H.
  destruct a as [| | |[]| | | |], b as [| | |[]| | | |];
    try discriminate; apply bool_decide_eq_true in H; exact H.
Qed.

Lemma strict_eq_refl a : a <> VNum NaN -> strict_eq a a = true.
Proof.
  intros H. unfold strict_eq.
  destruct a as [| | |[]| | | |]; try congruence; apply bool_decide_eq_true; reflexivity.
Qed.


Module JsMapFacts.
Import JsMap.

Lemma get_set_eq k v m : get k (set k v m) = Some v.
Proof.
  induction m as [|[k' v'] m IH]; simpl.
  - now rewrite Z.eqb_refl.
  - destruct (k' =? k) eqn:E; simpl.
    + now rewrite Z.eqb_refl.
    + now rewrite E.
Qed.

Lemma get_set_ne k k' v m : k <> k' -> get k' (set k v m) = get k' m.
Proof.
  intros Hne. induction m as [|[k0 v0] m IH]; simpl.
  - destruct (k =? k') eqn:E; [apply Z.eqb_eq in E; lia | reflexivity].
  - destruct (k0 =? k) eqn:E; simpl.
    + apply Z.eqb_eq in E; subst k0.
      destruct (k =? k') eqn:E'; [apply Z.eqb_eq in E'; lia | reflexivity].
    + destruct (k0 =? k'); [reflexivity | exact IH].
Qed.

Lemma set_fresh k v m : ~ In k (keys m) -> set k v m = m ++ [(k, v)].
Proof.
  induction m as [|[k' v'] m IH]; simpl; intros Hn; [reflexivity|].
  destruct (k' =? k) eqn:E.
  - apply Z.eqb_eq in E. tauto.
  - rewrite IH; [reflexivity | tauto].
Qed.


End JsMapFacts.

Example to_radix_examples :
  to_radix 10 0 = lit "0" /\ to_radix 10 1234 = lit "1234" /\
  to_radix 16 255 = lit "ff" /\ to_radix 16 4096 = lit "1000".
Proof. repeat split; reflexivity. Qed.

Example storeObject_examples :
  let s0 := new_solver (MkWorld [] [] 0) in
  let '(a, s1) := storeObject (VStr (lit "x")) s0 in
  let '(b, s2) := storeObject (VObj (RHostObject 7)) s1 in
  let '(c, s3) := storeObject (VStr (lit "x")) s2 in
  let '(d, s4) := storeObject (VObj RNavigator) s3 in
  (a, b, c, d) = (6, 7, 6, 2) /\ getObject 7 s4 = VObj (RHostObject 7)
  /\ getObject 9 s4 = VUndefined.
Proof. repeat split; reflexivity. Qed.


(** ** Memory marshaller *)

Lemma out_of_range_test memory ptr :
  ptr < 0 \/ mem_length memory < ptr + 4 ->
  ((ptr <? 0) || (ptr + 3 >=? mem_length memory)) = true.
Proof.
  intros [H|H]; apply orb_true_iff; [left; lia | right; lia].
Qed.

Lemma mem_slice_inside memory ptr len :
  0 <= ptr -> 0 <= len ->
  mem_slice memory ptr (ptr + len) = take (Z.to_nat len) (drop (Z.to_nat ptr) memory).
Proof.
  intros Hp Hl. unfold mem_slice, clamp_index, mem_length.
  destruct (ptr <? 0) eqn:E1; [lia|].
  destruct (ptr + len <? 0) eqn:E2; [lia|].
  destruct (Z_le_gt_dec (Z.of_nat (length memory)) ptr) as [Hout|Hin].
  - rewrite !drop_ge by lia. now rewrite !take_nil.
  - rewrite (Z.min_l ptr) by lia.
    destruct (Z_le_gt_dec (ptr + len) (Z.of_nat (length memory))) as [Hfit|Hcut].
    + rewrite Z.min_l by lia. f_equal. lia.
    + rewrite Z.min_r by lia.
      rewrite !take_ge; [reflexivity | rewrite length_drop; lia | rewrite length_drop; lia].
Qed.

(** C5 (as amended).  When the four bytes at [ptr] are not all inside
    the buffer, [readInt32FromMemory] returns 0 and [writeInt32ToMemory]
    and [writeValueToMemory] leave the buffer as it is;
    [writeInt64ToMemory] checks its two halves separately and leaves the
    buffer as it is when the upper half does not fit either;
    [readStringFromMemory] makes no range check and returns the decoding
    of the bytes of the range that are inside the buffer.  All of them
    are total: none raises. *)
Theorem marshaller_out_of_range (memory : Memory) (ptr : Z) :
  ptr < 0 \/ mem_length memory < ptr + 4 ->
  readInt32FromMemory memory ptr = 0
  /\ (forall value, writeInt32ToMemory memory ptr value = memory)
  /\ (forall value, writeValueToMemory memory ptr value = memory)
  /\ (forall value, ptr + 4 < 0 \/ mem_length memory < ptr + 8 ->
        writeInt64ToMemory memory ptr value = memory)
  /\ (forall len, 0 <= ptr -> 0 <= len ->
        readStringFromMemory memory ptr len
        = Utf8.decode (take (Z.to_nat len) (drop (Z.to_nat ptr) memory))).
Proof.
  intros Hout. pose proof (out_of_range_test memory ptr Hout) as Htest.
  repeat split.
  - unfold readInt32FromMemory. now rewrite Htest.
  - intros v. unfold writeInt32ToMemory. now rewrite Htest.
  - intros v. unfold writeValueToMemory, writeInt32ToMemory. now rewrite Htest.
  - intros v Hhigh. unfold writeInt64ToMemory, writeInt32ToMemory.
    rewrite Htest.
    assert (((ptr + 4 <? 0) || (ptr + 4 + 3 >=? mem_length memory)) = true) as ->
      by (apply orb_true_iff; destruct Hhigh; [left | right]; lia).
    reflexivity.
  - intros len Hp Hl. unfold readStringFromMemory. now rewrite mem_slice_inside.
Qed.

Lemma marshaller_out_of_range_witness :
  readInt32FromMemory [1; 2; 3; 4; 5] 3 = 0
  /\ (forall value, writeInt32ToMemory [1; 2; 3; 4; 5] 3 value = [1; 2; 3; 4; 5])
  /\ (forall value, writeValueToMemory [1; 2; 3; 4; 5] 3 value = [1; 2; 3; 4; 5])
  /\ (forall value, 3 + 4 < 0 \/ mem_length [1; 2; 3; 4; 5] < 3 + 8 ->
        writeInt64ToMemory [1; 2; 3; 4; 5] 3 value = [1; 2; 3; 4; 5])
  /\ (forall len, 0 <= 3 -> 0 <= len ->
        readStringFromMemory [1; 2; 3; 4; 5] 3 len
        = Utf8.decode (take (Z.to_nat len) (drop (Z.to_nat 3) [1; 2; 3; 4; 5]))).
Proof.
  apply (marshaller_out_of_range [1; 2; 3; 4; 5] 3).
  right. vm_compute. reflexivity.
Defined.

(** C5 as stated fails for the string read and the 64-bit write: the
    range [2, 12) leaves a buffer of 4 bytes and the read returns "CD";
    the eight bytes at 4 leave a buffer of 8 bytes and the lower half is
    written. *)
Lemma marshaller_partial_range_counterexample :
  (mem_length [65; 66; 67; 68] < 2 + 10
   /\ readStringFromMemory [65; 66; 67; 68] 2 10 = [67; 68])
  /\ (mem_length [0; 0; 0; 0; 0; 0; 0; 0] < 4 + 8
      /\ writeInt64ToMemory [0; 0; 0; 0; 0; 0; 0; 0] 4 258 = [0; 0; 0; 0; 2; 1; 0; 0]).
Proof. repeat split; vm_compute; reflexivity. Qed.

(** ** Object reference table *)

Lemma find_some_in {A} (f : A -> bool) (l : list A) (x : A) :
  List.find f l = Some x -> In x l /\ f x = true.
Proof. apply List.find_some. Qed.

Lemma get_of_nodup (m : JsMap.t) (k : Z) (v : value) :
  NoDup (JsMap.keys m) -> In (k, v) m -> JsMap.get k m = Some v.
Proof.
  induction m as [|[k' v'] m IH]; simpl; intros Hnd Hin; [contradiction|].
  apply NoDup_cons in Hnd as [Hnotin Hnd].
  destruct Hin as [Heq|Hin].
  - injection Heq as -> ->. now rewrite Z.eqb_refl.
  - destruct (k' =? k) eqn:E.
    + apply Z.eqb_eq in E; subst k'. exfalso. apply Hnotin.
      apply list_elem_of_In. change k with (fst (k, v)). now apply in_map.
    + now apply IH.
Qed.

Lemma storeObject_not_reserved (obj : value) (s : Solver) :
  reserved obj = false ->
  storeObject obj s =
    match scan obj (objectRefs s) with
    | Some id => (id, s)
    | None => (nextRefId s,
               set_table (JsMap.set (nextRefId s) obj (objectRefs s)) (nextRefId s + 1) s)
    end.
Proof.
  intros Hr. unfold storeObject.
  destruct obj as [| | |[]| | | |[]]; try discriminate Hr; reflexivity.
Qed.

Lemma table_ok_new (w : World) : table_ok (new_solver w).
Proof. split; simpl; [lia | constructor | constructor]. Qed.

Lemma table_ok_store (obj : value) (s : Solver) :
  table_ok s -> table_ok (snd (storeObject obj s)).
Proof.
  intros [Hge Hb Hnd].
  destruct (reserved obj) eqn:Hr.
  - assert (snd (storeObject obj s) = s) as ->; [|now split].
    unfold storeObject.
    destruct obj as [| | |[]| | | |[]]; try discriminate Hr; reflexivity.
  - rewrite storeObject_not_reserved by exact Hr.
    destruct (scan obj (objectRefs s)); simpl; [now split|].
    assert (Hfresh : ~ In (nextRefId s) (JsMap.keys (objectRefs s))).
    { intros Hin. rewrite Forall_forall in Hb.
      apply list_elem_of_In, Hb in Hin. lia. }
    rewrite JsMapFacts.set_fresh by exact Hfresh.
    split; simpl.
    + lia.
    + unfold JsMap.keys. rewrite map_app. apply Forall_app. split.
      * eapply Forall_impl; [exact Hb | simpl; intros; lia].
      * repeat constructor; simpl; lia.
    + unfold JsMap.keys. rewrite map_app. simpl.
      apply NoDup_app. split; [exact Hnd|]. split.
      * intros x Hx Hx'. apply list_elem_of_In in Hx'. simpl in Hx'.
        destruct Hx' as [<-|[]]. apply Hfresh. now apply list_elem_of_In.
      * apply NoDup_singleton.
Qed.

Lemma scan_some (obj : value) (m : JsMap.t) (id : Z) :
  scan obj m = Some id ->
  exists v, In (id, v) m /\ strict_eq v obj = true.
Proof.
  unfold scan. destruct (List.find _ m) as [[k v]|] eqn:E; [|discriminate].
  intros [= <-]. apply find_some_in in E as [Hin Heq]. now exists v.
Qed.

Lemma getObject_table (id : Z) (s : Solver) :
  6 <= id -> getObject id s = default VUndefined (JsMap.get id (objectRefs s)).
Proof.
  intros H. unfold getObject.
  repeat (match goal with |- context [?a =? ?b] =>
            destruct (Z.eqb_spec a b); [lia|] end).
  reflexivity.
Qed.

Lemma allocated_ids_consecutive (objs : list value) (s : Solver) :
  allocated_ids objs s
  = List.map (fun k => nextRefId s + Z.of_nat k) (seq 0 (length (allocated_ids objs s))).
Proof.
  revert s. induction objs as [|obj objs IH]; intros s; [reflexivity|].
  simpl. destruct (storeObject obj s) as [id s'] eqn:E.
  destruct (Z.eqb_spec (nextRefId s') (nextRefId s)) as [Hsame|Hmoved].
  - rewrite IH at 1. now rewrite Hsame.
  - assert (id = nextRefId s /\ nextRefId s' = nextRefId s + 1) as [-> Hnext].
    { unfold storeObject in E.
      repeat (match type of E with
              | (if ?c then _ else _) = _ => destruct c
              | match ?c with _ => _ end = _ => destruct c
              end; try (injection E as <- <-; congruence)).
      injection E as <- <-. now simpl. }
    simpl. f_equal; [lia|].
    rewrite IH at 1. rewrite Hnext, <- seq_shift, map_map.
    apply map_ext. intros k. lia.
Qed.

Lemma lookup_map_seq {A} (f : nat -> A) (n k i : nat) (a : A) :
  List.map f (seq k n) !! i = Some a -> a = f (k + i)%nat.
Proof.
  revert k i. induction n as [|n IH]; intros k i; simpl; [discriminate|].
  destruct i as [|i]; simpl.
  - intros [= <-]. f_equal. lia.
  - intros H. apply IH in H. subst a. f_equal. lia.
Qed.

Lemma allocated_ids_lookup (objs : list value) (s : Solver) (i : nat) (a : Z) :
  allocated_ids objs s !! i = Some a -> a = nextRefId s + Z.of_nat i.
Proof.
  rewrite allocated_ids_consecutive. intros H.
  apply lookup_map_seq in H. exact H.
Qed.

(** C3 (as amended).  In a state whose table is well formed, for every
    value that is neither reserved nor NaN, [getObject] of the id
    [storeObject] returns is [===] to the value, and that id is at least
    6; the ids a run of [storeObject] calls allocates are consecutive
    from [nextRefId], hence strictly increasing, and start at 6 in a new
    solver.  The table is well formed in every state of a session
    ([reachable_table_ok]). *)
Theorem reference_table_roundtrip (s : Solver) (obj : value) (objs : list value) :
  table_ok s -> reserved obj = false -> obj <> VNum NaN ->
  strict_eq (getObject (fst (storeObject obj s)) (snd (storeObject obj s))) obj = true
  /\ 6 <= fst (storeObject obj s)
  /\ allocated_ids objs s
     = List.map (fun k => nextRefId s + Z.of_nat k) (seq 0 (length (allocated_ids objs s)))
  /\ (forall (i j : nat) (a b : Z), (i < j)%nat ->
        allocated_ids objs s !! i = Some a -> allocated_ids objs s !! j = Some b -> a < b)
  /\ (forall w, allocated_ids objs (new_solver w)
                = List.map (fun k => 6 + Z.of_nat k)
                    (seq 0 (length (allocated_ids objs (new_solver w))))).
Proof.
  intros [Hge Hb Hnd] Hr Hnan.
  rewrite storeObject_not_reserved by exact Hr.
  split; [|split; [|split; [|split]]].
  - destruct (scan obj (objectRefs s)) as [id|] eqn:E; simpl.
    + apply scan_some in E as (v & Hin & Heq).
      assert (6 <= id).
      { rewrite Forall_forall in Hb.
        assert (elem_of id (JsMap.keys (objectRefs s))) as Hk
          by (apply list_elem_of_In; change id with (fst (id, v)); now apply in_map).
        apply Hb in Hk. lia. }
      rewrite getObject_table by assumption.
      now rewrite (get_of_nodup _ _ _ Hnd Hin).
    + rewrite getObject_table by assumption. simpl.
      rewrite JsMapFacts.get_set_eq. simpl. now apply strict_eq_refl.
  - destruct (scan obj (objectRefs s)) as [id|] eqn:E; simpl; [|assumption].
    apply scan_some in E as (v & Hin & _).
    rewrite Forall_forall in Hb.
    assert (elem_of id (JsMap.keys (objectRefs s))) as Hk
      by (apply list_elem_of_In; change id with (fst (id, v)); now apply in_map).
    apply Hb in Hk. lia.
  - apply allocated_ids_consecutive.
  - intros i j a b Hij Ha Hb'.
    apply allocated_ids_lookup in Ha, Hb'. lia.
  - intros w. apply (allocated_ids_consecutive objs (new_solver w)).
Qed.

Lemma reference_table_roundtrip_witness :
  let s := new_solver (MkWorld [] [] 0) in
  let obj := VStr (lit "canvas") in
  let objs := [VStr (lit "a"); VObj RNavigator; VStr (lit "a"); VNum (Int 7)] in
  strict_eq (getObject (fst (storeObject obj s)) (snd (storeObject obj s))) obj = true
  /\ 6 <= fst (storeObject obj s)
  /\ allocated_ids objs s
     = List.map (fun k => nextRefId s + Z.of_nat k) (seq 0 (length (allocated_ids objs s)))
  /\ (forall (i j : nat) (a b : Z), (i < j)%nat ->
        allocated_ids objs s !! i = Some a -> allocated_ids objs s !! j = Some b -> a < b)
  /\ (forall w, allocated_ids objs (new_solver w)
                = List.map (fun k => 6 + Z.of_nat k)
                    (seq 0 (length (allocated_ids objs (new_solver w))))).
Proof.
  apply (reference_table_roundtrip (new_solver (MkWorld [] [] 0)) (VStr (lit "canvas"))).
  - apply table_ok_new.
  - reflexivity.
  - discriminate.
Defined.

(** C3 as stated fails for NaN, which is not reserved: it is stored
    under id 6 and read back, and NaN is not [===] to itself. *)
Lemma reference_table_nan_counterexample :
  let s := new_solver (MkWorld [] [] 0) in
  reserved (VNum NaN) = false
  /\ fst (storeObject (VNum NaN) s) = 6
  /\ getObject 6 (snd (storeObject (VNum NaN) s)) = VNum NaN
  /\ strict_eq (getObject (fst (storeObject (VNum NaN) s))
                          (snd (storeObject (VNum NaN) s))) (VNum NaN) = false.
Proof. repeat split; reflexivity. Qed.

(** C10.  In every state, [storeObject] answers 0 for undefined and
    null, 1 for the global object, 2 to 5 for the navigator, the
    document, the crypto provider and the WebGL constructor, and leaves
    the state as it is; [getObject] of 0 to 5 is the corresponding
    value, whatever the table holds. *)
Theorem reserved_ids_fixed (s : Solver) :
  storeObject VUndefined s = (0, s)
  /\ storeObject VNull s = (0, s)
  /\ storeObject globalThis s = (1, s)
  /\ storeObject (navigator browserEnv) s = (2, s)
  /\ storeObject (document browserEnv) s = (3, s)
  /\ storeObject (crypto browserEnv) s = (4, s)
  /\ storeObject (WebGLRenderingContext browserEnv) s = (5, s)
  /\ getObject 0 s = VUndefined
  /\ getObject 1 s = globalThis
  /\ getObject 2 s = navigator browserEnv
  /\ getObject 3 s = document browserEnv
  /\ getObject 4 s = crypto browserEnv
  /\ getObject 5 s = WebGLRenderingContext browserEnv.
Proof. repeat split; reflexivity. Qed.

(** ** Fallback synthesis *)

Lemma generateHashSegment_eq (input : jsstring) (length : Z) (s : Solver) :
  generateHashSegment input length s = (Ok (hash_segment input length), s).
Proof. reflexivity. Qed.

Lemma generateSolution_eq (token : jsstring) (s : Solver) :
  generateSolution token s = (Ok (solution_string token), s).
Proof. reflexivity. Qed.

Lemma is_hex_alnum c : is_hex c = true -> is_alnum c = true.
Proof.
  unfold is_hex, is_alnum, Utf8.in_range. intros H.
  apply orb_true_iff in H as [H|H]; apply andb_true_iff in H as [H1 H2];
    apply Z.leb_le in H1, H2.
  - apply orb_true_iff. right. apply andb_true_iff. split; apply Z.leb_le; lia.
  - apply orb_true_iff. left. apply orb_true_iff. left.
    apply andb_true_iff. split; apply Z.leb_le; lia.
Qed.

Lemma digits_fuel_hex fuel n acc :
  forallb is_hex acc = true -> forallb is_hex (digits_fuel fuel 16 n acc) = true.
Proof.
  revert n acc. induction fuel as [|fuel IH]; intros n acc Hacc; simpl; [exact Hacc|].
  assert (Hd : is_hex (if n mod 16 <? 10 then 48 + n mod 16 else 87 + n mod 16) = true).
  { assert (Hb : 0 <= n mod 16 < 16) by (apply Z.mod_pos_bound; lia).
    unfold is_hex, Utf8.in_range.
    destruct (Z.ltb_spec (n mod 16) 10).
    - apply orb_true_iff. left. apply andb_true_iff. split; apply Z.leb_le; lia.
    - apply orb_true_iff. right. apply andb_true_iff. split; apply Z.leb_le; lia. }
  destruct (n / 16 =? 0).
  - simpl. now rewrite Hd.
  - apply IH. simpl. now rewrite Hd.
Qed.

Lemma blockHash_hex seedPart : forallb is_hex (blockHash seedPart) = true.
Proof.
  unfold blockHash. destruct (fold_left mix seedPart _) as [h1 h2].
  unfold to_radix. now apply digits_fuel_hex.
Qed.

Lemma hash_blocks_hex n i input result :
  forallb is_hex result = true -> forallb is_hex (hash_blocks n i input result) = true.
Proof.
  revert i result. induction n as [|n IH]; intros i result H; simpl; [exact H|].
  apply IH. rewrite forallb_app, H. apply blockHash_hex.
Qed.

Lemma hash_segment_16 input :
  length (hash_segment input 16) = 16%nat
  /\ forallb is_alnum (hash_segment input 16) = true.
Proof.
  unfold hash_segment, padStart0, substring0.
  set (blocks := hash_blocks _ 0 input []).
  assert (Hhex : forallb is_hex blocks = true) by now apply hash_blocks_hex.
  split.
  - rewrite length_app, length_replicate, length_take.
    change (Z.to_nat 16) with 16%nat. lia.
  - rewrite forallb_app. apply andb_true_iff. split.
    + apply forallb_forall. intros x Hx.
      apply list_elem_of_In, elem_of_replicate in Hx as [-> _]. reflexivity.
    + apply forallb_forall. intros x Hx. apply is_hex_alnum.
      rewrite forallb_forall in Hhex. apply Hhex.
      apply list_elem_of_In in Hx. apply list_elem_of_In.
      eapply subseteq_take. exact Hx.
Qed.

Lemma alnum16_app (h r : jsstring) :
  length h = 16%nat -> forallb is_alnum h = true -> alnum16 (h ++ r) = Some r.
Proof.
  intros Hlen Hall. unfold alnum16.
  rewrite take_app_length' by (symmetry; exact Hlen).
  rewrite drop_app_length' by (symmetry; exact Hlen).
  rewrite Hall, bool_decide_eq_true_2 by exact Hlen. reflexivity.
Qed.

Lemma literal_app (p r : jsstring) : literal p (p ++ r) = Some r.
Proof.
  unfold literal. rewrite take_app_length, drop_app_length.
  now rewrite bool_decide_eq_true_2.
Qed.

Lemma literal_some (p s r : jsstring) : literal p s = Some r -> s = p ++ r.
Proof.
  unfold literal. destruct (bool_decide_reflect (take (length p) s = p)) as [E|]; [|discriminate].
  intros [= <-]. rewrite <- E at 1. symmetry. apply take_drop.
Qed.

Lemma alnum16_some (s r : jsstring) :
  alnum16 s = Some r ->
  exists h, s = h ++ r /\ length h = 16%nat /\ forallb is_alnum h = true.
Proof.
  unfold alnum16.
  destruct (bool_decide_reflect (length (take 16 s) = 16%nat)) as [L|]; [|discriminate].
  destruct (forallb is_alnum (take 16 s)) eqn:A; [|discriminate].
  intros [= <-]. exists (take 16 s). split; [symmetry; apply take_drop | now split].
Qed.

(** The matcher is the regular expression: it accepts exactly the
    strings ["1.0;" a ";" b ";" c] with [a], [b], [c] of 16
    alphanumeric code units. *)
Lemma solution_grammar_spec (s : jsstring) :
  solution_grammar s = true <->
  exists a b c : jsstring,
    s = lit "1.0;" ++ a ++ lit ";" ++ b ++ lit ";" ++ c
    /\ length a = 16%nat /\ length b = 16%nat /\ length c = 16%nat
    /\ forallb is_alnum a = true /\ forallb is_alnum b = true
    /\ forallb is_alnum c = true.
Proof.
  split.
  - unfold solution_grammar.
    destruct (literal (lit "1.0;") s) as [r0|] eqn:E0; [|discriminate].
    destruct (alnum16 r0) as [r1|] eqn:E1; [|discriminate].
    destruct (literal (lit ";") r1) as [r2|] eqn:E2; [|discriminate].
    destruct (alnum16 r2) as [r3|] eqn:E3; [|discriminate].
    destruct (literal (lit ";") r3) as [r4|] eqn:E4; [|discriminate].
    destruct (alnum16 r4) as [[|x r5]|] eqn:E5; try discriminate.
    intros _.
    apply literal_some in E0, E2, E4.
    apply alnum16_some in E1 as (a & -> & La & Aa).
    apply alnum16_some in E3 as (b & -> & Lb & Ab).
    apply alnum16_some in E5 as (c & -> & Lc & Ac).
    exists a, b, c. subst s r1 r3. rewrite app_nil_r. now repeat split.
  - intros (a & b & c & -> & La & Lb & Lc & Aa & Ab & Ac).
    unfold solution_grammar.
    rewrite literal_app, (alnum16_app _ _ La Aa), literal_app,
      (alnum16_app _ _ Lb Ab), literal_app.
    rewrite <- (app_nil_r c). now rewrite (alnum16_app _ _ Lc Ac).
Qed.

Lemma solution_string_grammar (token : jsstring) :
  solution_grammar (solution_string token) = true.
Proof.
  apply solution_grammar_spec. unfold solution_string.
  set (seed := lit "monad_challenge_seed_" ++ token).
  destruct (hash_segment_16 (seed ++ lit "part1")) as [L1 A1].
  destruct (hash_segment_16 (seed ++ lit "part2")) as [L2 A2].
  destruct (hash_segment_16 (seed ++ lit "part3")) as [L3 A3].
  now eexists _, _, _.
Qed.

(** C6.  [generateSolution] reads nothing but its argument and changes
    nothing: in any two states of the solver, of one process or of two,
    it returns normally, with the same string for the same token, and
    leaves each state as it found it. *)
Theorem generateSolution_deterministic (token : jsstring) (s1 s2 : Solver) :
  exists solution : jsstring,
    generateSolution token s1 = (Ok solution, s1)
    /\ generateSolution token s2 = (Ok solution, s2).
Proof.
  exists (solution_string token). split; apply generateSolution_eq.
Qed.

(** Scenario A of the specification, evaluated. *)
Example generateSolution_abc123 :
  solution_string (lit "abc123")
  = lit "1.0;bb1307bbbe59f1e4;1a620d1a3a13f71f;6706fb857c9759c9".
Proof. vm_compute. reflexivity. Qed.

(** ** Reasoning about computations *)

Lemma bind_ok {A B} (c : M A) (k : A -> M B) s a s' :
  c s = (Ok a, s') -> bind c k s = k a s'.
Proof. intros H. unfold bind. now rewrite H. Qed.

Lemma bind_throw {A B} (c : M A) (k : A -> M B) s e s' :
  c s = (Throw e, s') -> bind c k s = (Throw e, s').
Proof. intros H. unfold bind. now rewrite H. Qed.

Lemma try_catch_ok {A} (c : M A) (h : value -> M A) s a s' :
  c s = (Ok a, s') -> try_catch c h s = (Ok a, s').
Proof. intros H. unfold try_catch. now rewrite H. Qed.

Section Total.

Lemma total_ret {A} (a : A) : total (ret a).
Proof. intros s. now exists a, s. Qed.

Lemma total_gets {A} (f : Solver -> A) : total (gets f).
Proof. intros s. now exists (f s), s. Qed.

Lemma total_modify (f : Solver -> Solver) : total (modify f).
Proof. intros s. now exists tt, (f s). Qed.

Lemma total_bind {A B} (c : M A) (k : A -> M B) :
  total c -> (forall a, total (k a)) -> total (bind c k).
Proof.
  intros Hc Hk s. destruct (Hc s) as (a & s' & E).
  rewrite (bind_ok _ _ _ _ _ E). apply Hk.
Qed.

Lemma total_try_catch {A} (c : M A) (h : value -> M A) :
  (forall e, total (h e)) -> total (try_catch c h).
Proof.
  intros Hh s. unfold try_catch. destruct (c s) as [[a|e] s'].
  - now exists a, s'.
  - apply Hh.
Qed.

Lemma total_store (obj : value) : total (store obj).
Proof. intros s. unfold store. destruct (storeObject obj s) as [id s']. now exists id, s'. Qed.

Lemma total_with_instance (body : M unit) : total body -> total (with_instance body).
Proof.
  intros Hb. unfold with_instance. apply total_bind; [apply total_gets|].
  intros [|]; [exact Hb | apply total_ret].
Qed.

End Total.

Create HintDb total_db.
#[export] Hint Resolve total_ret total_gets total_modify total_store : total_db.

(** Solves [total c] for a straight-line [c] made of reads, writes and
    stores, as the [catch] arms of the handlers are. *)
Ltac total_steps :=
  repeat first
    [ apply total_bind; [|intros ?]
    | match goal with |- total (if ?c then _ else _) => destruct c end
    | solve [auto with total_db]
    | progress unfold write32, write64, writeValue, poke, poke32, read32,
        memory_length, load ].

(** ** No handler lets an exception out *)

Lemma handler_total (host : Host) (h : handler) : total (dispatch host h).
Proof.
  destruct h; cbn [dispatch];
    try (apply total_with_instance; apply total_try_catch; intros ?; total_steps).
  apply total_ret.
Qed.

(** Every handler of the object bridge returns normally, in every
    state, for every stack pointer and memory content and whatever the
    functions and conversions of the host do: what is thrown inside is
    caught inside.  What it is degraded to is stated at the end of
    this file. *)
Theorem handlers_return_normally (host : Host) (h : handler) (s : Solver) :
  exists s' : Solver, dispatch host h s = (Ok tt, s').
Proof.
  destruct (handler_total host h s) as ([] & s' & E). now exists s'.
Qed.

(** ** What the handlers leave alone *)

Section Keeps.
Variable P : Solver -> Prop.
Hypothesis HP : bridge_invariant P.
Variable host : Host.

Lemma keeps_ret {A} (a : A) : keeps P (ret a).
Proof. intros s H. exact H. Qed.

Lemma keeps_throw {A} (e : value) : keeps P (@throw A e).
Proof. intros s H. exact H. Qed.

Lemma keeps_gets {A} (f : Solver -> A) : keeps P (gets f).
Proof. intros s H. exact H. Qed.

Lemma keeps_bind {A B} (c : M A) (k : A -> M B) :
  keeps P c -> (forall a, keeps P (k a)) -> keeps P (bind c k).
Proof.
  intros Hc Hk s H. unfold bind. specialize (Hc s H).
  destruct (c s) as [[a|e] s']; simpl in Hc; [now apply Hk | exact Hc].
Qed.

Lemma keeps_try_catch {A} (c : M A) (h : value -> M A) :
  keeps P c -> (forall e, keeps P (h e)) -> keeps P (try_catch c h).
Proof.
  intros Hc Hh s H. unfold try_catch. specialize (Hc s H).
  destruct (c s) as [[a|e] s']; simpl in Hc; [exact Hc | now apply Hh].
Qed.

Lemma keeps_for_range {A} (n : nat) (i : Z) (body : Z -> A -> M A) (acc : A) :
  (forall i acc, keeps P (body i acc)) -> keeps P (for_range n i body acc).
Proof.
  intros Hb. revert i acc. induction n as [|n IH]; intros i acc; simpl.
  - apply keeps_ret.
  - apply keeps_bind; [apply Hb | intros a; apply IH].
Qed.

Lemma keeps_set_memory (f : Solver -> Memory) :
  keeps P (modify (fun s => set_memory (f s) s)).
Proof. intros s H. now apply (inv_memory P HP). Qed.

Lemma keeps_set_world (f : Solver -> World) :
  keeps P (modify (fun s => set_world (f s) s)).
Proof. intros s H. now apply (inv_world P HP). Qed.

Lemma keeps_lift_host {A} (f : World -> Res A * World) : keeps P (lift_host f).
Proof.
  intros s H. unfold lift_host. destruct (f (world s)) as [r w]. simpl.
  now apply (inv_world P HP).
Qed.

Lemma keeps_store (obj : value) : keeps P (store obj).
Proof.
  intros s H. unfold store.
  pose proof (inv_store P HP obj s H) as H'.
  destruct (storeObject obj s) as [id s']. exact H'.
Qed.

Lemma keeps_new_error (message : jsstring) : keeps P (new_error message).
Proof. intros s H. unfold new_error. simpl. now apply (inv_world P HP). Qed.

Lemma keeps_throw_error {A} (message : jsstring) : keeps P (@throw_error A message).
Proof.
  unfold throw_error. apply keeps_bind; [apply keeps_new_error | intros; apply keeps_throw].
Qed.

Lemma keeps_settle (p : nat) (st : settlement) : keeps P (settle p st).
Proof. intros s H. now apply (inv_settle P HP). Qed.

Lemma keeps_clearTimeout (p : nat) : keeps P (clearTimeout p).
Proof. intros s H. now apply (inv_clear P HP). Qed.

End Keeps.

Create HintDb keeps_db.
#[export] Hint Resolve keeps_ret keeps_throw keeps_gets keeps_set_memory keeps_set_world
  keeps_lift_host keeps_store keeps_new_error keeps_throw_error keeps_settle
  keeps_clearTimeout : keeps_db.

(** Walks through a computation built from the primitives of the bridge. *)
Ltac keeps_steps :=
  repeat first
    [ apply keeps_bind; [|intros ?]
    | apply keeps_try_catch; [|intros ?]
    | apply keeps_for_range; intros ? ?
    | match goal with
      | |- keeps _ (if ?c then _ else _) => destruct c
      | |- keeps _ (match ?x with _ => _ end) => destruct x
      end
    | solve [auto with keeps_db]
    | progress unfold write32, write64, writeValue, poke, poke32, read32, readString,
        memory_length, load, global_get, global_set, with_instance, log_value,
        ToString, String_, BigInt_, ToPropertyKey, Reflect_get, Reflect_set,
        has_length, memory_set_array, collect_args, call_and_report, solve_directly,
        apply_function, construct, Solve, generateSolution, generateHashSegment,
        valueGet_target ].

Lemma keeps_Solve (P : Solver -> Prop) (host : Host) (p : nat) (v : value) :
  bridge_invariant P -> keeps P (Solve host p v).
Proof. intros HP. keeps_steps. Qed.

Lemma keeps_dispatch (P : Solver -> Prop) (host : Host) (h : handler) :
  bridge_invariant P -> keeps P (dispatch host h).
Proof.
  intros HP.
  destruct h; cbn [dispatch];
    unfold finalizeRef, stringVal, valueGet, valueSet, valueCall, valueNew, valueLength,
      valuePrepareString, valueLoadString, valueIndex, valueInvoke;
    keeps_steps.
Qed.

(** ** A fulfilled promise stays fulfilled *)

Lemma storeObject_frame (obj : value) (s : Solver) :
  let s' := snd (storeObject obj s) in
  wasmInstance s' = wasmInstance s /\ memory s' = memory s
  /\ world s' = world s /\ promises s' = promises s.
Proof.
  cbv zeta. unfold storeObject.
  repeat (match goal with
          | |- context [if ?c then _ else _] => destruct c
          | |- context [match ?c with _ => _ end] => destruct c
          end; try (cbn; tauto)).
Qed.

Lemma fulfilled_invariant (p : nat) (solution : jsstring) :
  bridge_invariant (fulfilled p solution).
Proof.
  split; try (intros; assumption).
  - intros obj s H. unfold fulfilled.
    destruct (storeObject_frame obj s) as (_ & _ & _ & ->). exact H.
  - intros q st s [t Ht]. unfold settle, modify. cbn [snd].
    destruct (promises s !! q) as [[[| |] tq]|] eqn:Eq; try (now exists t).
    destruct (decide (q = p)) as [->|Hne]; [congruence|].
    exists t. cbn. now rewrite list_lookup_insert_ne.
  - intros q s [t Ht]. unfold clearTimeout, modify. cbn [snd].
    destruct (promises s !! q) as [[st tq]|] eqn:Eq; [|now exists t].
    destruct (decide (q = p)) as [->|Hne].
    + exists false. cbn. rewrite Ht in Eq. injection Eq as <- <-.
      apply list_lookup_insert_eq. now apply lookup_lt_Some in Ht.
    + exists t. cbn. now rewrite list_lookup_insert_ne.
Qed.

Lemma table_ok_invariant : bridge_invariant table_ok.
Proof.
  split.
  - intros m s [H1 H2 H3]. now split.
  - intros w s [H1 H2 H3]. now split.
  - intros obj s H. now apply table_ok_store.
  - intros p st s [H1 H2 H3]. unfold settle, modify. cbn [snd].
    destruct (promises s !! p) as [[[| |] t]|]; now split.
  - intros p s [H1 H2 H3]. unfold clearTimeout, modify. cbn [snd].
    destruct (promises s !! p) as [[st t]|]; now split.
Qed.

Lemma keeps_fire_timer (P : Solver -> Prop) (p : nat) :
  bridge_invariant P -> keeps P (fire_timer p).
Proof. intros HP. unfold fire_timer. keeps_steps. Qed.

Lemma keeps_run_events (P : Solver -> Prop) (host : Host) (events : list event) (s : Solver) :
  bridge_invariant P -> P s -> P (run_events host events s).
Proof.
  intros HP. revert s. induction events as [|e events IH]; intros s H; [exact H|].
  cbn [run_events fold_left]. apply IH.
  destruct e as [p arg|h|p]; cbn [run_event].
  - now apply keeps_Solve.
  - now apply keeps_dispatch.
  - now apply keeps_fire_timer.
Qed.

(** ** Properties of objects in the heap *)

Lemma lookup_chain_set_eq fuel w r k v :
  lookup_chain fuel (set_property w r k v) r k = Some v.
Proof.
  assert (own_property (set_property w r k v) r k = Some v) as E.
  { unfold own_property, set_property. cbn [heap List.find fst].
    now rewrite bool_decide_eq_true_2. }
  destruct fuel; cbn [lookup_chain]; now rewrite E.
Qed.

Lemma get_property_set_eq w r k v : get_property (set_property w r k v) r k = v.
Proof. unfold get_property. now rewrite lookup_chain_set_eq. Qed.

Lemma lookup_chain_set_ne fuel w r k v r' k' :
  k <> k' ->
  lookup_chain fuel (set_property w r k v) r' k' = lookup_chain fuel w r' k'.
Proof.
  intros Hne. revert r'. induction fuel as [|fuel IH]; intros r'; cbn [lookup_chain].
  - unfold own_property, set_property. cbn [heap List.find fst].
    rewrite bool_decide_eq_false_2 by congruence. reflexivity.
  - assert (own_property (set_property w r k v) r' k' = own_property w r' k') as ->.
    { unfold own_property, set_property. cbn [heap List.find fst].
      rewrite bool_decide_eq_false_2 by congruence. reflexivity. }
    destruct (own_property w r' k'); [reflexivity|].
    change (prototype_of (set_property w r k v) r') with (prototype_of w r').
    destruct (prototype_of w r'); [apply IH | reflexivity].
Qed.

Lemma get_property_set_ne w r k v r' k' :
  k <> k' -> get_property (set_property w r k v) r' k' = get_property w r' k'.
Proof.
  intros Hne. unfold get_property.
  change (protos (set_property w r k v)) with (protos w).
  now rewrite lookup_chain_set_ne.
Qed.

(** ** The solve protocol *)

Lemma Solve_pending (host : Host) (p : nat) (x : jsstring) (t : bool) (s : Solver) :
  promises s !! p = Some (MkPromise Pending t) ->
  Solve host p (VStr x) s
  = (Ok (VStr x), set_promises (<[p := MkPromise (Fulfilled x) false]> (promises s)) s).
Proof.
  intros Hp. pose proof (lookup_lt_Some _ _ _ Hp) as Hlt.
  unfold Solve, log_value, ToString, String_, ToString, bind, try_catch, ret,
    clearTimeout, settle, modify, not_nullish.
  cbn [negb fst snd]. rewrite Hp. cbn [promises set_promises].
  rewrite list_lookup_insert_eq by exact Hlt.
  cbn [promises set_promises]. rewrite list_insert_insert_eq. reflexivity.
Qed.
Lemma resetAndRunWasm_callback host guest token p t s :
  wasmInstance s = true ->
  get_property (world s) RGlobal (lit "vercelChallengeToken") = VStr token ->
  get_property (world s) RGlobal (lit "Solve") = VObj (RSolve p) ->
  promises s !! p = Some (MkPromise Pending t) ->
  resetAndRunWasm host guest s
  = (Ok tt, set_promises (<[p := MkPromise (Fulfilled (solution_string token)) false]> (promises s)) s).
Proof.
  intros Hready Htok Hsolve Hp.
  unfold resetAndRunWasm. unfold bind at 1. unfold gets at 1. rewrite Hready. cbn [negb].
  apply try_catch_ok.
  unfold global_get, call_Solve_if_defined, global_get, log_value, bind, gets, ret.
  rewrite Htok. cbn [ToString ret]. unfold ret. 
  rewrite generateSolution_eq. rewrite Hsolve. cbn [typeof_function is_callable apply_function].
  change (default VUndefined (head [VStr (solution_string token)]))
    with (VStr (solution_string token)).
  rewrite (Solve_pending host p _ t s Hp). reflexivity.
Qed.

Lemma lit_keys_differ : lit "vercelChallengeToken" <> lit "Solve".
Proof. intros H. vm_compute in H. discriminate H. Qed.

Lemma solveChallenge_begin_eq host guest token s :
  wasmInstance s = true ->
  solveChallenge_begin host guest token s
  = (Ok (AwaitSolution (length (promises s))), begun token s).
Proof.
  intros Hready.
  unfold solveChallenge_begin. unfold bind at 1. unfold gets at 1. rewrite Hready. cbn [negb].
  apply try_catch_ok.
  set (s1 := set_world (set_property (world s) RGlobal (lit "vercelChallengeToken") (VStr token)) s).
  set (p := length (promises s)).
  set (s2 := set_world (set_property (world s1) RGlobal (lit "Solve") (VObj (RSolve p)))
               (set_promises (promises s ++ [MkPromise Pending true]) s1)).
  rewrite (bind_ok _ _ s tt s1) by reflexivity.
  rewrite (bind_ok _ _ s1 p s2) by reflexivity.
  erewrite bind_ok.
  2:{ apply (resetAndRunWasm_callback host guest token p true s2).
      - exact Hready.
      - subst s2 s1. cbn [world set_world set_promises].
        rewrite get_property_set_ne by (intros H; symmetry in H; now apply lit_keys_differ).
        apply get_property_set_eq.
      - subst s2. cbn [world set_world set_promises]. apply get_property_set_eq.
      - subst s2 s1 p. cbn [promises set_world set_promises].
        rewrite lookup_app_r by lia. now rewrite Nat.sub_diag. }
  unfold ret. f_equal.
  subst s2 s1 p. unfold begun, set_promises, set_world. cbn [promises world wasmInstance memory objectRefs nextRefId].
  rewrite Hready. f_equal.
  rewrite insert_app_r_alt by lia. now rewrite Nat.sub_diag.
Qed.

Lemma solveChallenge_initialized host guest token events s :
  wasmInstance s = true ->
  fst (solveChallenge host guest token events s) = Resolves (solution_string token).
Proof.
  intros Hready. unfold solveChallenge.
  rewrite (solveChallenge_begin_eq host guest token s Hready).
  assert (Hf : fulfilled (length (promises s)) (solution_string token)
                 (run_events host events (begun token s))).
  { apply keeps_run_events; [apply fulfilled_invariant|].
    exists false. unfold begun. cbn [promises].
    rewrite lookup_app_r by lia. now rewrite Nat.sub_diag. }
  destruct Hf as [t Ht]. unfold solveChallenge_resume. now rewrite Ht.
Qed.

Lemma solveChallenge_uninitialized host guest token events s :
  wasmInstance s = false ->
  exists e s', solveChallenge host guest token events s = (Rejects e, s').
Proof.
  intros Hready. unfold solveChallenge, solveChallenge_begin.
  unfold bind at 1. unfold gets at 1. rewrite Hready. cbn [negb].
  unfold throw_error, new_error, bind, throw. eauto.
Qed.

(** C2.  Whatever [solveChallenge] resolves with matches the solution
    grammar: with an instance it resolves with the string the
    orchestrator synthesized and passed to the callback itself, whatever
    runs while it is suspended; without one it rejects. *)
Theorem solveChallenge_solution_grammar
    (host : Host) (guest : Guest) (token : jsstring) (events : list event)
    (s : Solver) (solution : jsstring) :
  fst (solveChallenge host guest token events s) = Resolves solution ->
  solution_grammar solution = true.
Proof.
  intros H. destruct (wasmInstance s) eqn:Hready.
  - rewrite solveChallenge_initialized in H by exact Hready.
    injection H as <-. apply solution_string_grammar.
  - destruct (solveChallenge_uninitialized host guest token events s Hready) as (e & s' & E).
    rewrite E in H. discriminate H.
Qed.

Lemma solveChallenge_solution_grammar_witness :
  solution_grammar (lit "1.0;bb1307bbbe59f1e4;1a620d1a3a13f71f;6706fb857c9759c9") = true.
Proof.
  apply (solveChallenge_solution_grammar idle_host idle_guest (lit "abc123")
           [TimerFires 0; GuestCall (H_valueLength 8)] fresh_solver).
  vm_compute. reflexivity.
Defined.

(** The two other paths of [solveChallenge], which the callback path
    pre-empts: when the awaited promise is rejected, or the run failed,
    the result is a string found by the memory scan, which tests the
    grammar, or the synthesized one. *)
Lemma search_from_grammar n i memory solution :
  search_from n i memory = Some solution -> solution_grammar solution = true.
Proof.
  revert i. induction n as [|n IH]; intros i; cbn [search_from]; [discriminate|].
  destruct (bool_decide _).
  - destruct (solution_grammar (Utf8.decode _)) eqn:G.
    + now intros [= <-].
    + apply IH.
  - apply IH.
Qed.

Lemma resume_after_rejection_grammar token p reason t s solution :
  promises s !! p = Some (MkPromise (Rejected reason) t) ->
  fst (solveChallenge_resume token (AwaitSolution p) s) = Resolves solution ->
  solution_grammar solution = true.
Proof.
  intros Hp. unfold solveChallenge_resume. rewrite Hp.
  cbn [fmap option_fmap option_map state]. cbv zeta.
  destruct (is_timeout reason s) as [[[|]|e] s1].
  - unfold searchSolutionInMemory, bind, gets, ret.
    destruct (wasmInstance s1); cbn [negb].
    + destruct (search_from _ 0 (memory s1)) as [m|] eqn:E.
      * intros [= <-]. eapply search_from_grammar, E.
      * rewrite generateSolution_eq. intros [= <-]. apply solution_string_grammar.
    + rewrite generateSolution_eq. intros [= <-]. apply solution_string_grammar.
  - rewrite generateSolution_eq. intros [= <-]. apply solution_string_grammar.
  - rewrite generateSolution_eq. intros [= <-]. apply solution_string_grammar.
Qed.

Lemma solveChallenge_resume_state token k s :
  snd (solveChallenge_resume token k s) = s.
Proof.
  unfold solveChallenge_resume. cbv zeta.
  destruct k as [p|e]; [|now rewrite generateSolution_eq].
  destruct (state <$> promises s !! p) as [[| |reason]|]; try reflexivity.
  unfold is_timeout.
  destruct reason; unfold ret, gets; try (now rewrite generateSolution_eq).
  destruct (match get_property (world s) r (lit "message") with
            | VStr m => includes [36229; 26102] m
            | _ => false
            end); [|now rewrite generateSolution_eq].
  unfold searchSolutionInMemory, bind, gets, ret.
  destruct (wasmInstance s); cbn [negb].
  - destruct (search_from _ 0 (memory s)); [reflexivity | now rewrite generateSolution_eq].
  - now rewrite generateSolution_eq.
Qed.

(** C9 (as amended).  With an instance, [solveChallenge] resolves with
    the string the orchestrator synthesizes from the token: it calls the
    registered callback itself before any guest code runs, and the
    promise, once fulfilled, is not changed by what the guest does
    later.  The callback does fulfil a promise that is still pending
    with exactly the string it is given. *)
Theorem solveChallenge_resolves_with_synthesized
    (host : Host) (guest : Guest) (token : jsstring) (events : list event) (s : Solver) :
  wasmInstance s = true ->
  fst (solveChallenge host guest token events s) = Resolves (solution_string token)
  /\ (forall (p : nat) (t : bool) (x : jsstring) (s1 : Solver),
        promises s1 !! p = Some (MkPromise Pending t) ->
        fulfilled p x (snd (Solve host p (VStr x) s1))).
Proof.
  intros Hready. split.
  - now apply solveChallenge_initialized.
  - intros p t x s1 Hp. rewrite (Solve_pending host p x t s1 Hp).
    exists false. cbn [snd promises set_promises].
    apply list_lookup_insert_eq. now apply lookup_lt_Some in Hp.
Qed.

Lemma solveChallenge_resolves_with_synthesized_witness :
  fst (solveChallenge idle_host idle_guest (lit "abc123")
         [GuestSolve 0 (VStr guest_solution)] fresh_solver)
  = Resolves (solution_string (lit "abc123"))
  /\ (forall (p : nat) (t : bool) (x : jsstring) (s1 : Solver),
        promises s1 !! p = Some (MkPromise Pending t) ->
        fulfilled p x (snd (Solve idle_host p (VStr x) s1))).
Proof.
  apply (solveChallenge_resolves_with_synthesized idle_host idle_guest (lit "abc123")
           [GuestSolve 0 (VStr guest_solution)] fresh_solver).
  reflexivity.
Defined.

(** C9 as stated fails: the guest invokes the callback of the session
    with a well-formed solution before the timer fires, and
    [solveChallenge] resolves with the synthesized string, not with the
    guest's. *)
Lemma guest_solution_not_returned_counterexample :
  fst (solveChallenge idle_host idle_guest (lit "abc123")
         [GuestSolve 0 (VStr guest_solution)] fresh_solver)
  = Resolves (lit "1.0;bb1307bbbe59f1e4;1a620d1a3a13f71f;6706fb857c9759c9")
  /\ solution_grammar guest_solution = true
  /\ lit "1.0;bb1307bbbe59f1e4;1a620d1a3a13f71f;6706fb857c9759c9" <> guest_solution.
Proof.
  split; [vm_compute; reflexivity|]. split; [vm_compute; reflexivity|].
  intros H. vm_compute in H. discriminate H.
Qed.

Lemma solveChallenge_begin_rejected host guest token s :
  wasmInstance s = false ->
  solveChallenge_begin host guest token s
  = (Throw (VObj (RError (errors (world s)))), with_error msg_not_initialized s).
Proof.
  intros Hready. unfold solveChallenge_begin. unfold bind at 1. unfold gets at 1.
  rewrite Hready. reflexivity.
Qed.

(** C4 (as amended).  [solveChallenge] has no guard on a session in
    flight.  In every state with an instance, whatever promises are
    outstanding, its synchronous part publishes the token, registers a
    new callback and promise and goes on to the first [await]; it is
    rejected only when there is no instance, and then nothing changes
    but for the new [Error] object. *)
Theorem solveChallenge_begin_in_every_state
    (host : Host) (guest : Guest) (token : jsstring) (s : Solver) :
  solveChallenge_begin host guest token s =
    if wasmInstance s
    then (Ok (AwaitSolution (length (promises s))), begun token s)
    else (Throw (VObj (RError (errors (world s)))), with_error msg_not_initialized s).
Proof.
  destruct (wasmInstance s) eqn:Hready.
  - now apply solveChallenge_begin_eq.
  - now apply solveChallenge_begin_rejected.
Qed.

(** C4 as stated fails: a second call made while the first is
    suspended at its [await] is not rejected; it replaces the published
    token and adds a promise. *)
Lemma second_session_not_rejected_counterexample :
  let s1 := snd (solveChallenge_begin idle_host idle_guest (lit "tokenA") fresh_solver) in
  let r2 := solveChallenge_begin idle_host idle_guest (lit "tokenB") s1 in
  fst (solveChallenge_begin idle_host idle_guest (lit "tokenA") fresh_solver)
    = Ok (AwaitSolution 0)
  /\ fst r2 = Ok (AwaitSolution 1)
  /\ snd r2 <> s1
  /\ get_property (world s1) RGlobal (lit "vercelChallengeToken") = VStr (lit "tokenA")
  /\ get_property (world (snd r2)) RGlobal (lit "vercelChallengeToken") = VStr (lit "tokenB")
  /\ length (promises s1) = 1%nat
  /\ length (promises (snd r2)) = 2%nat.
Proof.
  cbv zeta.
  rewrite (solveChallenge_begin_eq idle_host idle_guest (lit "tokenA") fresh_solver)
    by reflexivity.
  cbn [fst snd].
  rewrite (solveChallenge_begin_eq idle_host idle_guest (lit "tokenB")) by reflexivity.
  cbn [fst snd].
  repeat split; try reflexivity.
  intros H. apply (f_equal (fun s => length (promises s))) in H.
  vm_compute in H. discriminate H.
Qed.

(** ** Stack pointers delivered as BigInt *)





(** ** Property reads through the bridge *)

(** C1, evaluated on the frame of the specification's scenario B.  A
    [valueGet] with receiver id 0 and property name ["navigator"]
    selects the synthetic navigator as the receiver and then reads the
    property ["navigator"] of it, which it does not have: the value is
    undefined, nothing is stored, and the id written into the frame is
    0, not 2. *)
Theorem valueGet_global_navigator_yields_absent_id (host : Host) :
  let s := initialized (frame_get 0 "navigator") (new_solver empty_world) in
  readInt32FromMemory (memory s) 8 = 0
  /\ readString 48 9 s = (Ok (lit "navigator"), s)
  /\ readInt32FromMemory (memory s) 32 = 4294967295
  /\ fst (valueGet host (SpNumber 0) s) = Ok tt
  /\ readInt32FromMemory (memory (snd (valueGet host (SpNumber 0) s))) 32 = 0
  /\ objectRefs (snd (valueGet host (SpNumber 0) s)) = []
  /\ get_property (world s) RNavigator (lit "navigator") = VUndefined.
Proof. cbv zeta. repeat split; vm_compute; reflexivity. Qed.

(** The second half of scenario B holds: a [valueGet] on id 2 with the
    name ["userAgent"] stores the user-agent string under a new id and
    writes that id. *)
Example valueGet_navigator_userAgent (host : Host) :
  let s := initialized (frame_get 2 "userAgent") (new_solver empty_world) in
  let s' := snd (valueGet host (SpNumber 0) s) in
  readInt32FromMemory (memory s') 32 = 6 /\ getObject 6 s' = VStr userAgent.
Proof. cbv zeta. split; vm_compute; reflexivity. Qed.

(** How errors inside a handler end: [valueLength] of a string value
    (the [in] operator throws on a primitive) writes the length 0, and
    [valueNew] of a value that is not a function sets the exception flag
    and writes the id of the error. *)
Example valueLength_degrades (host : Host) :
  let s0 := initialized (replicate 8 0 ++ le32 6 ++ replicate 4 0 ++ replicate 8 255
                         ++ replicate 8 0) (new_solver empty_world) in
  let s := snd (storeObject (VStr (lit "abc")) s0) in
  getObject 6 s = VStr (lit "abc")
  /\ fst (valueLength host 0 s) = Ok tt
  /\ mem_slice (memory (snd (valueLength host 0 s))) 16 24 = replicate 8 0.
Proof. cbv zeta. repeat split; vm_compute; reflexivity. Qed.

Example valueNew_degrades (host : Host) :
  let s := initialized (replicate 8 0 ++ le32 2 ++ replicate 28 0)
             (new_solver empty_world) in
  let s' := snd (valueNew host 0 s) in
  fst (valueNew host 0 s) = Ok tt
  /\ mem_get (memory s') 32 = Some 1
  /\ getObject (readInt32FromMemory (memory s') 24) s' = VObj (RError 0).
Proof. cbv zeta. repeat split; vm_compute; reflexivity. Qed.

(** ** The table invariant holds throughout a session *)

Lemma reachable_table_ok (host : Host) (guest : Guest) (s : Solver) :
  reachable host guest s -> table_ok s.
Proof.
  induction 1 as [w|m s _ IH|m s _ IH|e s _ IH|token s _ IH|token k s _ IH].
  - apply table_ok_new.
  - destruct IH as [H1 H2 H3]. now split.
  - destruct IH as [H1 H2 H3]. now split.
  - destruct e as [p arg|h|p]; cbn [run_event].
    + apply keeps_Solve; [apply table_ok_invariant | exact IH].
    + apply keeps_dispatch; [apply table_ok_invariant | exact IH].
    + apply keeps_fire_timer; [apply table_ok_invariant | exact IH].
  - destruct IH as [H1 H2 H3]. destruct (wasmInstance s) eqn:Hready.
    + rewrite solveChallenge_begin_eq by exact Hready. now split.
    + rewrite solveChallenge_begin_rejected by exact Hready. now split.
  - now rewrite solveChallenge_resume_state.
Qed.

(** * More properties *)

(** ** Bytes and 32-bit words *)

Lemma land_low_disjoint (a b k : Z) :
  0 <= k -> 0 <= a < 2 ^ k -> Z.land a (b * 2 ^ k) = 0.
Proof.
  intros Hk Ha. apply Z.bits_inj'. intros n Hn.
  rewrite Z.land_spec, Z.bits_0.
  destruct (Z.lt_ge_cases n k) as [Hlt|Hge].
  - rewrite Z.mul_pow2_bits_low by lia. apply andb_false_r.
  - destruct (Z.eq_dec a 0) as [->|Hnz]; [now rewrite Z.bits_0|].
    rewrite (Z.bits_above_log2 a n); [reflexivity | lia |].
    apply Z.log2_lt_pow2; [lia|].
    apply Z.lt_le_trans with (2 ^ k); [lia|].
    apply Z.pow_le_mono_r; lia.
Qed.

Lemma lor_low_disjoint (a b k : Z) :
  0 <= k -> 0 <= a < 2 ^ k -> Z.lor a (b * 2 ^ k) = a + b * 2 ^ k.
Proof.
  intros Hk Ha. pose proof (land_low_disjoint a b k Hk Ha) as H0.
  rewrite <- Z.lxor_lor by exact H0. symmetry. now apply Z.add_nocarry_lxor.
Qed.

Lemma ToInt32_mod z : ToInt32 z mod 2 ^ 32 = z mod 2 ^ 32.
Proof.
  unfold ToInt32.
  replace ((z + 2 ^ 31) mod 2 ^ 32 - 2 ^ 31)
    with ((z + 2 ^ 31) mod 2 ^ 32 + (- 2 ^ 31)) by lia.
  rewrite Zplus_mod_idemp_l. f_equal. lia.
Qed.

Lemma ToUint32_ToInt32 z : ToUint32 (ToInt32 z) = ToUint32 z.
Proof. apply ToInt32_mod. Qed.

(** The little-endian value of four bytes. *)
Lemma word_of_bytes (b0 b1 b2 b3 : Z) :
  0 <= b0 < 256 -> 0 <= b1 < 256 -> 0 <= b2 < 256 -> 0 <= b3 < 256 ->
  ((b0 .| (b1 << 8) .| (b2 << 16) .| (b3 << 24)) >>> 0)%js
  = b0 + 256 * b1 + 65536 * b2 + 16777216 * b3.
Proof.
  intros H0 H1 H2 H3. unfold shr, bor, shl.
  change (ToUint32 0 mod 32) with 0. change (ToUint32 8 mod 32) with 8.
  change (ToUint32 16 mod 32) with 16. change (ToUint32 24 mod 32) with 24.
  rewrite Z.shiftr_0_r.
  rewrite (ToInt32_small b0), (ToInt32_small b1), (ToInt32_small b2), (ToInt32_small b3) by lia.
  rewrite !Z.shiftl_mul_pow2 by lia.
  rewrite (ToInt32_small (b1 * 2 ^ 8)) by lia.
  rewrite (ToInt32_small (b1 * 2 ^ 8)) by lia.
  rewrite (lor_low_disjoint b0 b1 8) by lia.
  rewrite (ToInt32_small (b0 + b1 * 2 ^ 8)) by lia.
  rewrite (ToInt32_small (b2 * 2 ^ 16)) by lia.
  rewrite (ToInt32_small (b2 * 2 ^ 16)) by lia.
  rewrite (lor_low_disjoint (b0 + b1 * 2 ^ 8) b2 16) by lia.
  rewrite (ToInt32_small (b0 + b1 * 2 ^ 8 + b2 * 2 ^ 16)) by lia.
  rewrite (ToInt32_small (ToInt32 (b3 * 2 ^ 24))) by apply ToInt32_range.
  assert (Hhigh : exists c, ToInt32 (b3 * 2 ^ 24) = (b3 - 256 * c) * 2 ^ 24 /\ 0 <= c <= 1).
  { destruct (Z_lt_ge_dec b3 128).
    - exists 0. rewrite ToInt32_small by lia. split; lia.
    - exists 1. unfold ToInt32.
      replace (b3 * 2 ^ 24 + 2 ^ 31) with ((b3 * 2 ^ 24 - 2 ^ 31) + 1 * 2 ^ 32) by lia.
      rewrite Z.mod_add by lia. rewrite Z.mod_small by lia. split; lia. }
  destruct Hhigh as (c & -> & Hc).
  rewrite (lor_low_disjoint (b0 + b1 * 2 ^ 8 + b2 * 2 ^ 16) (b3 - 256 * c) 24) by lia.
  unfold ToUint32.
  replace (b0 + b1 * 2 ^ 8 + b2 * 2 ^ 16 + (b3 - 256 * c) * 2 ^ 24)
    with ((b0 + 256 * b1 + 65536 * b2 + 16777216 * b3) + (- c) * 2 ^ 32) by lia.
  rewrite Z.mod_add by lia. apply Z.mod_small. lia.
Qed.

(** The byte [k] of a number, as the four stores compute it. *)
Lemma byte_of_word (v k : Z) :
  0 <= k <= 24 ->
  (((v >> k) .& 255)%js) mod 256 = (v mod 2 ^ 32) / 2 ^ k mod 256.
Proof.
  intros Hk. unfold band, sar.
  assert (Hk' : ToUint32 k mod 32 = k).
  { unfold ToUint32. rewrite (Z.mod_small k) by lia. apply Z.mod_small. lia. }
  rewrite Hk'. change (ToInt32 255) with 255. change 255 with (Z.ones 8).
  pose proof (ToInt32_range v) as Hr.
  rewrite Z.shiftr_div_pow2 by lia.
  assert (Hq : - 2 ^ 31 <= ToInt32 v / 2 ^ k < 2 ^ 31).
  { split.
    - apply Z.div_le_lower_bound; [lia|].
      assert (2 ^ k * - 2 ^ 31 <= - 2 ^ 31); [|lia].
      assert (1 <= 2 ^ k) by (apply (Z.pow_le_mono_r 2 0 k); lia). nia.
    - apply Z.div_lt_upper_bound; [lia|].
      assert (1 <= 2 ^ k) by (apply (Z.pow_le_mono_r 2 0 k); lia). nia. }
  rewrite (ToInt32_small _ Hq). rewrite Z.land_ones by lia.
  rewrite Z.mod_mod by lia.
  pose proof (ToInt32_mod v) as Hm.
  rewrite <- Hm.
  rewrite <- !Z.shiftr_div_pow2 by lia.
  change (2 ^ 8) with (2 ^ 8). change 256 with (2 ^ 8).
  apply Z.bits_inj'. intros n Hn.
  destruct (Z.lt_ge_cases n 8) as [Hlt|Hge].
  - rewrite !Z.mod_pow2_bits_low, !Z.shiftr_spec by lia.
    rewrite Z.mod_pow2_bits_low by lia. reflexivity.
  - rewrite !Z.mod_pow2_bits_high by lia. reflexivity.
Qed.

Lemma mem_get_mem_set_eq (m : Memory) (i v : Z) :
  0 <= i < mem_length m -> mem_get (mem_set m i v) i = Some (v mod 256).
Proof.
  intros Hi. unfold mem_get, mem_set, mem_length in *.
  destruct (Z.ltb_spec i 0); [lia|].
  destruct (Z.leb_spec 0 i); [|lia].
  destruct (Z.ltb_spec i (Z.of_nat (length m))); [|lia]. cbn [andb].
  apply list_lookup_insert_eq. lia.
Qed.

Lemma mem_get_mem_set_ne (m : Memory) (i j v : Z) :
  i <> j -> mem_get (mem_set m i v) j = mem_get m j.
Proof.
  intros Hne. unfold mem_get, mem_set.
  destruct (Z.ltb_spec j 0); [reflexivity|].
  destruct ((0 <=? i) && (i <? mem_length m)) eqn:E; [|reflexivity].
  apply andb_true_iff in E as [E1 E2]. apply Z.leb_le in E1.
  apply list_lookup_insert_ne. lia.
Qed.

Lemma length_store_le32 (m : Memory) (ptr v : Z) :
  mem_length (store_le32 m ptr v) = mem_length m.
Proof. unfold store_le32. now rewrite !mem_length_mem_set. Qed.

Lemma mem_get_store_le32_outside (m : Memory) (ptr v j : Z) :
  j < ptr \/ ptr + 4 <= j -> mem_get (store_le32 m ptr v) j = mem_get m j.
Proof.
  intros Hj. unfold store_le32.
  rewrite !mem_get_mem_set_ne by lia. reflexivity.
Qed.

Lemma mem_get_store_le32_inside (m : Memory) (ptr v k : Z) :
  0 <= ptr -> ptr + 4 <= mem_length m -> 0 <= k < 4 ->
  mem_get (store_le32 m ptr v) (ptr + k) = Some ((v mod 2 ^ 32) / 2 ^ (8 * k) mod 256).
Proof.
  intros Hp Hlen Hk. unfold store_le32.
  assert (Hb0 : ((v .& 255)%js) mod 256 = (v mod 2 ^ 32) / 2 ^ (8 * 0) mod 256).
  { change (8 * 0) with 0. rewrite <- (byte_of_word v 0) by lia. unfold sar.
    change (ToUint32 0 mod 32) with 0. rewrite Z.shiftr_0_r.
    unfold band. now rewrite (ToInt32_small (ToInt32 v)) by apply ToInt32_range. }
  assert (Hk4 : k = 0 \/ k = 1 \/ k = 2 \/ k = 3) by lia.
  destruct Hk4 as [-> | [-> | [-> | ->]]].
  - rewrite !mem_get_mem_set_ne by lia. rewrite Z.add_0_r.
    rewrite mem_get_mem_set_eq by lia. now rewrite Hb0.
  - rewrite !mem_get_mem_set_ne by lia.
    rewrite mem_get_mem_set_eq by (rewrite !mem_length_mem_set; lia).
    change (8 * 1) with 8. now rewrite (byte_of_word v 8) by lia.
  - rewrite !mem_get_mem_set_ne by lia.
    rewrite mem_get_mem_set_eq by (rewrite !mem_length_mem_set; lia).
    change (8 * 2) with 16. now rewrite (byte_of_word v 16) by lia.
  - rewrite mem_get_mem_set_eq by (rewrite !mem_length_mem_set; lia).
    change (8 * 3) with 24. now rewrite (byte_of_word v 24) by lia.
Qed.

Lemma word_of_parts (x : Z) :
  0 <= x < 2 ^ 32 ->
  x / 2 ^ (8 * 0) mod 256 + 256 * (x / 2 ^ (8 * 1) mod 256)
  + 65536 * (x / 2 ^ (8 * 2) mod 256) + 16777216 * (x / 2 ^ (8 * 3) mod 256) = x.
Proof.
  intros Hx. change (2 ^ (8 * 0)) with 1. change (2 ^ (8 * 1)) with 256.
  change (2 ^ (8 * 2)) with 65536. change (2 ^ (8 * 3)) with 16777216.
  rewrite Z.div_1_r.
  pose proof (Z.div_mod x 256 ltac:(lia)) as E0.
  pose proof (Z.div_mod (x / 256) 256 ltac:(lia)) as E1.
  pose proof (Z.div_mod (x / 256 / 256) 256 ltac:(lia)) as E2.
  rewrite Z.div_div in E1, E2 by lia. rewrite Z.div_div in E2 by lia.
  change (256 * 256) with 65536 in *. change (65536 * 256) with 16777216 in *.
  assert (H3 : x / 16777216 mod 256 = x / 16777216).
  { apply Z.mod_small. split; [apply Z.div_pos; lia|].
    apply Z.div_lt_upper_bound; lia. }
  lia.
Qed.

Lemma read_after_store (m : Memory) (ptr v : Z) :
  0 <= ptr -> ptr + 4 <= mem_length m ->
  readInt32FromMemory (store_le32 m ptr v) ptr = v mod 2 ^ 32.
Proof.
  intros Hp Hlen. unfold readInt32FromMemory.
  rewrite length_store_le32.
  destruct (Z.ltb_spec ptr 0); [lia|].
  destruct (Z.geb_spec (ptr + 3) (mem_length m)); [lia|]. cbn [orb].
  unfold mem_at.
  pose proof (mem_get_store_le32_inside m ptr v 0 Hp Hlen ltac:(lia)) as G0.
  rewrite Z.add_0_r in G0.
  rewrite G0, (mem_get_store_le32_inside m ptr v 1), (mem_get_store_le32_inside m ptr v 2),
    (mem_get_store_le32_inside m ptr v 3) by lia.
  cbn [default from_option id].
  assert (Hx : 0 <= v mod 2 ^ 32 < 2 ^ 32) by (apply Z.mod_pos_bound; lia).
  rewrite word_of_bytes by (apply Z.mod_pos_bound; lia).
  now apply word_of_parts.
Qed.

Lemma read_other_after_store (m : Memory) (ptr v q : Z) :
  q + 4 <= ptr \/ ptr + 4 <= q ->
  readInt32FromMemory (store_le32 m ptr v) q = readInt32FromMemory m q.
Proof.
  intros Hq. unfold readInt32FromMemory. rewrite length_store_le32.
  destruct ((q <? 0) || (q + 3 >=? mem_length m)); [reflexivity|].
  unfold mem_at. now rewrite !mem_get_store_le32_outside by lia.
Qed.

Lemma writeInt32_in_range (m : Memory) (ptr v : Z) :
  0 <= ptr -> ptr + 4 <= mem_length m ->
  writeInt32ToMemory m ptr v = store_le32 m ptr v.
Proof.
  intros Hp Hlen. unfold writeInt32ToMemory.
  destruct (Z.ltb_spec ptr 0); [lia|].
  destruct (Z.geb_spec (ptr + 3) (mem_length m)); [lia|]. reflexivity.
Qed.

Lemma writeInt32_cases (m : Memory) (ptr v : Z) :
  writeInt32ToMemory m ptr v = m \/ writeInt32ToMemory m ptr v = store_le32 m ptr v.
Proof.
  unfold writeInt32ToMemory.
  destruct ((ptr <? 0) || (ptr + 3 >=? mem_length m)); [now left | now right].
Qed.

Lemma length_writeInt32 (m : Memory) (ptr v : Z) :
  mem_length (writeInt32ToMemory m ptr v) = mem_length m.
Proof.
  destruct (writeInt32_cases m ptr v) as [-> | ->]; [reflexivity | apply length_store_le32].
Qed.

(** X1.  A 32-bit value written at a pointer whose four bytes are inside
    the buffer is read back from that pointer, reduced modulo 2^32: the
    write keeps the low 32 bits and the read is unsigned. *)
Theorem writeInt32_then_readInt32 (memory : Memory) (ptr value : Z) :
  0 <= ptr -> ptr + 4 <= mem_length memory ->
  readInt32FromMemory (writeInt32ToMemory memory ptr value) ptr = value mod 2 ^ 32
  /\ readInt32FromMemory (writeValueToMemory memory ptr value) ptr = value mod 2 ^ 32.
Proof.
  intros Hp Hlen. unfold writeValueToMemory.
  rewrite writeInt32_in_range by assumption.
  split; now apply read_after_store.
Qed.

Lemma writeInt32_then_readInt32_witness :
  readInt32FromMemory (writeInt32ToMemory [9; 9; 9; 9; 9; 9] 1 (-2)) 1 = (-2) mod 2 ^ 32
  /\ readInt32FromMemory (writeValueToMemory [9; 9; 9; 9; 9; 9] 1 (-2)) 1 = (-2) mod 2 ^ 32.
Proof.
  apply (writeInt32_then_readInt32 [9; 9; 9; 9; 9; 9] 1 (-2)).
  - vm_compute. discriminate.
  - vm_compute. discriminate.
Defined.

(** X2.  [writeInt32ToMemory] never changes the length of the buffer,
    never touches a byte outside the four at its pointer, and so leaves
    every 32-bit word that does not overlap them as it was; this holds
    for every pointer, in range or not. *)
Theorem writeInt32_touches_four_bytes (memory : Memory) (ptr value : Z) :
  mem_length (writeInt32ToMemory memory ptr value) = mem_length memory
  /\ (forall j : Z, j < ptr \/ ptr + 4 <= j ->
        mem_get (writeInt32ToMemory memory ptr value) j = mem_get memory j)
  /\ (forall q : Z, q + 4 <= ptr \/ ptr + 4 <= q ->
        readInt32FromMemory (writeInt32ToMemory memory ptr value) q
        = readInt32FromMemory memory q).
Proof.
  split; [apply length_writeInt32|].
  destruct (writeInt32_cases memory ptr value) as [-> | ->].
  - now split.
  - split.
    + intros j Hj. now apply mem_get_store_le32_outside.
    + intros q Hq. now apply read_other_after_store.
Qed.

Lemma round_to_double_small (z : Z) : Z.abs z < 2 ^ 53 -> round_to_double z = z.
Proof.
  intros Hz. unfold round_to_double. cbv zeta.
  assert (Z.log2 (Z.abs z) - 52 <= 0) as He.
  { destruct (Z.eq_dec (Z.abs z) 0) as [->|Hnz]; [cbn; lia|].
    assert (Z.log2 (Z.abs z) < 53) by (apply Z.log2_lt_pow2; lia). lia. }
  destruct (Z.leb_spec (Z.log2 (Z.abs z) - 52) 0); [reflexivity | lia].
Qed.

Lemma Number_bits_small (z : Z) : Z.abs z < 2 ^ 53 -> Number_bits z = z.
Proof.
  intros Hz. unfold Number_bits, overflows. rewrite round_to_double_small by exact Hz.
  assert (2 ^ 53 < 2 ^ 1024) by (apply Z.pow_lt_mono_r; lia).
  destruct (Z.leb_spec (2 ^ 1024) (Z.abs z)); [lia | reflexivity].
Qed.

(** X3.  [writeInt64ToMemory] at a pointer whose eight bytes are inside
    the buffer stores the BigInt in little-endian two's complement, as
    long as its upper half [value >> 32n] is a safe integer (at most
    2^53 - 1 in absolute value), which [Number] then leaves as it is:
    the word at the pointer is the value modulo 2^32 and the word four
    bytes on is the next 32 bits, also for a negative value.  (An
    upper half beyond that is rounded to a double before it is
    written.) *)
Theorem writeInt64_stores_two_words (memory : Memory) (ptr value : Z) :
  0 <= ptr -> ptr + 8 <= mem_length memory ->
  Z.abs (Z.shiftr value 32) <= MAX_SAFE_INTEGER ->
  readInt32FromMemory (writeInt64ToMemory memory ptr value) ptr = value mod 2 ^ 32
  /\ readInt32FromMemory (writeInt64ToMemory memory ptr value) (ptr + 4)
     = (value / 2 ^ 32) mod 2 ^ 32.
Proof.
  intros Hp Hlen Hsafe. unfold writeInt64ToMemory.
  change 4294967295 with (Z.ones 32). rewrite Z.land_ones by lia.
  assert (0 <= value mod 2 ^ 32 < 2 ^ 32) as Hlow by (apply Z.mod_pos_bound; lia).
  rewrite (Number_bits_small (value mod 2 ^ 32)) by lia.
  rewrite (Number_bits_small (Z.shiftr value 32)) by (unfold MAX_SAFE_INTEGER in Hsafe; lia).
  rewrite (writeInt32_in_range memory ptr) by lia.
  rewrite (writeInt32_in_range _ (ptr + 4)) by (rewrite ?length_store_le32; lia).
  split.
  - rewrite read_other_after_store by lia.
    rewrite read_after_store by lia.
    apply Z.mod_mod. lia.
  - rewrite read_after_store by (rewrite ?length_store_le32; lia).
    now rewrite Z.shiftr_div_pow2 by lia.
Qed.

Lemma writeInt64_stores_two_words_witness :
  readInt32FromMemory (writeInt64ToMemory (replicate 12 7) 2 (-3)) 2 = (-3) mod 2 ^ 32
  /\ readInt32FromMemory (writeInt64ToMemory (replicate 12 7) 2 (-3)) (2 + 4)
     = ((-3) / 2 ^ 32) mod 2 ^ 32.
Proof.
  apply (writeInt64_stores_two_words (replicate 12 7) 2 (-3)).
  - vm_compute. discriminate.
  - vm_compute. discriminate.
  - vm_compute. discriminate.
Defined.

(** Beyond that range the upper half is rounded: 2^53 + 1 is not a
    double, [Number] gives 2^53 and the word written is 0, not 1; and
    2^53 + 3 goes up to 2^53 + 4. *)
Example writeInt64_rounds_upper_half :
  readInt32FromMemory (writeInt64ToMemory (replicate 8 7) 0 ((2 ^ 53 + 1) * 2 ^ 32)) 4 = 0
  /\ readInt32FromMemory (writeInt64ToMemory (replicate 8 7) 0 ((2 ^ 53 + 3) * 2 ^ 32)) 4 = 4
  /\ round_to_double (2 ^ 54 + 2) = 2 ^ 54
  /\ round_to_double (2 ^ 54 + 6) = 2 ^ 54 + 8
  /\ round_to_double (- (2 ^ 53 + 1)) = - 2 ^ 53
  /\ Number_bits (2 ^ 1024) = 0.
Proof. repeat split; vm_compute; reflexivity. Qed.

(** ** More on the reference table *)

Lemma strict_eq_sym (a b : value) : strict_eq a b = strict_eq b a.
Proof.
  destruct (strict_eq a b) eqn:E1, (strict_eq b a) eqn:E2; try reflexivity.
  - pose proof (strict_eq_true _ _ E1) as ->. congruence.
  - pose proof (strict_eq_true _ _ E2) as ->. congruence.
Qed.

Lemma scan_none (obj : value) (m : JsMap.t) :
  scan obj m = None -> forall i v, In (i, v) m -> strict_eq v obj = false.
Proof.
  unfold scan. destruct (List.find _ m) as [e|] eqn:E; [discriminate|].
  intros _ i v Hin. apply (List.find_none _ _ E (i, v) Hin).
Qed.

Lemma scan_after_set (obj : value) (m : JsMap.t) (id : Z) :
  scan obj m = None -> strict_eq obj obj = true ->
  scan obj (JsMap.set id obj m) = Some id.
Proof.
  intros Hnone Hrefl. unfold scan in *.
  induction m as [|[k v] m IH]; cbn [JsMap.set List.find snd].
  - now rewrite Hrefl.
  - cbn [List.find snd] in Hnone.
    destruct (strict_eq v obj) eqn:E; [discriminate|].
    destruct (k =? id); cbn [List.find snd].
    + now rewrite Hrefl.
    + rewrite E. now apply IH.
Qed.

Lemma in_set_fresh (m : JsMap.t) (id i : Z) (obj v : value) :
  ~ In id (JsMap.keys m) ->
  In (i, v) (JsMap.set id obj m) -> In (i, v) m \/ (i = id /\ v = obj).
Proof.
  intros Hfresh. rewrite JsMapFacts.set_fresh by exact Hfresh.
  rewrite in_app_iff. intros [H|[H|[]]]; [now left | right].
  now injection H as <- <-.
Qed.

(** X4.  Storing a value that is already stored changes nothing and
    returns the same id: two [storeObject] calls in a row on one value
    (other than NaN) give one id and one table entry. *)
Theorem storeObject_twice (obj : value) (s : Solver) :
  obj <> VNum NaN ->
  storeObject obj (snd (storeObject obj s)) = storeObject obj s.
Proof.
  intros Hnan. destruct (reserved obj) eqn:Hr.
  - assert (snd (storeObject obj s) = s) as E.
    { unfold storeObject.
      destruct obj as [| | |[]| | | |[]]; try discriminate Hr; reflexivity. }
    rewrite E. destruct (storeObject obj s) as [id s'] eqn:E'.
    cbn [snd] in E. now subst s'.
  - rewrite (storeObject_not_reserved obj s Hr).
    destruct (scan obj (objectRefs s)) as [id|] eqn:Hscan; cbn [snd].
    + rewrite (storeObject_not_reserved obj s Hr). now rewrite Hscan.
    + rewrite storeObject_not_reserved by exact Hr.
      cbn [objectRefs nextRefId set_table].
      rewrite (scan_after_set obj _ _ Hscan (strict_eq_refl obj Hnan)).
      reflexivity.
Qed.

Lemma storeObject_twice_witness :
  storeObject (VStr (lit "a")) (snd (storeObject (VStr (lit "a")) fresh_solver))
  = storeObject (VStr (lit "a")) fresh_solver.
Proof.
  apply (storeObject_twice (VStr (lit "a")) fresh_solver). discriminate.
Defined.

Lemma table_clean_new (w : World) : table_clean (new_solver w).
Proof.
  split; [apply table_ok_new | intros i j v w' [] | intros i v []].
Qed.

Lemma table_clean_store (obj : value) (s : Solver) :
  table_clean s -> table_clean (snd (storeObject obj s)).
Proof.
  intros [Hok Hd Hu]. split; [now apply table_ok_store| |].
  - destruct (reserved obj) eqn:Hr.
    + assert (snd (storeObject obj s) = s) as ->; [|exact Hd].
      unfold storeObject.
      destruct obj as [| | |[]| | | |[]]; try discriminate Hr; reflexivity.
    + rewrite storeObject_not_reserved by exact Hr.
      destruct (scan obj (objectRefs s)) as [id|] eqn:Hscan; cbn [snd]; [exact Hd|].
      assert (Hfresh : ~ In (nextRefId s) (JsMap.keys (objectRefs s))).
      { intros Hin. destruct Hok as [_ Hb _]. rewrite Forall_forall in Hb.
        apply list_elem_of_In, Hb in Hin. lia. }
      intros i j v w Hi Hj Heq. cbn [objectRefs set_table] in Hi, Hj.
      apply (in_set_fresh _ _ _ _ _ Hfresh) in Hi, Hj.
      destruct Hi as [Hi|[-> ->]], Hj as [Hj|[-> ->]].
      * now apply (Hd i j v w).
      * rewrite (scan_none obj _ Hscan i v Hi) in Heq. discriminate.
      * rewrite strict_eq_sym, (scan_none obj _ Hscan j w Hj) in Heq. discriminate.
      * reflexivity.
  - destruct (reserved obj) eqn:Hr.
    + assert (snd (storeObject obj s) = s) as ->; [|exact Hu].
      unfold storeObject.
      destruct obj as [| | |[]| | | |[]]; try discriminate Hr; reflexivity.
    + rewrite storeObject_not_reserved by exact Hr.
      destruct (scan obj (objectRefs s)) as [id|] eqn:Hscan; cbn [snd]; [exact Hu|].
      assert (Hfresh : ~ In (nextRefId s) (JsMap.keys (objectRefs s))).
      { intros Hin. destruct Hok as [_ Hb _]. rewrite Forall_forall in Hb.
        apply list_elem_of_In, Hb in Hin. lia. }
      intros i v Hi. cbn [objectRefs set_table] in Hi.
      apply (in_set_fresh _ _ _ _ _ Hfresh) in Hi.
      destruct Hi as [Hi|[-> ->]]; [now apply (Hu i v) | exact Hr].
Qed.

Lemma table_clean_same_table (s s' : Solver) :
  objectRefs s' = objectRefs s -> nextRefId s' = nextRefId s ->
  table_clean s -> table_clean s'.
Proof.
  intros E1 E2 [[H1 H2 H3] Hd Hu].
  split; [split|unfold no_duplicates|unfold no_reserved]; rewrite ?E1, ?E2; assumption.
Qed.

Lemma table_clean_invariant : bridge_invariant table_clean.
Proof.
  split.
  - intros m s. now apply table_clean_same_table.
  - intros w s. now apply table_clean_same_table.
  - intros obj s. apply table_clean_store.
  - intros p st s. apply table_clean_same_table;
      unfold settle, modify; cbn [snd];
      destruct (promises s !! p) as [[[| |] t]|]; reflexivity.
  - intros p s. apply table_clean_same_table;
      unfold clearTimeout, modify; cbn [snd];
      destruct (promises s !! p) as [[st t]|]; reflexivity.
Qed.

Lemma reachable_table_clean (host : Host) (guest : Guest) (s : Solver) :
  reachable host guest s -> table_clean s.
Proof.
  induction 1 as [w|m s _ IH|m s _ IH|e s _ IH|token s _ IH|token k s _ IH].
  - apply table_clean_new.
  - now apply (table_clean_same_table s).
  - now apply (table_clean_same_table s).
  - destruct e as [p arg|h|p]; cbn [run_event].
    + apply keeps_Solve; [apply table_clean_invariant | exact IH].
    + apply keeps_dispatch; [apply table_clean_invariant | exact IH].
    + apply keeps_fire_timer; [apply table_clean_invariant | exact IH].
  - destruct (wasmInstance s) eqn:Hready.
    + rewrite solveChallenge_begin_eq by exact Hready.
      now apply (table_clean_same_table s).
    + rewrite solveChallenge_begin_rejected by exact Hready.
      now apply (table_clean_same_table s).
  - now rewrite solveChallenge_resume_state.
Qed.

Lemma get_in (m : JsMap.t) (k : Z) (v : value) : JsMap.get k m = Some v -> In (k, v) m.
Proof.
  induction m as [|[k' v'] m IH]; cbn [JsMap.get]; [discriminate|].
  destruct (Z.eqb_spec k' k) as [->|Hne].
  - intros [= ->]. now left.
  - intros H. right. now apply IH.
Qed.

Lemma get_none_of_not_key (m : JsMap.t) (k : Z) :
  ~ In k (JsMap.keys m) -> JsMap.get k m = None.
Proof.
  induction m as [|[k' v'] m IH]; [reflexivity|].
  unfold JsMap.keys. simpl. intros Hn.
  destruct (Z.eqb_spec k' k) as [->|Hne]; [tauto|].
  apply IH. unfold JsMap.keys. tauto.
Qed.

(** X5.  In every state a session can reach, whatever the guest and the
    host do, the dynamic table holds no two ids whose values are [===],
    holds none of the reserved values, and has only ids from 6 up to
    [nextRefId]. *)
Theorem table_holds_each_value_once (host : Host) (guest : Guest) (s : Solver) :
  reachable host guest s ->
  (forall (i j : Z) (v w : value),
      JsMap.get i (objectRefs s) = Some v -> JsMap.get j (objectRefs s) = Some w ->
      strict_eq v w = true -> i = j)
  /\ (forall (i : Z) (v : value),
        JsMap.get i (objectRefs s) = Some v ->
        reserved v = false /\ 6 <= i < nextRefId s).
Proof.
  intros Hreach. destruct (reachable_table_clean host guest s Hreach) as [[Hge Hb Hnd] Hd Hu].
  split.
  - intros i j v w Hi Hj. apply (Hd i j v w); now apply get_in.
  - intros i v Hi. apply get_in in Hi. split; [now apply (Hu i v)|].
    rewrite Forall_forall in Hb. apply Hb, list_elem_of_In.
    change i with (fst (i, v)). now apply in_map.
Qed.

Lemma table_holds_each_value_once_witness :
  let s := run_event idle_host (GuestCall (H_stringVal 0)) fresh_solver in
  (forall (i j : Z) (v w : value),
      JsMap.get i (objectRefs s) = Some v -> JsMap.get j (objectRefs s) = Some w ->
      strict_eq v w = true -> i = j)
  /\ (forall (i : Z) (v : value),
        JsMap.get i (objectRefs s) = Some v ->
        reserved v = false /\ 6 <= i < nextRefId s).
Proof.
  apply (table_holds_each_value_once idle_host idle_guest).
  apply reach_event, reach_initialize, reach_new.
Defined.

Lemma held_invariant (id : Z) (v : value) :
  bridge_invariant (fun s => table_ok s /\ JsMap.get id (objectRefs s) = Some v).
Proof.
  split.
  - intros m s [[H1 H2 H3] Hg]. split; [now split | exact Hg].
  - intros w s [[H1 H2 H3] Hg]. split; [now split | exact Hg].
  - intros obj s [Hok Hg]. split; [now apply table_ok_store|].
    destruct (reserved obj) eqn:Hr.
    + assert (snd (storeObject obj s) = s) as ->; [|exact Hg].
      unfold storeObject.
      destruct obj as [| | |[]| | | |[]]; try discriminate Hr; reflexivity.
    + rewrite storeObject_not_reserved by exact Hr.
      destruct (scan obj (objectRefs s)); cbn [snd]; [exact Hg|].
      cbn [objectRefs set_table]. rewrite JsMapFacts.get_set_ne; [exact Hg|].
      destruct Hok as [_ Hb _]. rewrite Forall_forall in Hb.
      apply get_in in Hg.
      assert (elem_of id (JsMap.keys (objectRefs s))) as Hk
        by (apply list_elem_of_In; change id with (fst (id, v)); now apply in_map).
      apply Hb in Hk. lia.
  - intros p st s [[H1 H2 H3] Hg]. unfold settle, modify. cbn [snd].
    destruct (promises s !! p) as [[[| |] t]|]; (split; [now split | exact Hg]).
  - intros p s [[H1 H2 H3] Hg]. unfold clearTimeout, modify. cbn [snd].
    destruct (promises s !! p) as [[st t]|]; (split; [now split | exact Hg]).
Qed.

(** X6.  References are never reclaimed or rebound: an id that resolves
    to a stored value keeps resolving to that value after any sequence
    of host calls, callback invocations and timers. *)
Theorem references_persist
    (host : Host) (events : list event) (s : Solver) (id : Z) (v : value) :
  table_ok s -> JsMap.get id (objectRefs s) = Some v ->
  getObject id s = v /\ getObject id (run_events host events s) = v.
Proof.
  intros Hok Hg.
  assert (Hid : 6 <= id).
  { destruct Hok as [_ Hb _]. rewrite Forall_forall in Hb.
    assert (elem_of id (JsMap.keys (objectRefs s))) as Hk
      by (apply list_elem_of_In; change id with (fst (id, v));
          apply in_map; now apply get_in).
    apply Hb in Hk. lia. }
  split.
  - rewrite getObject_table by exact Hid. now rewrite Hg.
  - pose proof (keeps_run_events _ host events s (held_invariant id v) (conj Hok Hg))
      as [_ Hg'].
    rewrite getObject_table by exact Hid. now rewrite Hg'.
Qed.

Lemma table_ok_fresh_solver : table_ok fresh_solver.
Proof. split; cbn; [lia | constructor | constructor]. Qed.

Lemma references_persist_witness :
  let s := snd (storeObject (VStr (lit "canvas")) fresh_solver) in
  let events := [GuestCall (H_stringVal 0); GuestCall H_finalizeRef;
                 GuestCall (H_valueLength 8)] in
  getObject 6 s = VStr (lit "canvas")
  /\ getObject 6 (run_events idle_host events s) = VStr (lit "canvas").
Proof.
  apply (references_persist idle_host).
  - apply table_ok_store, table_ok_fresh_solver.
  - reflexivity.
Defined.

(** X7.  An id that was never handed out is not a fault: in a well
    formed table every id below 0 or from [nextRefId] on resolves to
    undefined. *)
Theorem unknown_id_is_undefined (s : Solver) (id : Z) :
  table_ok s -> id < 0 \/ nextRefId s <= id -> getObject id s = VUndefined.
Proof.
  intros [Hge Hb Hnd] Hid.
  assert (Hnk : ~ In id (JsMap.keys (objectRefs s))).
  { intros Hin. rewrite Forall_forall in Hb. apply list_elem_of_In, Hb in Hin. lia. }
  unfold getObject.
  repeat (match goal with |- context [?a =? ?b] =>
            destruct (Z.eqb_spec a b); [lia|] end).
  now rewrite get_none_of_not_key.
Qed.

Lemma unknown_id_is_undefined_witness :
  getObject 4294967295 (snd (storeObject (VStr (lit "a")) fresh_solver)) = VUndefined.
Proof.
  apply unknown_id_is_undefined.
  - apply table_ok_store, table_ok_fresh_solver.
  - right. vm_compute. discriminate.
Defined.

(** ** More on the synthesized strings *)

Lemma length_padStart0 (s : jsstring) (n : Z) :
  (length s <= Z.to_nat n)%nat -> length (padStart0 s n) = Z.to_nat n.
Proof.
  intros H. unfold padStart0. rewrite length_app, length_replicate. lia.
Qed.

Lemma padStart0_hex (s : jsstring) (n : Z) :
  forallb is_hex s = true -> forallb is_hex (padStart0 s n) = true.
Proof.
  intros H. unfold padStart0. rewrite forallb_app, H, andb_true_r.
  apply forallb_forall. intros x Hx.
  apply list_elem_of_In, elem_of_replicate in Hx as [-> _]. reflexivity.
Qed.

Lemma take_hex (s : jsstring) (n : nat) :
  forallb is_hex s = true -> forallb is_hex (take n s) = true.
Proof.
  intros H. apply forallb_forall. intros x Hx.
  rewrite forallb_forall in H. apply H.
  apply list_elem_of_In in Hx. apply list_elem_of_In.
  eapply subseteq_take. exact Hx.
Qed.

(** X8.  [generateHashSegment(input, n)] returns exactly [n] characters
    for every input and every [n] (none for a negative [n]), all of them
    lower-case hexadecimal digits, and touches no state: blocks shorter
    than needed are made up with leading zeros and longer ones are cut. *)
Theorem generateHashSegment_length (input : jsstring) (n : Z) (s : Solver) :
  exists h : jsstring,
    generateHashSegment input n s = (Ok h, s)
    /\ length h = Z.to_nat n
    /\ forallb is_hex h = true.
Proof.
  exists (hash_segment input n). split; [reflexivity|].
  unfold hash_segment. split.
  - apply length_padStart0. unfold substring0. rewrite length_take. lia.
  - apply padStart0_hex. unfold substring0. apply take_hex.
    now apply hash_blocks_hex.
Qed.

Lemma digits_fuel_length (fuel : nat) (n : Z) (k : nat) (acc : jsstring) :
  0 <= n < 16 ^ Z.of_nat (S k) ->
  (length (digits_fuel fuel 16 n acc) <= length acc + S k)%nat.
Proof.
  revert n k acc. induction fuel as [|fuel IH]; intros n k acc Hn; cbn [digits_fuel]; [lia|].
  destruct (Z.eqb_spec (n / 16) 0) as [E|E]; [cbn [length]; lia|].
  destruct k as [|k].
  - exfalso. apply E. apply Z.div_small. change (16 ^ Z.of_nat 1) with 16 in Hn. lia.
  - specialize (IH (n / 16) k
                  ((if n mod 16 <? 10 then 48 + n mod 16 else 87 + n mod 16) :: acc)).
    cbn [length] in IH.
    assert (0 <= n / 16 < 16 ^ Z.of_nat (S k)).
    { split; [apply Z.div_pos; lia|].
      apply Z.div_lt_upper_bound; [lia|].
      replace (Z.of_nat (S (S k))) with (Z.succ (Z.of_nat (S k))) in Hn by lia.
      rewrite Z.pow_succ_r in Hn by lia. lia. }
    specialize (IH H). lia.
Qed.

Lemma fallback_hash_range (token : jsstring) (hash : Z) :
  - 2 ^ 31 <= hash < 2 ^ 31 ->
  - 2 ^ 31 <= fold_left fallback_step token hash < 2 ^ 31.
Proof.
  revert hash. induction token as [|c token IH]; intros hash H; cbn [fold_left]; [exact H|].
  apply IH. unfold fallback_step, band. rewrite Z.land_diag. apply ToInt32_range.
Qed.

(** X9.  [generateFallbackSolution] returns exactly eight lower-case
    hexadecimal digits for every token: the hash is a 32-bit integer,
    so its absolute value has at most eight digits, and shorter values
    are padded with zeros. *)
Theorem generateFallbackSolution_length (token : jsstring) :
  length (generateFallbackSolution token) = 8%nat
  /\ forallb is_hex (generateFallbackSolution token) = true.
Proof.
  unfold generateFallbackSolution.
  pose proof (fallback_hash_range token 0 ltac:(lia)) as Hr.
  set (hash := fold_left fallback_step token 0) in *.
  assert (Hlen : (length (to_radix 16 (Z.abs hash)) <= 8)%nat).
  { unfold to_radix.
    pose proof (digits_fuel_length (S (Z.to_nat (Z.log2 (Z.abs hash)))) (Z.abs hash) 7 [])
      as H. cbn [length] in H. apply H.
    change (16 ^ Z.of_nat 8) with (2 ^ 32). lia. }
  split.
  - now apply (length_padStart0 _ 8).
  - apply padStart0_hex. unfold to_radix. now apply digits_fuel_hex.
Qed.

Lemma ToInt32_congr (a b : Z) : a mod 2 ^ 32 = b mod 2 ^ 32 -> ToInt32 a = ToInt32 b.
Proof.
  intros H. unfold ToInt32. f_equal.
  rewrite <- (Zplus_mod_idemp_l a), <- (Zplus_mod_idemp_l b). now rewrite H.
Qed.

Lemma ToInt32_offset (z : Z) : exists q : Z, ToInt32 z = z + q * 2 ^ 32.
Proof.
  exists (- ((z + 2 ^ 31) / 2 ^ 32)). unfold ToInt32.
  pose proof (Z.div_mod (z + 2 ^ 31) (2 ^ 32) ltac:(lia)). lia.
Qed.

Lemma fallback_step_poly (H c : Z) :
  fallback_step (ToInt32 H) c = ToInt32 (127 * H + c).
Proof.
  unfold fallback_step, band. rewrite Z.land_diag.
  apply ToInt32_congr. unfold shl.
  change (ToUint32 7 mod 32) with 7.
  rewrite (ToInt32_small (ToInt32 H)) by apply ToInt32_range.
  rewrite Z.shiftl_mul_pow2 by lia.
  destruct (ToInt32_offset H) as [q2 E2]. rewrite E2.
  destruct (ToInt32_offset ((H + q2 * 2 ^ 32) * 2 ^ 7)) as [q1 E1]. rewrite E1.
  replace ((H + q2 * 2 ^ 32) * 2 ^ 7 + q1 * 2 ^ 32 - (H + q2 * 2 ^ 32) + c)
    with (127 * H + c + (127 * q2 + q1) * 2 ^ 32) by lia.
  apply Z.mod_add. lia.
Qed.

Lemma fallback_fold_poly (token : jsstring) (H : Z) :
  fold_left fallback_step token (ToInt32 H) = ToInt32 (poly127 token H).
Proof.
  revert H. induction token as [|c token IH]; intros H; cbn [fold_left poly127]; [reflexivity|].
  rewrite fallback_step_poly. apply IH.
Qed.

(** X10.  The hash of [generateFallbackSolution] is the polynomial of
    the token's code units in base 127, reduced to a signed 32-bit
    integer: the shifts and the [&] of the loop lose nothing but the
    bits above 32.  The result is the absolute value of that, in
    hexadecimal. *)
Theorem generateFallbackSolution_is_poly127 (token : jsstring) :
  generateFallbackSolution token
  = padStart0 (to_radix 16 (Z.abs (ToInt32 (poly127 token 0)))) 8.
Proof.
  unfold generateFallbackSolution.
  change 0 with (ToInt32 0) at 1. now rewrite fallback_fold_poly.
Qed.

(** ** Reading a C string *)

Lemma mem_get_nonneg (memory : Memory) (at_ : Z) :
  0 <= at_ -> mem_get memory at_ = memory !! Z.to_nat at_.
Proof. intros H. unfold mem_get. destruct (Z.ltb_spec at_ 0); [lia | reflexivity]. Qed.

Lemma drop_cons_lookup (memory : Memory) (n : nat) (b : Z) (rest : list Z) :
  drop n memory = b :: rest -> memory !! n = Some b /\ drop (S n) memory = rest.
Proof.
  intros E. assert (Hb : memory !! n = Some b).
  { pose proof (lookup_drop memory n 0) as H. rewrite E, Nat.add_0_r in H.
    symmetry. exact H. }
  split; [exact Hb|]. rewrite (drop_S _ _ _ Hb) in E. now injection E.
Qed.

Lemma read_until_null_prefix (memory : Memory) (l : list Z) (at_ : Z) :
  0 <= at_ -> drop (Z.to_nat at_) memory = l ->
  read_until_null (length l) memory at_ = zero_free_prefix l.
Proof.
  revert at_. induction l as [|b rest IH]; intros at_ Hat E; [reflexivity|].
  cbn [length read_until_null zero_free_prefix].
  apply drop_cons_lookup in E as [Hb Hrest].
  rewrite mem_get_nonneg, Hb by exact Hat.
  destruct (b =? 0); [reflexivity|]. f_equal.
  apply IH; [lia|]. now replace (Z.to_nat (at_ + 1)) with (S (Z.to_nat at_)) by lia.
Qed.

Lemma zero_free_prefix_spec (l : list Z) :
  let r := zero_free_prefix l in
  r = take (length r) l
  /\ Forall (fun c => c <> 0) r
  /\ (l !! length r = None \/ l !! length r = Some 0).
Proof.
  cbv zeta. induction l as [|b rest (IH1 & IH2 & IH3)]; cbn [zero_free_prefix].
  - repeat split; [constructor | now left].
  - destruct (Z.eqb_spec b 0) as [->|Hb].
    + repeat split; [constructor | now right].
    + cbn [length take lookup list_lookup]. repeat split.
      * now rewrite <- IH1.
      * now constructor.
      * exact IH3.
Qed.

Lemma readNullTerminatedString_eq (memory : Memory) (ptr : Z) :
  0 <= ptr ->
  readNullTerminatedString memory ptr = zero_free_prefix (drop (Z.to_nat ptr) memory).
Proof.
  intros Hp. unfold readNullTerminatedString.
  replace (Z.to_nat (mem_length memory - ptr))
    with (length (drop (Z.to_nat ptr) memory))
    by (rewrite length_drop; unfold mem_length; lia).
  now apply read_until_null_prefix.
Qed.

(** X11.  For a pointer that is not negative, [readNullTerminatedString]
    returns the bytes of the memory from the pointer up to the first 0
    byte or the end of the memory, whichever comes first: the result has
    no 0 in it, is what the memory holds there, and is followed by a 0
    or by nothing.  A pointer at or past the end gives the empty
    string. *)
Theorem readNullTerminatedString_spec (memory : Memory) (ptr : Z) :
  0 <= ptr ->
  let r := readNullTerminatedString memory ptr in
  r = take (length r) (drop (Z.to_nat ptr) memory)
  /\ Forall (fun c => c <> 0) r
  /\ (mem_get memory (ptr + Z.of_nat (length r)) = None
      \/ mem_get memory (ptr + Z.of_nat (length r)) = Some 0)
  /\ (mem_length memory <= ptr -> r = []).
Proof.
  intros Hp. cbv zeta. rewrite readNullTerminatedString_eq by exact Hp.
  destruct (zero_free_prefix_spec (drop (Z.to_nat ptr) memory)) as (H1 & H2 & H3).
  split; [exact H1|]. split; [exact H2|]. split.
  - rewrite mem_get_nonneg by lia. rewrite lookup_drop in H3.
    now replace (Z.to_nat (ptr + Z.of_nat (length (zero_free_prefix (drop (Z.to_nat ptr) memory)))))
      with (Z.to_nat ptr + length (zero_free_prefix (drop (Z.to_nat ptr) memory)))%nat by lia.
  - intros Hend. rewrite drop_ge by (unfold mem_length in Hend; lia). reflexivity.
Qed.

Lemma readNullTerminatedString_spec_witness :
  let r := readNullTerminatedString [7; 104; 105; 0; 9] 1 in
  r = take (length r) (drop (Z.to_nat 1) [7; 104; 105; 0; 9])
  /\ Forall (fun c => c <> 0) r
  /\ (mem_get [7; 104; 105; 0; 9] (1 + Z.of_nat (length r)) = None
      \/ mem_get [7; 104; 105; 0; 9] (1 + Z.of_nat (length r)) = Some 0)
  /\ (mem_length [7; 104; 105; 0; 9] <= 1 -> r = []).
Proof.
  apply (readNullTerminatedString_spec [7; 104; 105; 0; 9] 1).
  vm_compute. discriminate.
Defined.

Lemma read_until_null_before (memory : Memory) (k : nat) (fuel : nat) :
  read_until_null (k + fuel) memory (- Z.of_nat k)
  = replicate k 0 ++ read_until_null fuel memory 0.
Proof.
  induction k as [|k IH]; [reflexivity|].
  cbn [Nat.add read_until_null replicate app].
  assert (mem_get memory (- Z.of_nat (S k)) = None) as ->.
  { unfold mem_get. destruct (Z.ltb_spec (- Z.of_nat (S k)) 0); [reflexivity | lia]. }
  f_equal. replace (- Z.of_nat (S k) + 1) with (- Z.of_nat k) by lia. exact IH.
Qed.

(** X12.  For a negative pointer [readNullTerminatedString] does not
    stop or fail: every index before the buffer contributes a NUL
    character, and the string at offset 0 follows. *)
Theorem readNullTerminatedString_negative (memory : Memory) (ptr : Z) :
  ptr < 0 ->
  readNullTerminatedString memory ptr
  = replicate (Z.to_nat (- ptr)) 0 ++ readNullTerminatedString memory 0.
Proof.
  intros Hp. unfold readNullTerminatedString.
  replace (Z.to_nat (mem_length memory - ptr))
    with (Z.to_nat (- ptr) + Z.to_nat (mem_length memory - 0))%nat
    by (unfold mem_length; lia).
  replace ptr with (- Z.of_nat (Z.to_nat (- ptr))) at 2 by lia.
  apply read_until_null_before.
Qed.

Lemma readNullTerminatedString_negative_witness :
  readNullTerminatedString [104; 105; 0] (-2)
  = replicate (Z.to_nat (- -2)) 0 ++ readNullTerminatedString [104; 105; 0] 0.
Proof.
  apply (readNullTerminatedString_negative [104; 105; 0] (-2)). reflexivity.
Defined.

(** ** The system calls *)

Lemma fd_write_loop_spec (memory : Memory) (fd iovs_ptr : Z) (n k : nat)
    (written : Z) (out : list (Z * jsstring)) :
  fd_write_loop n memory fd iovs_ptr (Z.of_nat k) (written, out)
  = (written
     + sum (List.filter (fun len => len >? 0)
              (List.map (fun i => iovec_field memory (iovs_ptr + Z.of_nat i * 8 + 4))
                 (seq k n))),
     out ++ (if (fd =? 1) || (fd =? 2) then
               List.map (pair fd)
                 (List.map
                    (fun i => let ptr := iovec_field memory (iovs_ptr + Z.of_nat i * 8) in
                              let len := iovec_field memory (iovs_ptr + Z.of_nat i * 8 + 4) in
                              Utf8.decode (mem_slice memory ptr (ptr + len)))
                    (List.filter
                       (fun i => iovec_field memory (iovs_ptr + Z.of_nat i * 8 + 4) >? 0)
                       (seq k n)))
             else [])).
Proof.
  revert k written out. induction n as [|n IH]; intros k written out.
  - cbn [fd_write_loop seq List.map List.filter sum fold_right].
    rewrite Z.add_0_r. destruct ((fd =? 1) || (fd =? 2)); now rewrite app_nil_r.
  - cbn [fd_write_loop seq List.map List.filter].
    replace (Z.of_nat k + 1) with (Z.of_nat (S k)) by lia.
    unfold fd_write_step.
    destruct (iovec_field memory (iovs_ptr + Z.of_nat k * 8 + 4) >? 0) eqn:E.
    + rewrite IH. cbn [sum fold_right List.map]. f_equal; [unfold sum; lia|].
      destruct ((fd =? 1) || (fd =? 2)); cbn [List.map]; [|reflexivity].
      now rewrite <- app_assoc.
    + now rewrite IH.
Qed.

(** X13.  [fd_write] with an instance and a result slot inside the
    buffer returns 0, hands the decoded text of every vector of
    positive length, in order, to the stream when it is 1 or 2 and to
    nothing otherwise, and stores in the slot the sum of those lengths
    modulo 2^32 whatever the descriptor is; no byte outside the slot
    changes.  A vector whose length field has its top bit set counts as
    negative and is skipped.  (The sum is below 2^53, where the
    additions of the source are exact.) *)
Theorem fd_write_counts_and_forwards (fd iovs_ptr iovs_len nwritten_ptr : Z) (s : Solver) :
  wasmInstance s = true ->
  0 <= nwritten_ptr -> nwritten_ptr + 4 <= mem_length (memory s) ->
  sum (iovec_lengths (memory s) iovs_ptr (Z.to_nat iovs_len)) < 2 ^ 53 ->
  let n := Z.to_nat iovs_len in
  let r := fd_write fd iovs_ptr iovs_len nwritten_ptr s in
  fst (fst r) = 0
  /\ snd (fst r) = (if (fd =? 1) || (fd =? 2)
                    then List.map (pair fd) (iovec_texts (memory s) iovs_ptr n)
                    else [])
  /\ readInt32FromMemory (memory (snd r)) nwritten_ptr
     = sum (iovec_lengths (memory s) iovs_ptr n) mod 2 ^ 32
  /\ (forall j : Z, j < nwritten_ptr \/ nwritten_ptr + 4 <= j ->
        mem_get (memory (snd r)) j = mem_get (memory s) j).
Proof.
  intros Hready Hp Hlen _. cbv zeta. unfold fd_write. rewrite Hready. cbn [negb].
  pose proof (fd_write_loop_spec (memory s) fd iovs_ptr (Z.to_nat iovs_len) 0 0 [])
    as Hloop.
  change (Z.of_nat 0) with 0 in Hloop. rewrite Hloop. clear Hloop.
  cbn [fst snd app]. rewrite Z.add_0_l.
  fold (iovec_lengths (memory s) iovs_ptr (Z.to_nat iovs_len)).
  fold (iovec_texts (memory s) iovs_ptr (Z.to_nat iovs_len)).
  set (written := sum (iovec_lengths (memory s) iovs_ptr (Z.to_nat iovs_len))).
  change (memory (set_memory ?m s)) with m.
  split; [reflexivity|]. split; [reflexivity|].
  change (mem_set (mem_set (mem_set (mem_set (memory s) nwritten_ptr (band written 255))
            (nwritten_ptr + 1) (band (sar written 8) 255))
            (nwritten_ptr + 2) (band (sar written 16) 255))
            (nwritten_ptr + 3) (band (sar written 24) 255))
    with (store_le32 (memory s) nwritten_ptr written).
  split.
  - now apply read_after_store.
  - intros j Hj. now apply mem_get_store_le32_outside.
Qed.

Lemma fd_write_counts_and_forwards_witness :
  let s := set_memory ([8; 0; 0; 0; 2; 0; 0; 0; 104; 105] ++ replicate 6 0) fresh_solver in
  let r := fd_write 1 0 1 12 s in
  fst (fst r) = 0
  /\ snd (fst r) = (if (1 =? 1) || (1 =? 2)
                    then List.map (pair 1) (iovec_texts (memory s) 0 (Z.to_nat 1))
                    else [])
  /\ readInt32FromMemory (memory (snd r)) 12
     = sum (iovec_lengths (memory s) 0 (Z.to_nat 1)) mod 2 ^ 32
  /\ (forall j : Z, j < 12 \/ 12 + 4 <= j ->
        mem_get (memory (snd r)) j = mem_get (memory s) j).
Proof.
  intros s.
  apply (fd_write_counts_and_forwards 1 0 1 12 s).
  - reflexivity.
  - lia.
  - vm_compute. discriminate.
  - vm_compute. reflexivity.
Defined.

(** Overwriting a stretch of a list. *)
Lemma splice_spec (m L : list Z) (K n : nat) :
  length L = n -> (K + n <= length m)%nat ->
  length (take K m ++ L ++ drop (K + n) m) = length m
  /\ (forall j : nat, (j < K \/ K + n <= j)%nat ->
        (take K m ++ L ++ drop (K + n) m) !! j = m !! j)
  /\ (forall i : nat, (i < n)%nat ->
        (take K m ++ L ++ drop (K + n) m) !! (K + i)%nat = L !! i).
Proof.
  intros HL Hfit.
  assert (length (take K m) = K) as HK by (rewrite length_take; lia).
  split; [|split].
  - rewrite !length_app, HK, length_drop. lia.
  - intros j [Hj|Hj].
    + rewrite lookup_app_l by lia. now apply lookup_take_lt.
    + rewrite lookup_app_r by lia. rewrite lookup_app_r by lia.
      rewrite lookup_drop, HK. f_equal. lia.
  - intros i Hi.
    rewrite lookup_app_r by lia. rewrite HK.
    replace (K + i - K)%nat with i by lia.
    apply lookup_app_l. lia.
Qed.

Lemma clamp_index_range (len i : Z) : 0 <= len -> 0 <= clamp_index len i <= len.
Proof. intros H. unfold clamp_index. destruct (i <? 0) eqn:E; lia. Qed.

Lemma lookup_map_seq_lt {A} (f : nat -> A) (n i : nat) :
  (i < n)%nat -> List.map f (seq 0 n) !! i = Some (f i).
Proof.
  intros Hi.
  destruct (List.map f (seq 0 n) !! i) as [a|] eqn:E.
  - apply lookup_map_seq in E. now subst a.
  - apply lookup_ge_None in E. rewrite length_map, length_seq in E. lia.
Qed.

(** X14.  [random_get] with an instance never resizes the memory and
    never writes outside the view [subarray(bufPtr, bufPtr + bufLen)],
    whose bounds are clamped to the buffer (and counted from its end
    when negative): when the platform fills the view, the call returns
    0 and the bytes of the view are the platform's; when it refuses,
    the call throws and the memory is as before. *)
Theorem random_get_frame (entropy : Entropy) (bufPtr bufLen : Z) (s : Solver) :
  wasmInstance s = true ->
  let len := mem_length (memory s) in
  let k := clamp_index len bufPtr in
  let final := clamp_index len (bufPtr + bufLen) in
  let r := random_get entropy bufPtr bufLen s in
  mem_length (memory (snd r)) = len
  /\ (forall j : Z, j < k \/ final <= j ->
        mem_get (memory (snd r)) j = mem_get (memory s) j)
  /\ (forall byte : nat -> Z, entropy (Z.to_nat (final - k)) = Some byte ->
        fst r = Ok 0
        /\ forall j : Z, k <= j < final ->
             mem_get (memory (snd r)) j = Some (byte (Z.to_nat (j - k)) mod 256))
  /\ (entropy (Z.to_nat (final - k)) = None ->
        memory (snd r) = memory s /\ exists e : value, fst r = Throw e).
Proof.
  intros Hready. cbv zeta.
  assert (0 <= mem_length (memory s)) as Hlen by (unfold mem_length; lia).
  pose proof (clamp_index_range (mem_length (memory s)) bufPtr Hlen) as Hk.
  pose proof (clamp_index_range (mem_length (memory s)) (bufPtr + bufLen) Hlen) as Hf.
  set (k := clamp_index (mem_length (memory s)) bufPtr) in *.
  set (final := clamp_index (mem_length (memory s)) (bufPtr + bufLen)) in *.
  unfold random_get, memory_length, bind, gets. rewrite Hready. cbn [negb].
  fold k final.
  destruct (entropy (Z.to_nat (final - k))) as [byte|] eqn:E.
  - unfold modify, ret. cbn [fst snd]. change (memory (set_memory ?m s)) with m.
    set (L := List.map (fun i : nat => byte i mod 256) (seq 0 (Z.to_nat (final - k)))).
    assert (length L = Z.to_nat (final - k)) as HL
      by (subst L; now rewrite length_map, length_seq).
    assert (Z.to_nat k + Z.to_nat (final - k) <= length (memory s))%nat as Hfit
      by (unfold mem_length in *; lia).
    destruct (splice_spec (memory s) L (Z.to_nat k) _ HL Hfit) as (H1 & H2 & H3).
    split; [unfold mem_length; now rewrite H1|].
    split; [|split; [|discriminate]].
    + intros j Hj. unfold mem_get. destruct (j <? 0) eqn:Ej; [reflexivity|].
      apply H2. lia.
    + intros byte' [= <-]. split; [reflexivity|].
      intros j Hj. unfold mem_get. destruct (j <? 0) eqn:Ej; [lia|].
      replace (Z.to_nat j) with (Z.to_nat k + Z.to_nat (j - k))%nat by lia.
      rewrite H3 by lia. subst L.
      apply (lookup_map_seq_lt (fun i : nat => byte i mod 256)). lia.
  - unfold throw_error, new_error, bind, throw. cbn [fst snd].
    change (memory (set_world ?w s)) with (memory s).
    split; [reflexivity|]. split; [reflexivity|].
    split; [discriminate|]. intros _. split; [reflexivity|]. now eexists.
Qed.

Lemma random_get_frame_witness :
  let s := fresh_solver in
  let len := mem_length (memory s) in
  let k := clamp_index len 60 in
  let final := clamp_index len (60 + 8) in
  let r := random_get (fun _ => Some (fun i => 300 + Z.of_nat i)) 60 8 s in
  mem_length (memory (snd r)) = len
  /\ (forall j : Z, j < k \/ final <= j ->
        mem_get (memory (snd r)) j = mem_get (memory s) j)
  /\ (forall byte : nat -> Z,
        (fun _ : nat => Some (fun i => 300 + Z.of_nat i)) (Z.to_nat (final - k)) = Some byte ->
        fst r = Ok 0
        /\ forall j : Z, k <= j < final ->
             mem_get (memory (snd r)) j = Some (byte (Z.to_nat (j - k)) mod 256))
  /\ ((fun _ : nat => Some (fun i => 300 + Z.of_nat i)) (Z.to_nat (final - k)) = None ->
        memory (snd r) = memory s /\ exists e : value, fst r = Throw e).
Proof.
  apply (random_get_frame (fun _ => Some (fun i => 300 + Z.of_nat i)) 60 8 fresh_solver).
  reflexivity.
Defined.

(** ** Searching the memory for a solution *)

Lemma continuation_value (cp b : Z) :
  128 <= b <= 191 -> Z.lor (Z.shiftl cp 6) (Z.land b 63) = cp * 64 + (b - 128).
Proof.
  intros Hb. change 63 with (Z.ones 6).
  rewrite Z.land_ones by lia. rewrite Z.shiftl_mul_pow2 by lia.
  rewrite Z.lor_comm. rewrite lor_low_disjoint; [|lia|apply Z.mod_pos_bound; lia].
  change (2 ^ 6) with 64.
  rewrite <- (Z.mod_unique_pos b 64 2 (b - 128)); lia.
Qed.

Lemma lead_bits (b k base : Z) :
  0 <= k -> base mod 2 ^ k = 0 -> base <= b < base + 2 ^ k ->
  Z.land b (Z.ones k) = b - base.
Proof.
  intros Hk Hbase Hb. rewrite Z.land_ones by lia.
  apply Z.mod_divide in Hbase as [q Hq]; [|lia].
  symmetry. apply (Z.mod_unique_pos b (2 ^ k) q (b - base)); lia.
Qed.

Lemma utf16_large (c : Z) : 128 <= c -> Exists (fun u => 128 <= u) (Utf8.utf16 c).
Proof.
  intros Hc. unfold Utf8.utf16. destruct (c <? 65536) eqn:E.
  - now constructor.
  - constructor. pose proof (Z.shiftr_nonneg (c - 65536) 10). lia.
Qed.

(** Inside a sequence the decoder goes on to a code unit of 128 or
    more, whatever follows. *)
Lemma open_sequence_emits (bytes : list Z) (st : Utf8.dstate) :
  open_sequence st ->
  Exists (fun u => 128 <= u)
    (concat (List.map Utf8.utf16 (Utf8.decode_points st bytes))).
Proof.
  revert st. induction bytes as [|b rest IH]; intros st (Hn & Hlo & Hhi & Hq & Hlast).
  - cbn [Utf8.decode_points]. destruct (Utf8.bytes_needed st =? 0) eqn:E; [lia|].
    now constructor.
  - cbn [Utf8.decode_points]. unfold Utf8.dstep.
    destruct (Utf8.bytes_needed st =? 0) eqn:E; [lia|]. clear E.
    destruct (Utf8.in_range (Utf8.lower_boundary st) (Utf8.upper_boundary st) b) eqn:R;
      cbn [negb].
    + unfold Utf8.in_range in R. apply andb_true_iff in R as [R1 R2].
      apply Z.leb_le in R1, R2.
      rewrite continuation_value by lia.
      destruct (Utf8.bytes_seen st + 1 =? Utf8.bytes_needed st) eqn:S.
      * apply Z.eqb_eq in S. specialize (Hlast S).
        cbn [List.map concat]. apply Exists_app. left. apply utf16_large. lia.
      * apply Z.eqb_neq in S. cbn [app]. apply IH.
        unfold open_sequence.
        cbn [Utf8.code_point Utf8.bytes_seen Utf8.bytes_needed
             Utf8.lower_boundary Utf8.upper_boundary].
        repeat split; lia.
    + destruct (Utf8.lead b) as [st' out]. cbn [app List.map concat].
      apply Exists_app. left. now constructor.
Qed.

Lemma Forall_Exists_clash (l : list Z) :
  Forall (fun u => u < 128) l -> Exists (fun u => 128 <= u) l -> False.
Proof.
  intros HF HE. induction HE as [x l Hx|x l _ IH].
  - apply Forall_cons in HF as [Hlt _]. lia.
  - apply Forall_cons in HF as [_ HF]. now apply IH.
Qed.

(** A text of code units below 128 comes from the same bytes. *)
Lemma decode_points_ascii_only (bytes : list Z) :
  Forall (fun u => u < 128)
    (concat (List.map Utf8.utf16 (Utf8.decode_points Utf8.dinit bytes))) ->
  Forall (fun b => 0 <= b <= 127) bytes.
Proof.
  induction bytes as [|b rest IH]; intros H; [constructor|].
  cbn [Utf8.decode_points] in H. unfold Utf8.dstep in H.
  change (Utf8.bytes_needed Utf8.dinit =? 0) with true in H. cbv iota in H.
  unfold Utf8.lead in H.
  destruct (Utf8.in_range 0 127 b) eqn:R0.
  { cbn [app List.map concat] in H. apply Forall_app in H as [_ H].
    unfold Utf8.in_range in R0. apply andb_true_iff in R0 as [R1 R2].
    apply Z.leb_le in R1, R2. constructor; [lia | now apply IH]. }
  exfalso. revert H.
  assert (forall st, open_sequence st ->
            Forall (fun u => u < 128)
              (concat (List.map Utf8.utf16 ([] ++ Utf8.decode_points st rest))) -> False)
    as Hopen.
  { intros st Hst H. cbn [app] in H.
    exact (Forall_Exists_clash _ H (open_sequence_emits rest st Hst)). }
  destruct (Utf8.in_range 194 223 b) eqn:R1.
  { apply Hopen. unfold Utf8.in_range in R1. apply andb_true_iff in R1 as [Ra Rb].
    apply Z.leb_le in Ra, Rb. unfold open_sequence.
    cbn [Utf8.code_point Utf8.bytes_seen Utf8.bytes_needed
         Utf8.lower_boundary Utf8.upper_boundary].
    change 31 with (Z.ones 5). rewrite (lead_bits b 5 192) by (try reflexivity; simpl; lia).
    repeat split; lia. }
  destruct (Utf8.in_range 224 239 b) eqn:R2.
  { apply Hopen. unfold Utf8.in_range in R2. apply andb_true_iff in R2 as [Ra Rb].
    apply Z.leb_le in Ra, Rb. unfold open_sequence.
    cbn [Utf8.code_point Utf8.bytes_seen Utf8.bytes_needed
         Utf8.lower_boundary Utf8.upper_boundary].
    change 15 with (Z.ones 4). rewrite (lead_bits b 4 224) by (try reflexivity; simpl; lia).
    destruct (Z.eqb_spec b 224); destruct (Z.eqb_spec b 237); repeat split; lia. }
  destruct (Utf8.in_range 240 244 b) eqn:R3.
  { apply Hopen. unfold Utf8.in_range in R3. apply andb_true_iff in R3 as [Ra Rb].
    apply Z.leb_le in Ra, Rb. unfold open_sequence.
    cbn [Utf8.code_point Utf8.bytes_seen Utf8.bytes_needed
         Utf8.lower_boundary Utf8.upper_boundary].
    change 7 with (Z.ones 3). rewrite (lead_bits b 3 240) by (try reflexivity; simpl; lia).
    destruct (Z.eqb_spec b 240); destruct (Z.eqb_spec b 244); repeat split; lia. }
  intros H. cbn [app List.map concat] in H. apply Forall_app in H as [H _].
  apply Forall_cons in H as [H _]. vm_compute in H. discriminate H.
Qed.

Lemma decode_points_ascii (bytes : list Z) :
  Forall (fun b => 0 <= b <= 127) bytes ->
  concat (List.map Utf8.utf16 (Utf8.decode_points Utf8.dinit bytes)) = bytes.
Proof.
  induction 1 as [|b rest Hb _ IH]; [reflexivity|].
  cbn [Utf8.decode_points]. unfold Utf8.dstep.
  change (Utf8.bytes_needed Utf8.dinit =? 0) with true. cbv iota.
  unfold Utf8.lead, Utf8.in_range.
  replace ((0 <=? b) && (b <=? 127)) with true by (symmetry; apply andb_true_iff; lia).
  cbn [app List.map concat]. rewrite IH. unfold Utf8.utf16.
  replace (b <? 65536) with true by (symmetry; apply Z.ltb_lt; lia).
  reflexivity.
Qed.

Lemma strip_bom_other (b : Z) (rest : list Z) :
  b <> 239 -> Utf8.strip_bom (b :: rest) = b :: rest.
Proof.
  intros Hb. unfold Utf8.strip_bom.
  destruct b as [|p|p]; try reflexivity.
  repeat (destruct p as [p|p|]; try reflexivity).
  now contradict Hb.
Qed.

(** The candidate read at an offset: the bytes up to the first 0, at
    most [fuel] of them. *)
Lemma candidate_spec (fuel : nat) (l : list Z) :
  candidate fuel l = take (length (candidate fuel l)) l
  /\ Forall (fun b => b <> 0) (candidate fuel l)
  /\ (length (candidate fuel l) <= fuel)%nat
  /\ ((length (candidate fuel l) < fuel)%nat ->
      l !! length (candidate fuel l) = None \/ l !! length (candidate fuel l) = Some 0).
Proof.
  revert l. induction fuel as [|fuel IH]; intros l.
  - cbn. repeat split; [constructor | lia | lia].
  - destruct l as [|b rest]; cbn [candidate].
    + cbn. repeat split; [constructor | lia | now left].
    + destruct (b =? 0) eqn:E.
      * apply Z.eqb_eq in E. subst b. cbn.
        repeat split; [constructor | lia | now right].
      * apply Z.eqb_neq in E. destruct (IH rest) as (H1 & H2 & H3 & H4).
        cbn [length take lookup list_lookup]. repeat split.
        -- now rewrite <- H1.
        -- now constructor.
        -- lia.
        -- intros Hlt. apply H4. lia.
Qed.

Lemma candidate_exact (fuel k : nat) (l : list Z) :
  (k < fuel)%nat -> Forall (fun b => b <> 0) (take k l) -> l !! k = Some 0 ->
  candidate fuel l = take k l.
Proof.
  revert k l. induction fuel as [|fuel IH]; intros k l Hk Hnz Hz; [lia|].
  destruct l as [|b rest]; [discriminate Hz|].
  destruct k as [|k].
  - cbn in Hz. injection Hz as ->. reflexivity.
  - cbn [take] in Hnz. apply Forall_cons in Hnz as [Hb Hnz].
    cbn [candidate]. destruct (b =? 0) eqn:E; [apply Z.eqb_eq in E; contradiction|].
    cbn [take]. f_equal. apply IH; [lia | exact Hnz | exact Hz].
Qed.

Lemma alnum_range (c : Z) : is_alnum c = true -> 48 <= c <= 122.
Proof.
  unfold is_alnum, Utf8.in_range.
  rewrite !orb_true_iff, !andb_true_iff, !Z.leb_le. lia.
Qed.

Lemma grammar_ascii (s : jsstring) :
  solution_grammar s = true ->
  length s = 54%nat /\ Forall (fun c => 1 <= c <= 127) s
  /\ take 4 s = [49; 46; 48; 59].
Proof.
  intros H. apply solution_grammar_spec in H
    as (a & b & c & -> & La & Lb & Lc & Aa & Ab & Ac).
  assert (forall x, forallb is_alnum x = true -> Forall (fun c => 1 <= c <= 127) x) as Hal.
  { intros x Hx. apply List.Forall_forall. intros u Hu.
    rewrite forallb_forall in Hx.
    specialize (Hx u Hu). apply alnum_range in Hx. lia. }
  split; [|split].
  - rewrite !length_app, La, Lb, Lc. reflexivity.
  - repeat apply Forall_app_2; auto;
      repeat (constructor; [vm_compute; split; discriminate|]); constructor.
  - reflexivity.
Qed.

(** What the test at one offset of the search amounts to. *)
Lemma found_spec (memory : Memory) (i : nat) (solution : jsstring) :
  (i + 54 < length memory)%nat ->
  (if bool_decide (take 4 (drop i memory) = [49; 46; 48; 59]) then
     if solution_grammar (Utf8.decode (candidate 100 (drop i memory)))
     then Some (Utf8.decode (candidate 100 (drop i memory))) else None
   else None) = Some solution
  <-> solution_at memory i solution.
Proof.
  intros Hi. set (l := drop i memory).
  assert (l !! 54%nat = memory !! (i + 54)%nat) as Hl54 by apply lookup_drop.
  unfold solution_at. fold l. rewrite <- Hl54.
  split.
  - destruct (candidate_spec 100 l) as (Hc1 & Hc2 & Hc3 & Hc4).
    remember (candidate 100 l) as c eqn:Hcand.
    destruct (bool_decide_reflect (take 4 l = [49; 46; 48; 59])) as [H4|]; [|discriminate].
    destruct (solution_grammar (Utf8.decode c)) eqn:G; [|discriminate].
    intros [= <-].
    destruct (grammar_ascii _ G) as (Hlen & Hascii & _).
    assert (Utf8.strip_bom c = c) as Hbom.
    { destruct c as [|b rest]; [reflexivity|].
      apply strip_bom_other.
      destruct l as [|b' rest']; [discriminate H4|].
      cbn [length take] in Hc1. injection Hc1 as -> _.
      cbn [take] in H4. injection H4 as -> _. discriminate. }
    unfold Utf8.decode in Hascii, Hlen, G |- *. rewrite Hbom in *.
    assert (Forall (fun b => 0 <= b <= 127) c) as Hbytes.
    { apply decode_points_ascii_only.
      eapply Forall_impl; [exact Hascii|]. cbn. intros; lia. }
    rewrite (decode_points_ascii c Hbytes) in *.
    rewrite Hlen in Hc1, Hc4.
    split; [now symmetry|]. split; [exact G|].
    destruct Hc4 as [Hnone|Hzero]; [lia| |exact Hzero].
    apply lookup_ge_None in Hnone. subst l. rewrite length_drop in Hnone. lia.
  - intros (Htake & G & Hz).
    destruct (grammar_ascii _ G) as (Hlen & Hascii & H4).
    assert (candidate 100 l = solution) as Hc.
    { rewrite <- Htake. apply candidate_exact; [lia| |exact Hz].
      rewrite Htake. eapply Forall_impl; [exact Hascii|]. cbn. intros; lia. }
    rewrite Hc.
    assert (Utf8.decode solution = solution) as Hd.
    { unfold Utf8.decode.
      assert (Utf8.strip_bom solution = solution) as ->.
      { destruct solution as [|b rest]; [reflexivity|].
        apply strip_bom_other. cbn [take] in H4. injection H4 as -> _. discriminate. }
      apply decode_points_ascii.
      eapply Forall_impl; [exact Hascii|]. cbn. intros; lia. }
    rewrite Hd, G.
    assert (take 4 l = [49; 46; 48; 59]) as H4l.
    { rewrite <- H4, <- Htake. rewrite take_take. reflexivity. }
    destruct (bool_decide_reflect (take 4 l = [49; 46; 48; 59])); [reflexivity|contradiction].
Qed.

Lemma solution_at_unique (memory : Memory) (i : nat) (a b : jsstring) :
  solution_at memory i a -> solution_at memory i b -> a = b.
Proof. intros (<- & _) (<- & _). reflexivity. Qed.

Lemma search_from_spec (n i : nat) (memory : Memory) (solution : jsstring) :
  (0 < n -> i + n + 54 <= length memory)%nat ->
  search_from n i memory = Some solution
  <-> exists j : nat,
        (i <= j < i + n)%nat /\ solution_at memory j solution
        /\ forall (j' : nat) (other : jsstring),
             (i <= j' < j)%nat -> ~ solution_at memory j' other.
Proof.
  revert i. induction n as [|n IH]; intros i Hfit.
  - cbn [search_from]. split; [discriminate|]. intros (j & Hj & _). lia.
  - cbn [search_from]. cbv zeta.
    assert (i + 54 < length memory)%nat as Hi by lia.
    pose proof (fun x => found_spec memory i x Hi) as Hfound.
    destruct (if bool_decide (take 4 (drop i memory) = [49; 46; 48; 59]) then
                if solution_grammar (Utf8.decode (candidate 100 (drop i memory)))
                then Some (Utf8.decode (candidate 100 (drop i memory))) else None
              else None) as [here|] eqn:E.
    + split.
      * intros [= <-]. exists i. split; [lia|]. split; [now apply Hfound|].
        intros j' other Hj'. lia.
      * intros (j & Hj & Hat & Hfirst). f_equal.
        destruct (decide (j = i)) as [->|Hne].
        -- eapply solution_at_unique; [apply Hfound; reflexivity | exact Hat].
        -- exfalso. apply (Hfirst i here); [lia|]. now apply Hfound.
    + rewrite IH by lia. split.
      * intros (j & Hj & Hat & Hfirst). exists j. split; [lia|]. split; [exact Hat|].
        intros j' other Hj'. destruct (decide (j' = i)) as [->|Hne].
        -- intros Hat'. apply Hfound in Hat'. discriminate Hat'.
        -- apply Hfirst. lia.
      * intros (j & Hj & Hat & Hfirst). exists j.
        assert (j <> i) as Hne.
        { intros ->. apply Hfound in Hat. discriminate Hat. }
        split; [lia|]. split; [exact Hat|].
        intros j' other Hj'. apply Hfirst. lia.
Qed.

(** X15.  [searchSolutionInMemory] with an instance returns a string
    exactly when some offset [i], with [i + 54] inside the memory,
    holds the 54 bytes of a well-formed solution followed by a 0
    byte, and then it returns the one at the first such offset; it
    returns [null] otherwise.  It never throws and changes nothing.
    So a solution that ends at the last byte of the memory, or that
    is followed by anything but 0, is not found. *)
Theorem searchSolutionInMemory_finds_first (s : Solver) (solution : jsstring) :
  wasmInstance s = true ->
  (exists r, searchSolutionInMemory s = (Ok r, s))
  /\ (fst (searchSolutionInMemory s) = Ok (Some solution)
      <-> exists i : nat,
            (i + 54 < length (memory s))%nat
            /\ solution_at (memory s) i solution
            /\ forall (j : nat) (other : jsstring),
                 (j < i)%nat -> ~ solution_at (memory s) j other).
Proof.
  intros Hready. unfold searchSolutionInMemory, bind, gets, ret.
  rewrite Hready. cbn [negb fst].
  split; [now eexists|].
  set (n := Z.to_nat (mem_length (memory s) - 4 - 50)).
  assert (0 < n -> 0 + n + 54 <= length (memory s))%nat as Hfit
    by (subst n; unfold mem_length; lia).
  split.
  - intros [= H]. apply search_from_spec in H as (i & Hi & Hat & Hfirst); [|exact Hfit].
    exists i. split; [lia|]. split; [exact Hat|].
    intros j other Hj. apply Hfirst. lia.
  - intros (i & Hi & Hat & Hfirst). do 2 f_equal.
    apply search_from_spec; [exact Hfit|].
    exists i. split; [subst n; unfold mem_length; lia|]. split; [exact Hat|].
    intros j other Hj. apply Hfirst. lia.
Qed.

Lemma searchSolutionInMemory_finds_first_witness :
  let s := set_memory (replicate 3 7 ++ guest_solution ++ replicate 7 0) fresh_solver in
  (exists r, searchSolutionInMemory s = (Ok r, s))
  /\ (fst (searchSolutionInMemory s) = Ok (Some guest_solution)
      <-> exists i : nat,
            (i + 54 < length (memory s))%nat
            /\ solution_at (memory s) i guest_solution
            /\ forall (j : nat) (other : jsstring),
                 (j < i)%nat -> ~ solution_at (memory s) j other).
Proof.
  intros s.
  apply (searchSolutionInMemory_finds_first s guest_solution).
  reflexivity.
Defined.

(** ** Promises and the timer *)

(** Settled promises are final: the steps of the bridge leave them as
    they are. *)
Lemma settled_invariant (ps : list promise) :
  all_settled ps -> bridge_invariant (fun s => promises s = ps).
Proof.
  intros Hps. split; try (intros; assumption).
  - intros obj s H. destruct (storeObject_frame obj s) as (_ & _ & _ & ->). exact H.
  - intros p st s H. unfold settle, modify. cbn [snd].
    destruct (promises s !! p) as [[[| |] t]|] eqn:E; try exact H.
    rewrite H in E. destruct (Hps p _ E) as [Hne _]. now contradict Hne.
  - intros p s H. unfold clearTimeout, modify. cbn [snd].
    destruct (promises s !! p) as [[st t]|] eqn:E; [|exact H].
    cbn [promises set_promises]. rewrite H in E |- *.
    destruct (Hps p _ E) as [_ Ht]. cbn in Ht. subst t.
    now apply list_insert_id.
Qed.

Lemma all_settled_app (ps : list promise) (pr : promise) :
  all_settled ps -> state pr <> Pending -> timer_armed pr = false ->
  all_settled (ps ++ [pr]).
Proof.
  intros Hps H1 H2 p pr' Hp. apply lookup_app_Some in Hp as [Hp|[_ Hp]].
  - exact (Hps p pr' Hp).
  - destruct (p - length ps)%nat; [|discriminate Hp].
    injection Hp as <-. now split.
Qed.

Lemma reachable_all_settled (host : Host) (guest : Guest) (s : Solver) :
  reachable host guest s -> all_settled (promises s).
Proof.
  induction 1 as [w|m s _ IH|m s _ IH|e s _ IH|token s _ IH|token k s _ IH].
  - intros p pr Hp. discriminate Hp.
  - exact IH.
  - exact IH.
  - pose proof (settled_invariant (promises s) IH) as Hinv.
    assert (promises (run_event host e s) = promises s) as ->; [|exact IH].
    destruct e as [p arg|h|p]; cbn [run_event].
    + now apply (keeps_Solve _ host p arg Hinv s).
    + now apply (keeps_dispatch _ host h Hinv s).
    + now apply (keeps_fire_timer _ p Hinv s).
  - destruct (wasmInstance s) eqn:Hready.
    + rewrite solveChallenge_begin_eq by exact Hready. cbn [snd begun promises].
      apply all_settled_app; [exact IH | discriminate | reflexivity].
    + rewrite solveChallenge_begin_rejected by exact Hready. exact IH.
  - now rewrite solveChallenge_resume_state.
Qed.

(** X16.  The 30 second timeout never rejects anything.  In every
    state the solver can reach, each promise made by
    [defineSolveFunction] is already settled and its timer cleared
    (the orchestrator calls the callback itself before it first
    awaits); so a timer that expires changes nothing, and neither the
    guest's calls of [Solve], nor its host calls, nor timers change any
    promise afterwards. *)
Theorem timeout_never_rejects (host : Host) (guest : Guest) (s : Solver) :
  reachable host guest s ->
  all_settled (promises s)
  /\ (forall p : nat, fire_timer p s = (Ok tt, s))
  /\ (forall events : list event,
        promises (run_events host events s) = promises s).
Proof.
  intros Hreach. pose proof (reachable_all_settled host guest s Hreach) as Hps.
  split; [exact Hps|]. split.
  - intros p. unfold fire_timer, bind, gets.
    destruct (promises s !! p) as [pr|] eqn:E; [|reflexivity].
    destruct (Hps p pr E) as [_ ->]. reflexivity.
  - intros events.
    now apply (keeps_run_events _ host events s (settled_invariant _ Hps)).
Qed.

Lemma timeout_never_rejects_witness :
  let s := snd (solveChallenge_begin idle_host idle_guest (lit "tok") fresh_solver) in
  all_settled (promises s)
  /\ (forall p : nat, fire_timer p s = (Ok tt, s))
  /\ (forall events : list event,
        promises (run_events idle_host events s) = promises s).
Proof.
  apply (timeout_never_rejects idle_host idle_guest).
  apply reach_begin. unfold fresh_solver. apply reach_initialize. apply reach_new.
Defined.

(** ** The handlers that move strings *)

(** The id [storeObject] returns leads back to the value, except for
    [null], which shares the id of [undefined], and NaN. *)
Lemma getObject_storeObject (obj : value) (s : Solver) :
  table_ok s -> obj <> VNum NaN -> obj <> VNull ->
  getObject (fst (storeObject obj s)) (snd (storeObject obj s)) = obj
  /\ 0 <= fst (storeObject obj s) <= nextRefId s.
Proof.
  intros [Hge Hb Hnd] Hnan Hnull.
  destruct (reserved obj) eqn:Hr.
  - destruct obj as [| | |[]| | | |[]]; try discriminate Hr; try contradiction;
      (split; [reflexivity|]);
      match goal with
      | |- context [fst (storeObject ?o s)] =>
          let v := eval vm_compute in (fst (storeObject o s)) in
          change (fst (storeObject o s)) with v
      end; lia.
  - rewrite storeObject_not_reserved by exact Hr.
    destruct (scan obj (objectRefs s)) as [id|] eqn:Hscan; cbn [fst snd].
    + apply scan_some in Hscan as (v & Hin & Heq).
      apply strict_eq_true in Heq. subst v.
      assert (6 <= id < nextRefId s) as Hid.
      { rewrite Forall_forall in Hb. apply Hb. apply list_elem_of_In.
        unfold JsMap.keys. apply in_map_iff. now exists (id, obj). }
      split; [|lia]. rewrite getObject_table by lia.
      now rewrite (get_of_nodup _ _ _ Hnd Hin).
    + split; [|lia]. rewrite getObject_table by lia.
      cbn [objectRefs set_table]. now rewrite JsMapFacts.get_set_eq.
Qed.

Lemma getObject_set_memory (id : Z) (m : Memory) (s : Solver) :
  getObject id (set_memory m s) = getObject id s.
Proof. reflexivity. Qed.

(** X17.  [stringVal] with an instance decodes the bytes its frame
    points to, stores the string in the table and writes the id at
    [sp + 8]: when that slot is inside the memory, the id read back
    from it resolves to the decoded string.  Nothing else of the memory
    changes, and the host heap is untouched. *)
Theorem stringVal_stores_text (sp : Z) (s : Solver) :
  wasmInstance s = true -> table_ok s -> nextRefId s < 2 ^ 32 ->
  0 <= sp + 8 -> sp + 12 <= mem_length (memory s) ->
  let text := readStringFromMemory (memory s)
                (readInt32FromMemory (memory s) (sp + 16))
                (readInt32FromMemory (memory s) (sp + 24)) in
  let s' := snd (stringVal sp s) in
  fst (stringVal sp s) = Ok tt
  /\ getObject (readInt32FromMemory (memory s') (sp + 8)) s' = VStr text
  /\ (forall j : Z, j < sp + 8 \/ sp + 12 <= j ->
        mem_get (memory s') j = mem_get (memory s) j)
  /\ world s' = world s.
Proof.
  intros Hready Hok Hnext Hlo Hhi. cbv zeta.
  set (text := readStringFromMemory (memory s)
                 (readInt32FromMemory (memory s) (sp + 16))
                 (readInt32FromMemory (memory s) (sp + 24))).
  destruct (getObject_storeObject (VStr text) s Hok) as [Hget Hid];
    [discriminate | discriminate |].
  destruct (storeObject_frame (VStr text) s) as (_ & Hmem & Hworld & _).
  unfold stringVal, with_instance, try_catch, bind, read32, readString, store,
    writeValue, gets, modify. rewrite Hready. fold text.
  destruct (storeObject (VStr text) s) as [id s1] eqn:Hstore.
  cbn [fst snd] in *. unfold writeValueToMemory.
  rewrite Hmem. rewrite writeInt32_in_range by lia.
  change (memory (set_memory ?m s1)) with m.
  rewrite getObject_set_memory.
  split; [reflexivity|]. split; [|split].
  - rewrite read_after_store by lia. rewrite Z.mod_small by lia. exact Hget.
  - intros j Hj. apply mem_get_store_le32_outside. lia.
  - exact Hworld.
Qed.

Lemma stringVal_stores_text_witness :
  let s := set_memory (replicate 16 0 ++ le32 32 ++ replicate 4 0 ++ le32 2
                       ++ replicate 4 0 ++ [104; 105] ++ replicate 6 0) fresh_solver in
  let text := readStringFromMemory (memory s)
                (readInt32FromMemory (memory s) (0 + 16))
                (readInt32FromMemory (memory s) (0 + 24)) in
  let s' := snd (stringVal 0 s) in
  fst (stringVal 0 s) = Ok tt
  /\ getObject (readInt32FromMemory (memory s') (0 + 8)) s' = VStr text
  /\ (forall j : Z, j < 0 + 8 \/ 0 + 12 <= j ->
        mem_get (memory s') j = mem_get (memory s) j)
  /\ world s' = world s.
Proof.
  intros s.
  apply (stringVal_stores_text 0 s).
  - reflexivity.
  - destruct table_ok_fresh_solver as [H1 H2 H3]. split; [exact H1 | exact H2 | exact H3].
  - vm_compute. reflexivity.
  - lia.
  - vm_compute. discriminate.
Defined.

(** A conversion to a string changes the host heap at most. *)
Lemma String_frame (host : Host) (v : value) (s s1 : Solver) (r : Res jsstring) :
  String_ host v s = (r, s1) -> exists w : World, s1 = set_world w s.
Proof.
  assert (s = set_world (world s) s) as Hs by (now destruct s).
  destruct v as [| |[]|n|z|str|n|ref]; cbn [String_ ToString]; unfold ret;
    try (intros [= <- <-]; now exists (world s)).
  - unfold lift_host. destruct (host_to_string host ref (world s)) as [r' w].
    intros [= <- <-]. now exists w.
Qed.

Lemma table_ok_set_world (w : World) (s : Solver) : table_ok s -> table_ok (set_world w s).
Proof. intros [H1 H2 H3]. now split. Qed.

(** What [valuePrepareString] leaves in its frame. *)
Lemma valuePrepareString_run (host : Host) (sp : Z) (s s1 : Solver)
    (r : Res jsstring) :
  wasmInstance s = true -> table_ok s -> nextRefId s < 2 ^ 32 ->
  0 <= sp -> sp + 12 <= mem_length (memory s) ->
  String_ host (getObject (readInt32FromMemory (memory s) (sp + 8)) s) s = (r, s1) ->
  let str := match r with Ok str => str | Throw _ => [] end in
  let s' := snd (valuePrepareString host sp s) in
  fst (valuePrepareString host sp s) = Ok tt
  /\ readInt32FromMemory (memory s') sp = Z.of_nat (length (Utf8.encode str)) mod 2 ^ 32
  /\ getObject (readInt32FromMemory (memory s') (sp + 8)) s' = VStr str.
Proof.
  intros Hready Hok Hnext Hlo Hhi Hconv. cbv zeta.
  destruct (String_frame host _ s s1 r Hconv) as [w ->].
  set (str := match r with Ok str => str | Throw _ => [] end).
  set (s1 := set_world w s) in *.
  assert (table_ok s1) as Hok1 by now apply table_ok_set_world.
  set (n := Z.of_nat (length (Utf8.encode str))).
  set (s2 := set_memory (writeInt32ToMemory (memory s1) sp n) s1).
  assert (table_ok s2) as Hok2 by (destruct Hok1 as [H1 H2 H3]; now split).
  destruct (getObject_storeObject (VStr str) s2 Hok2) as [Hget Hid];
    [discriminate | discriminate |].
  destruct (storeObject_frame (VStr str) s2) as (_ & Hmem & _ & _).
  change (nextRefId s2) with (nextRefId s) in Hid.
  change (memory s2) with (writeInt32ToMemory (memory s) sp n) in Hmem.
  assert (valuePrepareString host sp s
          = (Ok tt, set_memory (writeValueToMemory (memory (snd (storeObject (VStr str) s2)))
                                  (sp + 8) (fst (storeObject (VStr str) s2)))
                      (snd (storeObject (VStr str) s2)))) as ->.
  { unfold valuePrepareString, with_instance. unfold bind at 1. unfold gets at 1.
    rewrite Hready. unfold try_catch.
    unfold bind at 1. unfold read32 at 1. unfold gets at 1.
    unfold bind at 1. unfold load at 1. unfold gets at 1.
    unfold bind at 1. rewrite Hconv.
    destruct r as [str'|e]; subst str n s2; unfold bind, write32, writeValue, store, modify;
      cbn [length Utf8.encode Utf8.scalar_values List.map concat Z.of_nat];
      destruct (storeObject _ _) as [id s3]; reflexivity. }
  cbn [fst snd]. change (memory (set_memory ?m _)) with m.
  rewrite getObject_set_memory. unfold writeValueToMemory.
  rewrite Hmem. clearbody s2.
  split; [reflexivity|].
  rewrite (writeInt32_in_range (memory s) sp) by lia.
  rewrite writeInt32_in_range by (rewrite ?length_store_le32; lia).
  split.
  - rewrite read_other_after_store by lia. apply read_after_store; lia.
  - rewrite read_after_store by (rewrite ?length_store_le32; lia).
    rewrite Z.mod_small by lia. exact Hget.
Qed.

(** X18.  [valuePrepareString] with an instance converts the value its
    frame names with [String], writes the number of bytes of the
    UTF-8 form at [sp] and the id of the string at [sp + 8]; when the
    conversion throws, it writes 0 and the id of the empty string.
    With both slots inside the memory, in a well-formed table whose
    ids are below 2^32, the length read back is the byte count modulo
    2^32 and the id read back resolves to the string.  The value is
    any value but a number beyond the safe integers (more than
    2^53 - 1 in absolute value), whose digits are not described
    here. *)
Theorem valuePrepareString_result (host : Host) (sp : Z) (s s1 : Solver)
    (r : Res jsstring) :
  wasmInstance s = true -> table_ok s -> nextRefId s < 2 ^ 32 ->
  0 <= sp -> sp + 12 <= mem_length (memory s) ->
  safe_number (getObject (readInt32FromMemory (memory s) (sp + 8)) s) ->
  String_ host (getObject (readInt32FromMemory (memory s) (sp + 8)) s) s = (r, s1) ->
  let str := match r with Ok str => str | Throw _ => [] end in
  let s' := snd (valuePrepareString host sp s) in
  fst (valuePrepareString host sp s) = Ok tt
  /\ readInt32FromMemory (memory s') sp = Z.of_nat (length (Utf8.encode str)) mod 2 ^ 32
  /\ getObject (readInt32FromMemory (memory s') (sp + 8)) s' = VStr str.
Proof.
  intros Hready Hok Hnext Hlo Hhi _ Hconv.
  exact (valuePrepareString_run host sp s s1 r Hready Hok Hnext Hlo Hhi Hconv).
Qed.

Lemma valuePrepareString_result_witness :
  let s := set_memory (replicate 8 0 ++ le32 2 ++ replicate 4 0) fresh_solver in
  let str := match Ok (lit "[object Object]") with Ok str => str | Throw _ => [] end in
  let s' := snd (valuePrepareString idle_host 0 s) in
  fst (valuePrepareString idle_host 0 s) = Ok tt
  /\ readInt32FromMemory (memory s') 0 = Z.of_nat (length (Utf8.encode str)) mod 2 ^ 32
  /\ getObject (readInt32FromMemory (memory s') (0 + 8)) s' = VStr str.
Proof.
  intros s.
  apply (valuePrepareString_result idle_host 0 s s (Ok (lit "[object Object]"))).
  - reflexivity.
  - destruct table_ok_fresh_solver as [H1 H2 H3]. split; [exact H1 | exact H2 | exact H3].
  - vm_compute. reflexivity.
  - lia.
  - vm_compute. discriminate.
  - vm_compute. exact I.
  - reflexivity.
Defined.

Lemma readInt32_range (memory : Memory) (ptr : Z) :
  0 <= readInt32FromMemory memory ptr < 2 ^ 32.
Proof.
  unfold readInt32FromMemory.
  destruct ((ptr <? 0) || (ptr + 3 >=? mem_length memory)); [lia|].
  unfold shr. change (ToUint32 0 mod 32) with 0. rewrite Z.shiftr_0_r.
  apply ToUint32_range.
Qed.

(** What [valueLoadString] copies. *)
Lemma valueLoadString_run (host : Host) (sp : Z) (s s1 : Solver)
    (r : Res jsstring) :
  wasmInstance s = true ->
  String_ host (getObject (readInt32FromMemory (memory s) (sp + 8)) s) s = (r, s1) ->
  let ptr := readInt32FromMemory (memory s) (sp + 16) in
  let len := readInt32FromMemory (memory s) (sp + 24) in
  let s' := snd (valueLoadString host sp s) in
  fst (valueLoadString host sp s) = Ok tt
  /\ mem_length (memory s') = mem_length (memory s)
  /\ match r with
     | Ok str =>
         let bytes := Utf8.encode str in
         let copyLen := Z.min (Z.of_nat (length bytes)) len in
         (ptr + copyLen <= mem_length (memory s) ->
            (forall i : nat, (i < Z.to_nat copyLen)%nat ->
               mem_get (memory s') (ptr + Z.of_nat i) = bytes !! i)
            /\ (forall j : Z, j < ptr \/ ptr + copyLen <= j ->
                  mem_get (memory s') j = mem_get (memory s) j))
         /\ (mem_length (memory s) < ptr + copyLen -> memory s' = memory s)
     | Throw _ => memory s' = memory s
     end.
Proof.
  intros Hready Hconv. cbv zeta.
  destruct (String_frame host _ s s1 r Hconv) as [w ->].
  pose proof (readInt32_range (memory s) (sp + 16)) as Hptr.
  pose proof (readInt32_range (memory s) (sp + 24)) as Hlen.
  set (ptr := readInt32FromMemory (memory s) (sp + 16)) in *.
  set (len := readInt32FromMemory (memory s) (sp + 24)) in *.
  remember (valueLoadString host sp s) as res eqn:Hres.
  unfold valueLoadString, with_instance in Hres. unfold bind at 1 in Hres.
  unfold gets at 1 in Hres. rewrite Hready in Hres. unfold try_catch in Hres.
  unfold bind at 1 in Hres. unfold read32 at 1 in Hres. unfold gets at 1 in Hres.
  unfold bind at 1 in Hres. unfold load at 1 in Hres. unfold gets at 1 in Hres.
  unfold bind at 1 in Hres. rewrite Hconv in Hres.
  destruct r as [str|e]; [|subst res; now repeat split].
  unfold bind at 1 in Hres. unfold read32 at 1 in Hres. unfold gets at 1 in Hres.
  unfold bind at 1 in Hres. unfold read32 at 1 in Hres. unfold gets at 1 in Hres.
  change (memory (set_world w s)) with (memory s) in Hres. fold ptr len in Hres.
  set (bytes := Utf8.encode str) in *.
  set (copyLen := Z.min (Z.of_nat (length bytes)) len) in *.
  assert (0 <= copyLen <= Z.of_nat (length bytes)) as Hcopy by (subst copyLen; lia).
  assert (length (take (Z.to_nat copyLen) bytes) = Z.to_nat copyLen) as Htake
    by (rewrite length_take; lia).
  unfold memory_set_array, memory_length in Hres. unfold bind at 1 in Hres.
  unfold gets at 1 in Hres.
  change (memory (set_world w s)) with (memory s) in Hres.
  rewrite Htake in Hres.
  destruct (Z.ltb_spec ptr 0) as [|_]; [lia|]. cbn [orb] in Hres.
  destruct (Z.ltb_spec (mem_length (memory s)) (ptr + Z.of_nat (Z.to_nat copyLen)))
    as [Hout|Hfit].
  - unfold throw_error, new_error, bind, throw, ret in Hres. subst res. cbn [fst snd].
    change (memory (set_world ?w' ?s')) with (memory s').
    change (memory (set_world ?w' ?s')) with (memory s').
    split; [reflexivity|]. split; [reflexivity|]. split; [lia | reflexivity].
  - unfold modify in Hres. subst res. cbn [fst snd].
    change (memory (set_memory ?m _)) with m.
    change (memory (set_world w s)) with (memory s).
    assert (Z.to_nat ptr + Z.to_nat copyLen <= length (memory s))%nat as Hfit'
      by (unfold mem_length in Hfit; lia).
    destruct (splice_spec (memory s) _ (Z.to_nat ptr) _ Htake Hfit') as (H1 & H2 & H3).
    split; [reflexivity|]. split; [unfold mem_length; now rewrite H1|].
    split; [|lia]. intros _. split.
    + intros i Hi. unfold mem_get.
      destruct (Z.ltb_spec (ptr + Z.of_nat i) 0); [lia|].
      replace (Z.to_nat (ptr + Z.of_nat i)) with (Z.to_nat ptr + i)%nat by lia.
      rewrite H3 by exact Hi. now apply lookup_take_lt.
    + intros j Hj. unfold mem_get. destruct (j <? 0) eqn:Ej; [reflexivity|].
      apply H2. lia.
Qed.

(** X19.  [valueLoadString] with an instance copies the UTF-8 bytes of
    [String] of the value its frame names to the pointer read at
    [sp + 16], at most as many as the length read at [sp + 24]: either
    the whole copy fits inside the memory and is made, every other
    byte staying as it was, or nothing at all is written.  A
    conversion that throws writes nothing either.  The handler returns
    normally in each case.  The value is any value but a number
    beyond the safe integers (more than 2^53 - 1 in absolute value),
    whose digits are not described here. *)
Theorem valueLoadString_copies (host : Host) (sp : Z) (s s1 : Solver)
    (r : Res jsstring) :
  wasmInstance s = true ->
  safe_number (getObject (readInt32FromMemory (memory s) (sp + 8)) s) ->
  String_ host (getObject (readInt32FromMemory (memory s) (sp + 8)) s) s = (r, s1) ->
  let ptr := readInt32FromMemory (memory s) (sp + 16) in
  let len := readInt32FromMemory (memory s) (sp + 24) in
  let s' := snd (valueLoadString host sp s) in
  fst (valueLoadString host sp s) = Ok tt
  /\ mem_length (memory s') = mem_length (memory s)
  /\ match r with
     | Ok str =>
         let bytes := Utf8.encode str in
         let copyLen := Z.min (Z.of_nat (length bytes)) len in
         (ptr + copyLen <= mem_length (memory s) ->
            (forall i : nat, (i < Z.to_nat copyLen)%nat ->
               mem_get (memory s') (ptr + Z.of_nat i) = bytes !! i)
            /\ (forall j : Z, j < ptr \/ ptr + copyLen <= j ->
                  mem_get (memory s') j = mem_get (memory s) j))
         /\ (mem_length (memory s) < ptr + copyLen -> memory s' = memory s)
     | Throw _ => memory s' = memory s
     end.
Proof.
  intros Hready _ Hconv.
  exact (valueLoadString_run host sp s s1 r Hready Hconv).
Qed.

Lemma valueLoadString_copies_witness :
  let s := set_memory (replicate 8 0 ++ le32 2 ++ replicate 4 0 ++ le32 40
                       ++ replicate 4 0 ++ le32 6 ++ replicate 36 0) fresh_solver in
  let ptr := readInt32FromMemory (memory s) (0 + 16) in
  let len := readInt32FromMemory (memory s) (0 + 24) in
  let s' := snd (valueLoadString idle_host 0 s) in
  fst (valueLoadString idle_host 0 s) = Ok tt
  /\ mem_length (memory s') = mem_length (memory s)
  /\ (let bytes := Utf8.encode (lit "[object Object]") in
      let copyLen := Z.min (Z.of_nat (length bytes)) len in
      (ptr + copyLen <= mem_length (memory s) ->
         (forall i : nat, (i < Z.to_nat copyLen)%nat ->
            mem_get (memory s') (ptr + Z.of_nat i) = bytes !! i)
         /\ (forall j : Z, j < ptr \/ ptr + copyLen <= j ->
               mem_get (memory s') j = mem_get (memory s) j))
      /\ (mem_length (memory s) < ptr + copyLen -> memory s' = memory s)).
Proof.
  intros s.
  apply (valueLoadString_copies idle_host 0 s s (Ok (lit "[object Object]"))).
  - reflexivity.
  - vm_compute. exact I.
  - reflexivity.
Defined.

(** ** The handlers that report through the frame *)

Lemma writeInt64_zero (m : Memory) (ptr : Z) :
  0 <= ptr -> ptr + 8 <= mem_length m ->
  writeInt64ToMemory m ptr 0 = store_le32 (store_le32 m ptr 0) (ptr + 4) 0.
Proof.
  intros Hp Hlen. unfold writeInt64ToMemory. cbv zeta.
  change (Number_bits (Z.land 0 4294967295)) with 0.
  change (Number_bits (Z.shiftr 0 32)) with 0.
  rewrite (writeInt32_in_range m ptr) by lia.
  now rewrite writeInt32_in_range by (rewrite ?length_store_le32; lia).
Qed.

(** X20.  [valueLength] with an instance reports the length 0 for every
    value that is not an object, a string included (the [in] operator
    throws on a primitive and the handler falls back to 0), for
    [undefined] and [null], and for an object without a [length]
    property: with the slot inside the memory, the 64-bit number at
    [sp + 16] reads 0 afterwards and no other byte changes.  The
    handler returns normally. *)
Theorem valueLength_zero_unless_array_like (host : Host) (sp : Z) (s : Solver) :
  wasmInstance s = true ->
  0 <= sp + 16 -> sp + 24 <= mem_length (memory s) ->
  match getObject (readInt32FromMemory (memory s) (sp + 8)) s with
  | VObj r => has_property (world s) r (lit "length") = false
  | _ => True
  end ->
  let s' := snd (valueLength host sp s) in
  fst (valueLength host sp s) = Ok tt
  /\ readInt32FromMemory (memory s') (sp + 16) = 0
  /\ readInt32FromMemory (memory s') (sp + 20) = 0
  /\ (forall j : Z, j < sp + 16 \/ sp + 24 <= j ->
        mem_get (memory s') j = mem_get (memory s) j).
Proof.
  intros Hready Hlo Hhi Hv. cbv zeta.
  assert (exists w, valueLength host sp s
                    = (Ok tt, set_memory (writeInt64ToMemory (memory s) (sp + 16) 0)
                                (set_world w s))) as [w ->].
  { unfold valueLength, with_instance. unfold bind at 1. unfold gets at 1.
    rewrite Hready. unfold try_catch.
    unfold bind at 1. unfold read32 at 1. unfold gets at 1.
    unfold bind at 1. unfold load at 1. unfold gets at 1.
    destruct (getObject (readInt32FromMemory (memory s) (sp + 8)) s)
      as [| |b|n|z|str|n|r];
      cbn [not_nullish has_length];
      try (exists (world s); destruct s; reflexivity);
      try (eexists; reflexivity).
    exists (world s). unfold bind at 1. unfold bind at 1. unfold gets at 1.
    rewrite Hv. destruct s; reflexivity. }
  cbn [fst snd]. change (memory (set_memory ?m _)) with m.
  rewrite writeInt64_zero by lia.
  split; [reflexivity|]. split; [|split].
  - rewrite read_other_after_store by lia. apply read_after_store; lia.
  - replace (sp + 20) with (sp + 16 + 4) by lia.
    apply read_after_store; rewrite ?length_store_le32; lia.
  - intros j Hj. rewrite !mem_get_store_le32_outside by lia. reflexivity.
Qed.

Lemma valueLength_zero_unless_array_like_witness :
  let s0 := initialized (replicate 8 0 ++ le32 6 ++ replicate 4 0 ++ replicate 8 255
                         ++ replicate 8 0) (new_solver empty_world) in
  let s := snd (storeObject (VStr (lit "abc")) s0) in
  let s' := snd (valueLength idle_host 0 s) in
  fst (valueLength idle_host 0 s) = Ok tt
  /\ readInt32FromMemory (memory s') (0 + 16) = 0
  /\ readInt32FromMemory (memory s') (0 + 20) = 0
  /\ (forall j : Z, j < 0 + 16 \/ 0 + 24 <= j ->
        mem_get (memory s') j = mem_get (memory s) j).
Proof.
  intros s0 s.
  apply (valueLength_zero_unless_array_like idle_host 0 s).
  - reflexivity.
  - lia.
  - vm_compute. discriminate.
  - vm_compute. exact I.
Defined.

(** X21.  [valueIndex] with an instance answers with the id 0, that of
    [undefined], whenever the indexed value is not an object: for
    [undefined] and [null] by its own test, for a string or another
    primitive because [Reflect.get] throws and the handler falls back.
    With the slot inside the memory, the id at [sp + 24] reads 0
    afterwards, no other byte changes and the table is as before. *)
Theorem valueIndex_of_primitive (host : Host) (sp : Z) (s : Solver) :
  wasmInstance s = true ->
  0 <= sp + 24 -> sp + 28 <= mem_length (memory s) ->
  (forall r : ref, getObject (readInt32FromMemory (memory s) (sp + 8)) s <> VObj r) ->
  let s' := snd (valueIndex host sp s) in
  fst (valueIndex host sp s) = Ok tt
  /\ readInt32FromMemory (memory s') (sp + 24) = 0
  /\ (forall j : Z, j < sp + 24 \/ sp + 28 <= j ->
        mem_get (memory s') j = mem_get (memory s) j)
  /\ objectRefs s' = objectRefs s /\ nextRefId s' = nextRefId s.
Proof.
  intros Hready Hlo Hhi Hv. cbv zeta.
  assert (exists w, valueIndex host sp s
                    = (Ok tt, set_memory (writeValueToMemory (memory s) (sp + 24) 0)
                                (set_world w s))) as [w ->].
  { unfold valueIndex, with_instance. unfold bind at 1. unfold gets at 1.
    rewrite Hready. unfold try_catch.
    unfold bind at 1. unfold read32 at 1. unfold gets at 1.
    unfold bind at 1. unfold read32 at 1. unfold gets at 1.
    unfold bind at 1. unfold load at 1. unfold gets at 1.
    unfold bind at 1. unfold load at 1. unfold gets at 1.
    destruct (getObject (readInt32FromMemory (memory s) (sp + 8)) s)
      as [| |b|n|z|str|n|r];
      cbn [not_nullish Reflect_get];
      try (exists (world s); destruct s; reflexivity);
      try (eexists; reflexivity).
    exfalso. exact (Hv r eq_refl). }
  cbn [fst snd]. change (memory (set_memory ?m _)) with m.
  unfold writeValueToMemory. rewrite writeInt32_in_range by lia.
  split; [reflexivity|]. split; [|split; [|split; reflexivity]].
  - rewrite read_after_store by lia. reflexivity.
  - intros j Hj. now rewrite mem_get_store_le32_outside by lia.
Qed.

Lemma valueIndex_of_primitive_witness :
  let s0 := initialized (replicate 8 0 ++ le32 6 ++ replicate 12 0 ++ replicate 4 255
                         ++ replicate 4 0) (new_solver empty_world) in
  let s := snd (storeObject (VStr (lit "abc")) s0) in
  let s' := snd (valueIndex idle_host 0 s) in
  fst (valueIndex idle_host 0 s) = Ok tt
  /\ readInt32FromMemory (memory s') (0 + 24) = 0
  /\ (forall j : Z, j < 0 + 24 \/ 0 + 28 <= j ->
        mem_get (memory s') j = mem_get (memory s) j)
  /\ objectRefs s' = objectRefs s /\ nextRefId s' = nextRefId s.
Proof.
  intros s0 s.
  apply (valueIndex_of_primitive idle_host 0 s).
  - reflexivity.
  - lia.
  - vm_compute. discriminate.
  - intros r. vm_compute. discriminate.
Defined.

(** The argument loop without logging reads and changes nothing. *)
Lemma collect_args_loop (host : Host) (args_ptr : Z) (n : nat) (i : nat)
    (acc : list value) (s : Solver) :
  for_range n (Z.of_nat i)
    (fun i args =>
       arg_id <- read32 (args_ptr + i * 8) ;;
       arg <- load arg_id ;;
       (if false then log_value host arg else ret tt) ;;;
       ret (args ++ [arg]))%M acc s
  = (Ok (acc ++ List.map
                  (fun k : nat =>
                     getObject (readInt32FromMemory (memory s)
                                  (args_ptr + Z.of_nat k * 8)) s)
                  (seq i n)), s).
Proof.
  revert i acc. induction n as [|n IH]; intros i acc.
  - cbn [for_range seq List.map]. now rewrite app_nil_r.
  - cbn [for_range seq List.map].
    unfold bind at 1. unfold bind at 1. unfold read32 at 1. unfold gets at 1.
    unfold bind at 1. unfold load at 1. unfold gets at 1.
    unfold bind at 1. unfold ret at 1. unfold ret at 1.
    replace (Z.of_nat i + 1) with (Z.of_nat (S i)) by lia.
    rewrite IH. now rewrite <- app_assoc.
Qed.

Lemma construct_frame (host : Host) (ctor : value) (args : list value)
    (s s1 : Solver) (r : Res value) :
  (if typeof_function ctor then construct host ctor args
   else throw_error msg_not_constructor) s = (r, s1) ->
  exists w : World, s1 = set_world w s.
Proof.
  destruct (typeof_function ctor).
  - destruct ctor as [| |b|n|z|str|n|ref]; cbn [construct];
      try (intros [= <- <-]; now eexists).
    destruct ref; try (intros [= <- <-]; now eexists);
      unfold lift_host;
      match goal with |- context [host_construct host ?f args (world s)] =>
        destruct (host_construct host f args (world s)) as [r' w] end;
      intros [= <- <-]; now exists w.
  - intros [= <- <-]. now eexists.
Qed.

(** X22.  [valueNew] with an instance reports how the construction
    ended through its frame: the flag at [sp + 32] is 0 when the
    constructor returned and 1 when it threw or when the value is not
    a function at all, and the id at [sp + 24] resolves to the new
    object or to what was thrown (other than NaN and [null], which
    have no id of their own).  The arguments are the values of the ids
    read from the frame, 8 bytes apart. *)
Theorem valueNew_reports (host : Host) (sp : Z) (s s1 : Solver) (r : Res value) :
  wasmInstance s = true -> table_ok s -> nextRefId s < 2 ^ 32 ->
  0 <= sp + 24 -> sp + 33 <= mem_length (memory s) ->
  let ctor := getObject (readInt32FromMemory (memory s) (sp + 8)) s in
  let args_ptr := readInt32FromMemory (memory s) (sp + 16) in
  let args_len := readInt32FromMemory (memory s) (sp + 20) in
  let args := List.map
                (fun k : nat =>
                   getObject (readInt32FromMemory (memory s)
                                (args_ptr + Z.of_nat k * 8)) s)
                (seq 0 (Z.to_nat args_len)) in
  (if typeof_function ctor then construct host ctor args
   else throw_error msg_not_constructor) s = (r, s1) ->
  let s' := snd (valueNew host sp s) in
  let reported := match r with Ok v => v | Throw e => e end in
  fst (valueNew host sp s) = Ok tt
  /\ mem_get (memory s') (sp + 32) = Some (match r with Ok _ => 0 | Throw _ => 1 end)
  /\ (reported <> VNum NaN -> reported <> VNull ->
      getObject (readInt32FromMemory (memory s') (sp + 24)) s' = reported).
Proof.
  intros Hready Hok Hnext Hlo Hhi. cbv zeta. intros Hrun.
  destruct (construct_frame host _ _ s s1 r Hrun) as [w ->].
  set (flag := match r with Ok _ => 0 | Throw _ => 1 end).
  set (reported := match r with Ok v => v | Throw e => e end).
  set (s2 := set_memory (mem_set (memory s) (sp + 32) flag) (set_world w s)).
  assert (table_ok s2) as Hok2 by (destruct Hok as [H1 H2 H3]; now split).
  assert (valueNew host sp s
          = (Ok tt, set_memory (writeValueToMemory (memory (snd (storeObject reported s2)))
                                  (sp + 24) (fst (storeObject reported s2)))
                      (snd (storeObject reported s2)))) as ->.
  { unfold valueNew, with_instance. unfold bind at 1. unfold gets at 1.
    rewrite Hready. unfold try_catch at 1.
    unfold bind at 1. unfold read32 at 1. unfold gets at 1.
    unfold bind at 1. unfold read32 at 1. unfold gets at 1.
    unfold bind at 1. unfold read32 at 1. unfold gets at 1.
    unfold bind at 1. unfold load at 1. unfold gets at 1.
    unfold bind at 1. unfold collect_args.
    change 0 with (Z.of_nat 0) at 1.
    rewrite (collect_args_loop host). cbn [app].
    unfold try_catch at 1. unfold bind at 1. rewrite Hrun.
    destruct r as [v|e]; subst flag reported s2;
      unfold bind, poke, writeValue, store, modify;
      change (memory (set_world w s)) with (memory s);
      destruct (storeObject _ _) as [id s3]; reflexivity. }
  destruct (storeObject_frame reported s2) as (_ & Hmem & _ & _).
  change (memory s2) with (mem_set (memory s) (sp + 32) flag) in Hmem.
  cbn [fst snd]. change (memory (set_memory ?m _)) with m.
  rewrite getObject_set_memory. unfold writeValueToMemory. rewrite Hmem.
  rewrite writeInt32_in_range by (rewrite ?mem_length_mem_set; lia).
  split; [reflexivity|]. split.
  - rewrite mem_get_store_le32_outside by lia.
    rewrite mem_get_mem_set_eq by lia.
    subst flag. destruct r; reflexivity.
  - intros Hnan Hnull.
    destruct (getObject_storeObject reported s2 Hok2 Hnan Hnull) as [Hget Hid].
    change (nextRefId s2) with (nextRefId s) in Hid.
    rewrite read_after_store by (rewrite ?mem_length_mem_set; lia).
    rewrite Z.mod_small by lia. exact Hget.
Qed.

Lemma valueNew_reports_witness :
  let s := initialized (replicate 8 0 ++ le32 2 ++ replicate 28 0)
             (new_solver empty_world) in
  let s1 := with_error msg_not_constructor s in
  let r : Res value := Throw (VObj (RError 0)) in
  let s' := snd (valueNew idle_host 0 s) in
  let reported := match r with Ok v => v | Throw e => e end in
  fst (valueNew idle_host 0 s) = Ok tt
  /\ mem_get (memory s') (0 + 32) = Some (match r with Ok _ => 0 | Throw _ => 1 end)
  /\ (reported <> VNum NaN -> reported <> VNull ->
      getObject (readInt32FromMemory (memory s') (0 + 24)) s' = reported).
Proof.
  intros s s1 r.
  apply (valueNew_reports idle_host 0 s s1 r).
  - reflexivity.
  - split; [vm_compute; discriminate | constructor | constructor].
  - vm_compute. reflexivity.
  - lia.
  - vm_compute. discriminate.
  - reflexivity.
Defined.

(** ** What [solveChallenge] does not do *)

(** X23.  [solveChallenge] never runs the module: its outcome and the
    state it leaves are the same for every module, whatever the
    module exports and whatever its exports would do, and its
    synchronous part does not depend on the host's functions either.
    (The callback is called by the orchestrator before any export
    is.) *)
Theorem solveChallenge_never_runs_guest
    (host host' : Host) (guest guest' : Guest) (token : jsstring)
    (events : list event) (s : Solver) :
  solveChallenge host guest token events s = solveChallenge host guest' token events s
  /\ solveChallenge_begin host guest token s = solveChallenge_begin host' guest' token s.
Proof.
  unfold solveChallenge. destruct (wasmInstance s) eqn:Hready.
  - now rewrite !solveChallenge_begin_eq by exact Hready.
  - now rewrite !solveChallenge_begin_rejected by exact Hready.
Qed.

(** ** Calls through the bridge *)

(** Calling a function, the callback included, leaves the memory and
    the table alone: it works on the host heap and the promises. *)
Lemma apply_keeps_frame (host : Host) (fn thisObj : value) (args : list value)
    (msg : jsstring) (s : Solver) :
  let s1 := snd ((if typeof_function fn then apply_function host fn thisObj args
                  else throw_error msg) s) in
  memory s1 = memory s /\ objectRefs s1 = objectRefs s
  /\ nextRefId s1 = nextRefId s /\ wasmInstance s1 = wasmInstance s.
Proof.
  cbv zeta.
  set (P := fun s' : Solver =>
              memory s' = memory s /\ objectRefs s' = objectRefs s
              /\ nextRefId s' = nextRefId s /\ wasmInstance s' = wasmInstance s).
  assert (forall f, keeps P (modify (fun s => set_world (f s) s))) as Hw
    by (intros f s0 H; exact H).
  assert (forall A (f : World -> Res A * World), keeps P (lift_host f)) as Hl.
  { intros A f s0 H. unfold lift_host. destruct (f (world s0)). exact H. }
  assert (forall m, keeps P (new_error m)) as Hn by (intros m s0 H; exact H).
  assert (forall A m, keeps P (@throw_error A m)) as Hte by (intros A m s0 H; exact H).
  assert (forall p st, keeps P (settle p st)) as Hs.
  { intros p st s0 H. unfold settle, modify. cbn [snd].
    destruct (promises s0 !! p) as [[[| |] t]|]; exact H. }
  assert (forall p, keeps P (clearTimeout p)) as Hc.
  { intros p s0 H. unfold clearTimeout, modify. cbn [snd].
    destruct (promises s0 !! p) as [[st t]|]; exact H. }
  assert (keeps P (if typeof_function fn then apply_function host fn thisObj args
                   else throw_error msg)) as Hk by keeps_steps.
  apply Hk. now repeat split.
Qed.

Lemma log_value_silent (host : Host) (v : value) (s : Solver) :
  converts_silently v = true -> log_value host v s = (Ok tt, s).
Proof.
  destruct v as [| |[]|n|z|str|n|r]; try discriminate; intros _; reflexivity.
Qed.

(** The argument loop with logging, for arguments whose conversion to
    a string is silent. *)
Lemma collect_args_logged_loop (host : Host) (args_ptr : Z) (n : nat) (i : nat)
    (acc : list value) (s : Solver) :
  Forall (fun a => converts_silently a = true)
    (List.map (fun k : nat =>
                 getObject (readInt32FromMemory (memory s) (args_ptr + Z.of_nat k * 8)) s)
       (seq i n)) ->
  for_range n (Z.of_nat i)
    (fun i args =>
       arg_id <- read32 (args_ptr + i * 8) ;;
       arg <- load arg_id ;;
       (if true then log_value host arg else ret tt) ;;;
       ret (args ++ [arg]))%M acc s
  = (Ok (acc ++ List.map
                  (fun k : nat =>
                     getObject (readInt32FromMemory (memory s)
                                  (args_ptr + Z.of_nat k * 8)) s)
                  (seq i n)), s).
Proof.
  revert i acc. induction n as [|n IH]; intros i acc Hsilent.
  - cbn [for_range seq List.map]. now rewrite app_nil_r.
  - cbn [seq List.map] in Hsilent. apply Forall_cons in Hsilent as [Hhere Hrest].
    cbn [for_range seq List.map].
    unfold bind at 1. unfold bind at 1. unfold read32 at 1. unfold gets at 1.
    unfold bind at 1. unfold load at 1. unfold gets at 1.
    unfold bind at 1. rewrite (log_value_silent host _ s Hhere).
    unfold ret at 1.
    replace (Z.of_nat i + 1) with (Z.of_nat (S i)) by lia.
    rewrite IH by exact Hrest. now rewrite <- app_assoc.
Qed.

Lemma collect_args_frame (host : Host) (args_ptr args_len : Z) (s : Solver) :
  0 <= args_ptr -> 0 <= args_len ->
  let args := if args_ptr + args_len * 8 <=? mem_length (memory s)
              then List.map
                     (fun k : nat =>
                        getObject (readInt32FromMemory (memory s)
                                     (args_ptr + Z.of_nat k * 8)) s)
                     (seq 0 (Z.to_nat args_len))
              else [] in
  Forall (fun a => converts_silently a = true) args ->
  (if (args_ptr >=? 0) && (args_len >=? 0)
      && (args_ptr + args_len * 8 <=? mem_length (memory s))
   then collect_args host true args_ptr args_len else ret []) s = (Ok args, s).
Proof.
  intros Hp Hl. cbv zeta. intros Hsilent.
  destruct (Z.geb_spec args_ptr 0); [|lia].
  destruct (Z.geb_spec args_len 0); [|lia]. cbn [andb].
  destruct (args_ptr + args_len * 8 <=? mem_length (memory s)); [|reflexivity].
  unfold collect_args. change 0 with (Z.of_nat 0) at 1.
  now rewrite (collect_args_logged_loop host) by exact Hsilent.
Qed.

(** The call itself, the flag and the result id. *)
Lemma call_and_report_eq (host : Host) (fn thisObj : value) (args : list value)
    (ret_ptr exc_ptr : Z) (s s1 : Solver) (r : Res value) :
  0 <= exc_ptr < mem_length (memory s) ->
  0 <= ret_ptr -> ret_ptr + 3 < mem_length (memory s) ->
  (if typeof_function fn then apply_function host fn thisObj args
   else throw_error msg_not_function) s = (r, s1) ->
  match r with
  | Ok (VBigInt _) | Throw _ => True
  | Ok v => converts_silently v = true
  end ->
  let flag := match r with Ok _ => 0 | Throw _ => 1 end in
  let reported := match r with Ok v => narrow_bigint v | Throw e => e end in
  let st := storeObject reported (set_memory (mem_set (memory s1) exc_ptr flag) s1) in
  call_and_report host fn thisObj args ret_ptr exc_ptr s
  = (Ok tt, set_memory (store_le32 (memory (snd st)) ret_ptr (fst st)) (snd st)).
Proof.
  intros Hexc Hret1 Hret2 Hrun Hsilent. cbv zeta.
  unfold call_and_report. unfold bind at 1. unfold memory_length at 1. unfold gets at 1.
  assert (((exc_ptr >=? 0) && (exc_ptr <? mem_length (memory s))) = true) as ->
    by (apply andb_true_iff; split; lia).
  assert (((ret_ptr >=? 0) && (ret_ptr + 3 <? mem_length (memory s))) = true) as ->
    by (apply andb_true_iff; split; lia).
  unfold try_catch. unfold bind at 1.
  destruct (typeof_function fn).
  - unfold bind at 1. rewrite Hrun. destruct r as [v|e].
    + assert (log_value host v s1 = (Ok tt, s1)) as Hlog.
      { destruct v; try (now apply log_value_silent); reflexivity. }
      unfold bind at 1. rewrite Hlog. unfold ret at 1.
      unfold bind, poke, poke32, store, modify.
      destruct (storeObject _ _) as [id s3]. reflexivity.
    + unfold bind, poke, poke32, store, modify.
      destruct (storeObject _ _) as [id s3]. reflexivity.
  - rewrite Hrun. destruct r as [v|e].
    + exfalso. unfold throw_error, new_error, bind, throw in Hrun. discriminate Hrun.
    + unfold bind, poke, poke32, store, modify.
      destruct (storeObject _ _) as [id s3]. reflexivity.
Qed.

Lemma scan_nan (m : JsMap.t) : scan (VNum NaN) m = None.
Proof.
  unfold scan. induction m as [|[k v] m IH]; [reflexivity|].
  cbn [List.find snd]. destruct (strict_eq v (VNum NaN)) eqn:E; [|exact IH].
  pose proof (strict_eq_true _ _ E) as ->. discriminate E.
Qed.

(** The id [storeObject] returns leads back to the value, NaN
    included, and to [undefined] for [null]. *)
Lemma getObject_storeObject_read_back (obj : value) (s : Solver) :
  table_ok s ->
  getObject (fst (storeObject obj s)) (snd (storeObject obj s)) = read_back obj
  /\ 0 <= fst (storeObject obj s) <= nextRefId s.
Proof.
  intros Hok. destruct (decide (obj = VNull)) as [->|Hnull].
  - destruct Hok as [Hge _ _]. split; [reflexivity|].
    change (fst (storeObject VNull s)) with 0. lia.
  - replace (read_back obj) with obj by (now destruct obj).
    destruct (decide (obj = VNum NaN)) as [->|Hnan].
    + destruct Hok as [Hge Hb Hnd].
      rewrite storeObject_not_reserved by reflexivity.
      rewrite scan_nan. cbn [fst snd].
      split; [|lia]. rewrite getObject_table by lia.
      cbn [objectRefs set_table]. now rewrite JsMapFacts.get_set_eq.
    + now apply getObject_storeObject.
Qed.

(** What the frame holds after [call_and_report]. *)
Lemma report_read_back (reported : value) (ret_ptr exc_ptr flag : Z) (s s1 : Solver) :
  table_ok s -> nextRefId s < 2 ^ 32 ->
  memory s1 = memory s -> objectRefs s1 = objectRefs s -> nextRefId s1 = nextRefId s ->
  0 <= exc_ptr < mem_length (memory s) ->
  0 <= ret_ptr -> ret_ptr + 3 < mem_length (memory s) ->
  exc_ptr < ret_ptr \/ ret_ptr + 4 <= exc_ptr ->
  0 <= flag < 256 ->
  let st := storeObject reported (set_memory (mem_set (memory s1) exc_ptr flag) s1) in
  let s' := set_memory (store_le32 (memory (snd st)) ret_ptr (fst st)) (snd st) in
  mem_get (memory s') exc_ptr = Some flag
  /\ getObject (readInt32FromMemory (memory s') ret_ptr) s' = read_back reported.
Proof.
  intros [H1 H2 H3] Hnext Hm Ht Hn Hexc Hret1 Hret2 Hapart Hflag. cbv zeta.
  set (s2 := set_memory (mem_set (memory s1) exc_ptr flag) s1).
  assert (table_ok s2) as Hok2.
  { split; cbn [s2 set_memory nextRefId objectRefs]; rewrite ?Ht, ?Hn; assumption. }
  destruct (storeObject_frame reported s2) as (_ & Hmem & _ & _).
  change (memory s2) with (mem_set (memory s1) exc_ptr flag) in Hmem.
  change (memory (set_memory ?m _)) with m. rewrite getObject_set_memory.
  rewrite Hmem, Hm. split.
  - rewrite mem_get_store_le32_outside by lia.
    rewrite mem_get_mem_set_eq by lia. f_equal. apply Z.mod_small. lia.
  - destruct (getObject_storeObject_read_back reported s2 Hok2) as [Hget Hid].
    change (nextRefId s2) with (nextRefId s1) in Hid. rewrite Hn in Hid.
    rewrite read_after_store by (rewrite ?mem_length_mem_set; lia).
    rewrite Z.mod_small by lia. exact Hget.
Qed.

(** X24.  [valueCall] on a frame inside the memory, in a well-formed
    table whose ids are below 2^32, calls the function named at
    [sp + 8] on the receiver named at [sp + 16] with the arguments
    whose ids stand 8 bytes apart at the pointer read at [sp + 24]
    (none when they would run past the memory), and reports through
    the frame: the flag at [sp + 40] is 0 when the call returned and 1
    when it threw or when the value is not a function, and the id at
    [sp + 32] resolves to the result or to what was thrown, except
    that [null] comes back as [undefined], whose id 0 it shares.  A
    BigInt result comes back as the number, for a BigInt within the
    safe integers (at most 2^53 - 1 in absolute value).  This holds
    when printing the arguments and the result runs no code of the
    host: they are neither objects nor symbols. *)
Theorem valueCall_reports (host : Host) (sp : Z) (s s1 : Solver) (r : Res value) :
  wasmInstance s = true -> table_ok s -> nextRefId s < 2 ^ 32 ->
  0 <= sp -> sp + 48 < mem_length (memory s) ->
  let fn := getObject (readInt32FromMemory (memory s) (sp + 8)) s in
  let thisObj := getObject (readInt32FromMemory (memory s) (sp + 16)) s in
  let args_ptr := readInt32FromMemory (memory s) (sp + 24) in
  let args_len := readInt32FromMemory (memory s) (sp + 28) in
  let args := if args_ptr + args_len * 8 <=? mem_length (memory s)
              then List.map
                     (fun k : nat =>
                        getObject (readInt32FromMemory (memory s)
                                     (args_ptr + Z.of_nat k * 8)) s)
                     (seq 0 (Z.to_nat args_len))
              else [] in
  Forall (fun a => converts_silently a = true) args ->
  (if typeof_function fn then apply_function host fn thisObj args
   else throw_error msg_not_function) s = (r, s1) ->
  match r with
  | Ok (VBigInt z) => Z.abs z <= MAX_SAFE_INTEGER
  | Ok v => converts_silently v = true
  | Throw _ => True
  end ->
  let s' := snd (valueCall host (SpNumber sp) s) in
  let reported := match r with Ok v => narrow_bigint v | Throw e => e end in
  fst (valueCall host (SpNumber sp) s) = Ok tt
  /\ mem_get (memory s') (sp + 40) = Some (match r with Ok _ => 0 | Throw _ => 1 end)
  /\ getObject (readInt32FromMemory (memory s') (sp + 32)) s' = read_back reported.
Proof.
  intros Hready Hok Hnext Hlo Hhi. cbv zeta. intros Hsilent Hrun Hres.
  pose proof (readInt32_range (memory s) (sp + 24)) as Hptr.
  pose proof (readInt32_range (memory s) (sp + 28)) as Hlen.
  match type of Hrun with
  | (if typeof_function ?fn then apply_function _ ?fn ?th ?args else _) _ = _ =>
      pose proof (apply_keeps_frame host fn th args msg_not_function s) as Hframe
  end.
  cbv zeta in Hframe. rewrite Hrun in Hframe. cbn [snd] in Hframe.
  destruct Hframe as (Hm & Ht & Hn & _).
  pose proof (collect_args_frame host _ _ s (proj1 Hptr) (proj1 Hlen) Hsilent) as Hargs.
  assert (match r with
          | Ok (VBigInt _) | Throw _ => True
          | Ok v => converts_silently v = true
          end) as Hres'.
  { destruct r as [[]|]; try exact Hres; exact I. }
  match type of Hrun with
  | (if typeof_function ?fn then apply_function _ ?fn ?th ?args else _) _ = _ =>
      pose proof (call_and_report_eq host fn th args (sp + 32) (sp + 40) s s1 r
                    ltac:(lia) ltac:(lia) ltac:(lia) Hrun Hres') as Hcall
  end.
  cbv zeta in Hcall.
  assert (valueCall host (SpNumber sp) s = call_and_report host
            (getObject (readInt32FromMemory (memory s) (sp + 8)) s)
            (getObject (readInt32FromMemory (memory s) (sp + 16)) s)
            (if readInt32FromMemory (memory s) (sp + 24)
                + readInt32FromMemory (memory s) (sp + 28) * 8 <=? mem_length (memory s)
             then List.map
                    (fun k : nat =>
                       getObject (readInt32FromMemory (memory s)
                                    (readInt32FromMemory (memory s) (sp + 24)
                                     + Z.of_nat k * 8)) s)
                    (seq 0 (Z.to_nat (readInt32FromMemory (memory s) (sp + 28))))
             else [])
            (sp + 32) (sp + 40) s) as ->.
  { rewrite Hcall.
    unfold valueCall, with_instance. unfold bind at 1. unfold gets at 1.
    rewrite Hready. cbn [very_large spNum_of].
    unfold try_catch at 1. unfold try_catch at 1.
    unfold bind at 1. unfold memory_length at 1. unfold gets at 1.
    assert (((sp <? 0) || (sp >=? mem_length (memory s) - 48)) = false) as ->
      by (apply orb_false_iff; split; lia).
    unfold bind at 1. unfold read32 at 1. unfold gets at 1.
    unfold bind at 1. unfold read32 at 1. unfold gets at 1.
    unfold bind at 1. unfold read32 at 1. unfold gets at 1.
    unfold bind at 1. unfold read32 at 1. unfold gets at 1.
    unfold bind at 1. unfold load at 1. unfold gets at 1.
    unfold bind at 1. unfold load at 1. unfold gets at 1.
    unfold bind at 1. rewrite Hargs. rewrite Hcall. reflexivity. }
  rewrite Hcall. cbn [fst snd]. split; [reflexivity|].
  apply (report_read_back _ (sp + 32) (sp + 40) _ s s1 Hok Hnext Hm Ht Hn);
    try lia. destruct r; lia.
Qed.

Lemma valueCall_reports_witness :
  let s0 := initialized (replicate 8 0 ++ le32 6 ++ replicate 52 0)
              (new_solver empty_world) in
  let s := snd (storeObject (VObj (RHostFunction 3)) s0) in
  let r : Res value := Ok (VBigInt 7) in
  let s' := snd (valueCall (MkHost (fun _ _ _ w => (Ok (VBigInt 7), w))
                              (host_construct idle_host) (host_to_string idle_host)
                              (host_to_bigint idle_host) (symbol_description idle_host))
                   (SpNumber 0) s) in
  let reported := match r with Ok v => narrow_bigint v | Throw e => e end in
  fst (valueCall (MkHost (fun _ _ _ w => (Ok (VBigInt 7), w))
                    (host_construct idle_host) (host_to_string idle_host)
                    (host_to_bigint idle_host) (symbol_description idle_host))
         (SpNumber 0) s) = Ok tt
  /\ mem_get (memory s') (0 + 40) = Some (match r with Ok _ => 0 | Throw _ => 1 end)
  /\ getObject (readInt32FromMemory (memory s') (0 + 32)) s' = read_back reported.
Proof.
  intros s0 s r.
  apply (valueCall_reports _ 0 s s r).
  - reflexivity.
  - split; [vm_compute; discriminate | repeat constructor; vm_compute; discriminate
           | repeat constructor; intros H; inversion H].
  - vm_compute. reflexivity.
  - lia.
  - vm_compute. reflexivity.
  - vm_compute. constructor.
  - reflexivity.
  - vm_compute. discriminate.
Defined.

(** X25.  [valueInvoke] on a frame inside the memory, in a well-formed
    table whose ids are below 2^32, calls the function named at
    [sp + 8], without a receiver, with the arguments whose ids stand 8
    bytes apart at the pointer read at [sp + 16], their number read at
    [sp + 20] (none when they would run past the memory), and reports
    through the frame: the flag at [sp + 32] is 0 when the call
    returned and 1 when it threw or when the value is not a function,
    and the id at [sp + 24] resolves to the result or to what was
    thrown, except that [null] comes back as [undefined], whose id 0
    it shares.  A BigInt result comes back as the number, for a BigInt
    within the safe integers (at most 2^53 - 1 in absolute value).
    This holds when printing the arguments and the result runs no
    code of the host: they are neither objects nor symbols. *)
Theorem valueInvoke_reports (host : Host) (sp : Z) (s s1 : Solver) (r : Res value) :
  wasmInstance s = true -> table_ok s -> nextRefId s < 2 ^ 32 ->
  0 <= sp -> sp + 40 < mem_length (memory s) ->
  let fn := getObject (readInt32FromMemory (memory s) (sp + 8)) s in
  let args_ptr := readInt32FromMemory (memory s) (sp + 16) in
  let args_len := readInt32FromMemory (memory s) (sp + 20) in
  let args := if args_ptr + args_len * 8 <=? mem_length (memory s)
              then List.map
                     (fun k : nat =>
                        getObject (readInt32FromMemory (memory s)
                                     (args_ptr + Z.of_nat k * 8)) s)
                     (seq 0 (Z.to_nat args_len))
              else [] in
  Forall (fun a => converts_silently a = true) args ->
  (if typeof_function fn then apply_function host fn VUndefined args
   else throw_error msg_not_function) s = (r, s1) ->
  match r with
  | Ok (VBigInt z) => Z.abs z <= MAX_SAFE_INTEGER
  | Ok v => converts_silently v = true
  | Throw _ => True
  end ->
  let s' := snd (valueInvoke host (SpNumber sp) s) in
  let reported := match r with Ok v => narrow_bigint v | Throw e => e end in
  fst (valueInvoke host (SpNumber sp) s) = Ok tt
  /\ mem_get (memory s') (sp + 32) = Some (match r with Ok _ => 0 | Throw _ => 1 end)
  /\ getObject (readInt32FromMemory (memory s') (sp + 24)) s' = read_back reported.
Proof.
  intros Hready Hok Hnext Hlo Hhi. cbv zeta. intros Hsilent Hrun Hres.
  pose proof (readInt32_range (memory s) (sp + 16)) as Hptr.
  pose proof (readInt32_range (memory s) (sp + 20)) as Hlen.
  match type of Hrun with
  | (if typeof_function ?fn then apply_function _ ?fn ?th ?args else _) _ = _ =>
      pose proof (apply_keeps_frame host fn th args msg_not_function s) as Hframe
  end.
  cbv zeta in Hframe. rewrite Hrun in Hframe. cbn [snd] in Hframe.
  destruct Hframe as (Hm & Ht & Hn & _).
  pose proof (collect_args_frame host _ _ s (proj1 Hptr) (proj1 Hlen) Hsilent) as Hargs.
  assert (match r with
          | Ok (VBigInt _) | Throw _ => True
          | Ok v => converts_silently v = true
          end) as Hres'.
  { destruct r as [[]|]; try exact Hres; exact I. }
  match type of Hrun with
  | (if typeof_function ?fn then apply_function _ ?fn ?th ?args else _) _ = _ =>
      pose proof (call_and_report_eq host fn th args (sp + 24) (sp + 32) s s1 r
                    ltac:(lia) ltac:(lia) ltac:(lia) Hrun Hres') as Hcall
  end.
  cbv zeta in Hcall.
  assert (valueInvoke host (SpNumber sp) s = call_and_report host
            (getObject (readInt32FromMemory (memory s) (sp + 8)) s)
            VUndefined
            (if readInt32FromMemory (memory s) (sp + 16)
                + readInt32FromMemory (memory s) (sp + 20) * 8 <=? mem_length (memory s)
             then List.map
                    (fun k : nat =>
                       getObject (readInt32FromMemory (memory s)
                                    (readInt32FromMemory (memory s) (sp + 16)
                                     + Z.of_nat k * 8)) s)
                    (seq 0 (Z.to_nat (readInt32FromMemory (memory s) (sp + 20))))
             else [])
            (sp + 24) (sp + 32) s) as ->.
  { rewrite Hcall.
    unfold valueInvoke, with_instance. unfold bind at 1. unfold gets at 1.
    rewrite Hready. cbn [very_large spNum_of].
    unfold try_catch at 1. unfold try_catch at 1.
    unfold bind at 1. unfold memory_length at 1. unfold gets at 1.
    assert (((sp <? 0) || (sp >=? mem_length (memory s) - 40)) = false) as ->
      by (apply orb_false_iff; split; lia).
    unfold bind at 1. unfold read32 at 1. unfold gets at 1.
    unfold bind at 1. unfold read32 at 1. unfold gets at 1.
    unfold bind at 1. unfold read32 at 1. unfold gets at 1.
    unfold bind at 1. unfold load at 1. unfold gets at 1.
    unfold bind at 1. rewrite Hargs. rewrite Hcall. reflexivity. }
  rewrite Hcall. cbn [fst snd]. split; [reflexivity|].
  apply (report_read_back _ (sp + 24) (sp + 32) _ s s1 Hok Hnext Hm Ht Hn);
    try lia. destruct r; lia.
Qed.

Lemma valueInvoke_reports_witness :
  let s := initialized (replicate 8 0 ++ le32 2 ++ replicate 52 0)
             (new_solver empty_world) in
  let s1 := with_error msg_not_function s in
  let r : Res value := Throw (VObj (RError 0)) in
  let s' := snd (valueInvoke idle_host (SpNumber 0) s) in
  let reported := match r with Ok v => narrow_bigint v | Throw e => e end in
  fst (valueInvoke idle_host (SpNumber 0) s) = Ok tt
  /\ mem_get (memory s') (0 + 32) = Some (match r with Ok _ => 0 | Throw _ => 1 end)
  /\ getObject (readInt32FromMemory (memory s') (0 + 24)) s' = read_back reported.
Proof.
  intros s s1 r.
  apply (valueInvoke_reports idle_host 0 s s1 r).
  - reflexivity.
  - split; [vm_compute; discriminate | constructor | constructor].
  - vm_compute. reflexivity.
  - lia.
  - vm_compute. reflexivity.
  - vm_compute. constructor.
  - reflexivity.
  - exact I.
Defined.

(** What [valueGet] writes for a receiver other than the global one. *)
Lemma valueGet_run (host : Host) (sp : Z) (s : Solver) :
  wasmInstance s = true -> table_ok s -> nextRefId s < 2 ^ 32 ->
  0 <= sp -> sp + 40 < mem_length (memory s) ->
  let v_addr := readInt32FromMemory (memory s) (sp + 8) in
  let p_ptr := readInt32FromMemory (memory s) (sp + 16) in
  let p_len := readInt32FromMemory (memory s) (sp + 24) in
  let prop := if p_ptr + p_len <=? mem_length (memory s)
              then readStringFromMemory (memory s) p_ptr p_len else [] in
  let target := getObject v_addr s in
  v_addr <> 0 ->
  match target with
  | VObj r =>
      match get_property (world s) r prop with
      | VBigInt z => Z.abs z <= MAX_SAFE_INTEGER
      | v => converts_silently v = true
      end
  | _ => True
  end ->
  let expected := match target with
                  | VObj r => narrow_bigint (get_property (world s) r prop)
                  | _ => VUndefined
                  end in
  let s' := snd (valueGet host (SpNumber sp) s) in
  fst (valueGet host (SpNumber sp) s) = Ok tt
  /\ getObject (readInt32FromMemory (memory s') (sp + 32)) s' = read_back expected.
Proof.
  intros Hready Hok Hnext Hlo Hhi. cbv zeta. intros Haddr Hval.
  pose proof (readInt32_range (memory s) (sp + 16)) as Hptr.
  set (v_addr := readInt32FromMemory (memory s) (sp + 8)) in *.
  set (p_ptr := readInt32FromMemory (memory s) (sp + 16)) in *.
  set (p_len := readInt32FromMemory (memory s) (sp + 24)) in *.
  set (prop := if p_ptr + p_len <=? mem_length (memory s)
               then readStringFromMemory (memory s) p_ptr p_len else []) in *.
  remember (valueGet host (SpNumber sp) s) as res eqn:Hres.
  unfold valueGet, with_instance in Hres. unfold bind at 1 in Hres.
  unfold gets at 1 in Hres. rewrite Hready in Hres.
  cbn [very_large spNum_of] in Hres. unfold try_catch in Hres.
  unfold bind at 1 in Hres. unfold memory_length at 1 in Hres. unfold gets at 1 in Hres.
  assert (((sp <? 0) || (sp >=? mem_length (memory s) - 40)) = false) as Hin
    by (apply orb_false_iff; split; lia).
  rewrite Hin in Hres.
  unfold bind at 1 in Hres. unfold read32 at 1 in Hres. unfold gets at 1 in Hres.
  unfold bind at 1 in Hres. unfold read32 at 1 in Hres. unfold gets at 1 in Hres.
  unfold bind at 1 in Hres. unfold read32 at 1 in Hres. unfold gets at 1 in Hres.
  fold v_addr p_ptr p_len in Hres.
  unfold bind at 1 in Hres.
  assert ((if (p_ptr >=? 0) && (p_ptr + p_len <=? mem_length (memory s))
           then readString p_ptr p_len else ret []) s = (Ok prop, s)) as Hprop.
  { subst prop. destruct (Z.geb_spec p_ptr 0); [|lia]. cbn [andb].
    destruct (p_ptr + p_len <=? mem_length (memory s)); reflexivity. }
  rewrite Hprop in Hres.
  unfold bind at 1 in Hres. unfold valueGet_target in Hres.
  destruct (Z.eqb_spec v_addr 0) as [|_]; [contradiction|].
  unfold load at 1 in Hres. unfold gets at 1 in Hres.
  assert (((sp + 32 <? 0) || (sp + 32 + 3 >=? mem_length (memory s))) = false) as Hret
    by (apply orb_false_iff; split; lia).
  assert (forall w, readInt32FromMemory
            (mem_set (mem_set (mem_set (mem_set (memory (set_world w s)) (sp + 32) 0)
               (sp + 33) 0) (sp + 34) 0) (sp + 35) 0) (sp + 32) = 0) as Hzero.
  { intros w. change (memory (set_world w s)) with (memory s).
    replace (sp + 33) with (sp + 32 + 1) by lia.
    replace (sp + 34) with (sp + 32 + 2) by lia.
    replace (sp + 35) with (sp + 32 + 3) by lia.
    change (mem_set (mem_set (mem_set (mem_set (memory s) (sp + 32) 0)
              (sp + 32 + 1) 0) (sp + 32 + 2) 0) (sp + 32 + 3) 0)
      with (store_le32 (memory s) (sp + 32) 0).
    rewrite read_after_store by lia. reflexivity. }
  assert (forall v,
            let st := storeObject v s in
            getObject (readInt32FromMemory (store_le32 (memory (snd st)) (sp + 32) (fst st))
                         (sp + 32)) (snd st) = read_back v) as Hstored.
  { intros v. cbv zeta.
    destruct (getObject_storeObject_read_back v s Hok) as [Hget Hid].
    destruct (storeObject_frame v s) as (_ & Hmem & _ & _).
    rewrite Hmem. rewrite read_after_store by lia.
    rewrite Z.mod_small by lia. exact Hget. }
  assert ((sp + 35 <? mem_length (memory s)) = true) as Hcatch by (apply Z.ltb_lt; lia).
  destruct (getObject v_addr s) as [| |b|n|z|str|n|r] eqn:Htarget;
    cbn [not_nullish Reflect_get] in Hres.
  1-2: unfold bind, ret, store, poke32, memory_length, gets, modify in Hres;
       cbn [narrow_bigint storeObject strict_eq] in Hres;
       change (storeObject VUndefined s) with (0, s) in Hres;
       cbn [memory] in Hres; rewrite Hret in Hres; subst res; cbn [fst snd];
       change (memory (set_memory ?m _)) with m; rewrite getObject_set_memory;
       (split; [reflexivity|]); rewrite read_after_store by lia; reflexivity.
  1-5: unfold throw_error, new_error, bind, throw, poke, memory_length, gets, modify
         in Hres;
       cbn [fst snd memory set_world set_memory] in Hres;
       rewrite ?mem_length_mem_set in Hres; rewrite Hcatch in Hres;
       subst res; cbn [fst snd];
       change (memory (set_memory ?m _)) with m; rewrite getObject_set_memory;
       (split; [reflexivity|]);
       rewrite (Hzero (MkWorld _ _ _)); reflexivity.
  unfold ToPropertyKey, ToString in Hres.
  unfold bind at 1 in Hres. unfold bind at 1 in Hres. unfold bind at 1 in Hres.
  unfold bind at 1 in Hres. unfold ret at 1 in Hres. unfold ret at 1 in Hres.
  unfold gets at 1 in Hres.
  set (v := get_property (world s) r prop) in *.
  assert (log_value host v s = (Ok tt, s)) as Hlog.
  { destruct v; try (apply log_value_silent; apply Hval); reflexivity. }
  unfold bind at 1 in Hres. rewrite Hlog in Hres. unfold ret at 1 in Hres.
  unfold bind at 1 in Hres. unfold store at 1 in Hres.
  specialize (Hstored (narrow_bigint v)). cbv zeta in Hstored.
  destruct (storeObject (narrow_bigint v) s) as [id s3] eqn:Hst.
  cbn [fst snd] in Hstored.
  rewrite Hret in Hres. unfold poke32, modify in Hres. subst res. cbn [fst snd].
  change (memory (set_memory ?m _)) with m. rewrite getObject_set_memory.
  split; [reflexivity | exact Hstored].
Qed.

(** X26.  [valueGet] on a frame inside the memory, in a well-formed
    table whose ids are below 2^32, for a receiver id other than 0:
    when the id names an object, the id written at [sp + 32] resolves
    to the value of the property whose name the frame points to (the
    empty name when it would run past the memory), an absent property
    giving [undefined] and a [null] one coming back as [undefined]
    too, since they share the id 0; a BigInt comes back as the number,
    for a BigInt within the safe integers (at most 2^53 - 1 in
    absolute value).  When the id names anything else, a string
    included, the id resolves to [undefined] ([Reflect.get] throws on
    a primitive and the handler writes the id 0).  This holds when
    printing the value runs no code of the host: it is neither an
    object nor a symbol. *)
Theorem valueGet_reads_property (host : Host) (sp : Z) (s : Solver) :
  wasmInstance s = true -> table_ok s -> nextRefId s < 2 ^ 32 ->
  0 <= sp -> sp + 40 < mem_length (memory s) ->
  let v_addr := readInt32FromMemory (memory s) (sp + 8) in
  let p_ptr := readInt32FromMemory (memory s) (sp + 16) in
  let p_len := readInt32FromMemory (memory s) (sp + 24) in
  let prop := if p_ptr + p_len <=? mem_length (memory s)
              then readStringFromMemory (memory s) p_ptr p_len else [] in
  let target := getObject v_addr s in
  v_addr <> 0 ->
  match target with
  | VObj r =>
      match get_property (world s) r prop with
      | VBigInt z => Z.abs z <= MAX_SAFE_INTEGER
      | v => converts_silently v = true
      end
  | _ => True
  end ->
  let expected := match target with
                  | VObj r => narrow_bigint (get_property (world s) r prop)
                  | _ => VUndefined
                  end in
  let s' := snd (valueGet host (SpNumber sp) s) in
  fst (valueGet host (SpNumber sp) s) = Ok tt
  /\ getObject (readInt32FromMemory (memory s') (sp + 32)) s' = read_back expected.
Proof.
  intros Hready Hok Hnext Hlo Hhi.
  exact (valueGet_run host sp s Hready Hok Hnext Hlo Hhi).
Qed.

Lemma valueGet_reads_property_witness :
  let s := initialized (frame_get 2 "userAgent") (new_solver empty_world) in
  let v_addr := readInt32FromMemory (memory s) (0 + 8) in
  let p_ptr := readInt32FromMemory (memory s) (0 + 16) in
  let p_len := readInt32FromMemory (memory s) (0 + 24) in
  let prop := if p_ptr + p_len <=? mem_length (memory s)
              then readStringFromMemory (memory s) p_ptr p_len else [] in
  let target := getObject v_addr s in
  let expected := match target with
                  | VObj r => narrow_bigint (get_property (world s) r prop)
                  | _ => VUndefined
                  end in
  let s' := snd (valueGet idle_host (SpNumber 0) s) in
  fst (valueGet idle_host (SpNumber 0) s) = Ok tt
  /\ getObject (readInt32FromMemory (memory s') (0 + 32)) s' = read_back expected.
Proof.
  intros s.
  apply (valueGet_reads_property idle_host 0 s).
  - reflexivity.
  - split; [vm_compute; discriminate | constructor | constructor].
  - vm_compute. reflexivity.
  - lia.
  - vm_compute. reflexivity.
  - vm_compute. discriminate.
  - vm_compute. reflexivity.
Defined.

(** * How the handlers end after an error *)














